(** * AROMA: the affine tensor engine

    A shallow embedding of [aroma/util/sparse.py] (the sparse assemblers) and
    of [aroma/affine/integrands/__init__.py] (the Integrand family), with the
    properties of the specification stated over it.

    Conventions of the embedding.
    - A one-dimensional numpy array is a [list]; positions and coordinates
      are [nat] (the coordinate arrays of a sparsity pattern hold non-negative
      integers).
    - A Python exception is a constructor of [pyerror]; a function that can
      raise returns a [result].
    - Values are taken in a type [V] with the operations of the [Scalar]
      class.  Two instances are given: binary64 floating point numbers (the
      kernel's primitive floats, for the worked examples of the specification)
      and [Z] (exact arithmetic).  General statements that rearrange sums
      assume [ScalarLaws], the laws of a commutative semiring that the
      proofs use; [Z] satisfies them, binary64 addition is not
      associative.
    - The functions of numpy and scipy are embedded by what they return
      on the arrays that reach them here. *)

From Stdlib Require Import String Ascii.
From Stdlib Require Import ZArith List Bool Arith Lia.
From Stdlib Require Import Permutation Sorted.
From Stdlib Require DecimalString DecimalNat.
From Corelib Require Import PrimFloat.
Import ListNotations.
Open Scope string_scope.
Open Scope nat_scope.
Open Scope list_scope.

Set Implicit Arguments.
Set Warnings "-register-all".

(** ** Python exceptions and fallible computations *)

Inductive pyerror : Type :=
| AssertionError
| KeyError
| IndexError
| ValueError
| AttributeError
| TypeError
| NotImplementedError
| NameError.

Inductive result (A : Type) : Type :=
| Ok (a : A)
| Raise (e : pyerror).

Arguments Ok {A} a.
Arguments Raise {A} e.

Definition bind {A B : Type} (m : result A) (k : A -> result B) : result B :=
  match m with
  | Ok a => k a
  | Raise e => Raise e
  end.

Notation "x <- m ;; k" := (bind m (fun x => k))
  (at level 61, m at next level, right associativity).
Notation "' p <- m ;; k" := (bind m (fun x => let p := x in k))
  (at level 61, p pattern, m at next level, right associativity).

(** [assert cond] *)
Definition py_assert (cond : bool) : result unit :=
  if cond then Ok tt else Raise AssertionError.

Definition fails {A : Type} (m : result A) : Prop :=
  exists e, m = Raise e.

(** ** Scalars *)

Class Scalar (V : Type) : Type := {
  zero : V;
  add : V -> V -> V;
  mul : V -> V -> V;
  (** truth value of a number, as [np.nonzero] reads it *)
  is_nonzero : V -> bool
}.

Class ScalarLaws (V : Type) `{Scalar V} : Prop := {
  add_comm : forall a b : V, add a b = add b a;
  add_assoc : forall a b c : V, add a (add b c) = add (add a b) c;
  add_zero_l : forall a : V, add zero a = a;
  mul_zero_l : forall a : V, mul zero a = zero;
  mul_zero_r : forall a : V, mul a zero = zero;
  mul_add_distr_r : forall a b c : V, mul (add a b) c = add (mul a c) (mul b c)
}.

Arguments ScalarLaws V {_}.

#[export] Instance Scalar_Z : Scalar Z := {
  zero := 0%Z;
  add := Z.add;
  mul := Z.mul;
  is_nonzero := fun z => negb (Z.eqb z 0)
}.

#[export] Instance Scalar_float : Scalar float := {
  zero := 0%float;
  add := PrimFloat.add;
  mul := PrimFloat.mul;
  is_nonzero := fun x => negb (PrimFloat.eqb x 0%float)
}.

(** ** The numpy operations the sources use *)

Module np.

Section Generic.
Context {A : Type}.

(** [arr[i]] for a non-negative integer [i] *)
Definition item (arr : list A) (i : nat) : result A :=
  match nth_error arr i with
  | Some a => Ok a
  | None => Raise IndexError
  end.

(** [arr[idx]] for an integer array [idx] (a gather) *)
Fixpoint take (arr : list A) (idx : list nat) : result (list A) :=
  match idx with
  | [] => Ok []
  | i :: idx' =>
      a <- item arr i ;;
      rest <- take arr idx' ;;
      Ok (a :: rest)
  end.

(** [arr[mask]] for a boolean array [mask] of the length of [arr] *)
Fixpoint compress (arr : list A) (mask : list bool) : result (list A) :=
  match arr, mask with
  | [], [] => Ok []
  | a :: arr', b :: mask' =>
      rest <- compress arr' mask' ;;
      Ok (if b then a :: rest else rest)
  | _, _ => Raise IndexError
  end.

End Generic.

(** [np.nonzero(mask)] for a boolean array: the positions that hold True,
    counted from [start] *)
Fixpoint nonzero_from (start : nat) (mask : list bool) : list nat :=
  match mask with
  | [] => []
  | b :: mask' =>
      if b then start :: nonzero_from (S start) mask'
      else nonzero_from (S start) mask'
  end.

Definition nonzero_mask (mask : list bool) : list nat := nonzero_from 0 mask.

(** [np.nonzero(a)] for an array of numbers *)
Definition nonzero {V : Type} `{Scalar V} (a : list V) : list nat :=
  nonzero_mask (map is_nonzero a).

(** [np.max(a)]: raises on an empty array *)
Definition max (a : list nat) : result nat :=
  match a with
  | [] => Raise ValueError
  | x :: a' => Ok (fold_left Nat.max a' x)
  end.

(** [a[1:] != a[:-1]], elementwise *)
Fixpoint adjacent_neq (a : list nat) : list bool :=
  match a with
  | [] => []
  | x :: a' =>
      match a' with
      | [] => []
      | y :: _ => negb (Nat.eqb y x) :: adjacent_neq a'
      end
  end.

(** [m1 | m2], elementwise, for two boolean arrays of one length *)
Fixpoint logical_or (m1 m2 : list bool) : list bool :=
  match m1, m2 with
  | b1 :: m1', b2 :: m2' => (b1 || b2) :: logical_or m1' m2'
  | _, _ => []
  end.

(** *** [np.lexsort]

    [np.lexsort((row, col))] sorts the positions by the last key first:
    [col] is the primary key and [row] the secondary one.  The sort is
    stable; any stable sort returns the same permutation, and the embedding
    uses insertion. *)

Definition key_leb (a b : nat * nat) : bool :=
  (fst a <? fst b) || ((fst a =? fst b) && (snd a <=? snd b)).

Fixpoint insert (x : (nat * nat) * nat) (l : list ((nat * nat) * nat))
  : list ((nat * nat) * nat) :=
  match l with
  | [] => [x]
  | y :: l' =>
      if key_leb (fst x) (fst y) then x :: y :: l'
      else y :: insert x l'
  end.

Fixpoint sort (l : list ((nat * nat) * nat)) : list ((nat * nat) * nat) :=
  match l with
  | [] => []
  | x :: l' => insert x (sort l')
  end.

(** the key of position [n] is [(major[n], minor[n])] *)
Definition lexsort (minor major : list nat) : result (list nat) :=
  if length minor =? length major then
    Ok (map snd (sort (combine (combine major minor) (seq 0 (length major)))))
  else Raise ValueError.

(** [np.lexsort((inds,))]: one key *)
Definition lexsort1 (inds : list nat) : list nat :=
  map snd (sort (combine (combine inds (repeat 0 (length inds)))
                         (seq 0 (length inds)))).

Section Reduce.
Context {V : Type} `{Scalar V}.

(** [np.add.reduce] of a non-empty run: the running sum starts from the
    first element *)
Definition add_reduce_from (x : V) (l : list V) : V := fold_left add l x.

(** [np.sum(a)] *)
Definition sum (a : list V) : V :=
  match a with
  | [] => zero
  | x :: a' => add_reduce_from x a'
  end.

(** [np.add.reduceat(data, inds)]: entry [i] is the sum of
    [data[inds[i]:inds[i+1]]] (to the end for the last one), or
    [data[inds[i]]] alone when [inds[i] >= inds[i+1]]; an offset outside
    [data] raises. *)
Fixpoint add_reduceat (data : list V) (inds : list nat) : result (list V) :=
  match inds with
  | [] => Ok []
  | a :: inds' =>
      x <- item data a ;;
      let run :=
        match inds' with
        | [] => skipn (S a) data
        | b :: _ => firstn (b - S a) (skipn (S a) data)
        end in
      rest <- add_reduceat data inds' ;;
      Ok (add_reduce_from x run :: rest)
  end.

(** [a * b], elementwise, for two arrays of one length *)
Fixpoint multiply (a b : list V) : result (list V) :=
  match a, b with
  | [], [] => Ok []
  | x :: a', y :: b' =>
      rest <- multiply a' b' ;;
      Ok (mul x y :: rest)
  | _, _ => Raise ValueError
  end.

(** [data *= x], in place on [data]: [x] has the length of [data], or
    length one and is repeated *)
Definition imul (data x : list V) : result (list V) :=
  if length x =? length data then multiply data x
  else match x with
       | [c] => Ok (map (fun d => mul d c) data)
       | _ => Raise ValueError
       end.

(** [retval = np.zeros(n); retval[row] = data]: a scatter where later
    writes win *)
Fixpoint put (retval : list V) (row : list nat) (data : list V)
  : result (list V) :=
  match row, data with
  | [], [] => Ok retval
  | r :: row', d :: data' =>
      if r <? length retval then
        put (firstn r retval ++ d :: skipn (S r) retval) row' data'
      else Raise IndexError
  | _, _ => Raise ValueError
  end.

End Reduce.

End np.

(** ** Integer arrays and their dtype *)

Inductive int_dtype : Type := Int8 | Int16 | Int32 | Int64.

(** [np.iinfo(dtype).max] *)
Definition iinfo_max (d : int_dtype) : Z :=
  match d with
  | Int8 => 127
  | Int16 => 32767
  | Int32 => 2147483647
  | Int64 => 9223372036854775807
  end%Z.

Definition dtype_bits (d : int_dtype) : nat :=
  match d with Int8 => 8 | Int16 => 16 | Int32 => 32 | Int64 => 64 end.

Definition int_dtype_eqb (a b : int_dtype) : bool :=
  dtype_bits a =? dtype_bits b.

(** An integer array: its dtype and its entries. *)
Record intarray : Type := IntArray {
  dtype : int_dtype;
  values : list nat
}.

(** [a.astype(d)].  The sources cast to a narrower type only behind a guard
    that every entry is at most the maximum of that type, so that the cast
    keeps the entries. *)
Definition astype (d : int_dtype) (a : list nat) : intarray :=
  {| dtype := d; values := a |}.

(** ** [aroma/util/sparse.py] *)

(** *** The compressed sparse row matrix of scipy *)

Record csr_matrix (V : Type) : Type := CSR {
  csr_data : list V;
  csr_indices : list nat;
  csr_indptr : list nat;
  csr_shape : nat * nat
}.

Module sptools.
Section Tools.
Context {V : Type} `{Scalar V}.

(** The stored entries [(column, value)] of row [r]:
    positions [indptr[r]] to [indptr[r+1]] of the index and data arrays. *)
Definition row_entries (m : csr_matrix V) (r : nat) : list (nat * V) :=
  let lo := nth r (csr_indptr m) 0 in
  let hi := nth (S r) (csr_indptr m) 0 in
  firstn (hi - lo) (skipn lo (combine (csr_indices m) (csr_data m))).

(** [B[j] += v] *)
Definition add_at (B : list V) (j : nat) (v : V) : list V :=
  match nth_error B j with
  | Some b => firstn j B ++ add b v :: skipn (S j) B
  | None => B
  end.

(** One row of [csr_todense]: the stored entries are added, one after the
    other, into a row of zeros. *)
Definition dense_row (N : nat) (entries : list (nat * V)) : list V :=
  fold_left (fun B e => add_at B (fst e) (snd e)) entries (repeat zero N).

(** [m.toarray()] *)
Definition toarray (m : csr_matrix V) : list (list V) :=
  map (fun r => dense_row (snd (csr_shape m)) (row_entries m r))
      (seq 0 (fst (csr_shape m))).

(** [m[r, c]] *)
Definition entry (m : csr_matrix V) (r c : nat) : V :=
  nth c (nth r (toarray m) []) zero.

(** [csr_matvec]: [y[i] = sum over the stored entries of row i of
    data * x[column]], the sum starting from the zero that [y] holds. *)
Definition matvec_row (x : list V) (entries : list (nat * V)) : V :=
  fold_left (fun s e => add s (mul (snd e) (nth (fst e) x zero))) entries zero.

(** [m.dot(x)] for a vector [x]: the lengths are checked first *)
Definition dot (m : csr_matrix V) (x : list V) : result (list V) :=
  if length x =? snd (csr_shape m) then
    Ok (map (fun r => matvec_row x (row_entries m r))
            (seq 0 (fst (csr_shape m))))
  else Raise ValueError.

(** [m.T.dot(x)].  The transpose of a CSR matrix is the CSC matrix on the
    same three arrays, and [csc_matvec] scatters: for every row [i] of [m]
    and every stored entry [(j, v)] of it, [y[j] += v * x[i]]. *)
Definition rmatvec_row (xi : V) (y : list V) (entries : list (nat * V))
  : list V :=
  fold_left (fun y e => add_at y (fst e) (mul (snd e) xi)) entries y.

Definition T_dot (m : csr_matrix V) (x : list V) : result (list V) :=
  if length x =? fst (csr_shape m) then
    Ok (fold_left
          (fun y r => rmatvec_row (nth r x zero) y (row_entries m r))
          (seq 0 (fst (csr_shape m)))
          (repeat zero (snd (csr_shape m))))
  else Raise ValueError.

(** [coo_tocsr(M, N, nnz, row, col, data, indptr, indices, new_data)]:
    [indptr[i]] is the number of entries in the rows before [i], and the
    entries are written row after row, those of one row in the order of the
    input.  Duplicates are not summed. *)
Definition coo_tocsr (M N : nat) (row col : list nat) (data : list V)
  : list nat * list nat * list V :=
  let coo := combine row (combine col data) in
  let in_row r := filter (fun e => fst e =? r) coo in
  let before i := filter (fun e => fst e <? i) coo in
  let indptr := map (fun i => length (before i)) (seq 0 (S M)) in
  let sorted := flat_map in_row (seq 0 M) in
  (indptr, map (fun e => fst (snd e)) sorted, map (fun e => snd (snd e)) sorted).

End Tools.
End sptools.

(** [M, N = shape] *)
Definition unpack2 (shape : list nat) : result (nat * nat) :=
  match shape with
  | [M; N] => Ok (M, N)
  | _ => Raise ValueError
  end.

(** [np.can_cast(dtype, np.int32)] *)
Definition can_cast_int32 (d : int_dtype) : bool :=
  match d with
  | Int64 => false
  | _ => true
  end.

(** [sp.sputils.get_index_dtype((row, col), maxval=maxval)]: 32 bits when
    [maxval] fits and no array has a wider type, 64 bits otherwise (the
    contents of the arrays are not read). *)
Definition get_index_dtype (arrays : list intarray) (maxval : nat)
  : int_dtype :=
  if (Z.of_nat maxval <=? iinfo_max Int32)%Z
     && forallb (fun a => can_cast_int32 (dtype a)) arrays
  then Int32 else Int64.

(** ** Dense arrays

    An array of numpy: its shape and its entries, nested along the axes
    (a number at rank 0, else the list of the sub-arrays along the first
    axis). *)

Inductive ndtree (V : Type) : Type :=
| Item (v : V)
| Axis (l : list (ndtree V)).

Arguments Item {V} v.
Arguments Axis {V} l.

Record ndarray (V : Type) : Type := NdArray {
  nd_shape : list nat;
  nd_tree : ndtree V
}.

Module nd.
Section Dense.
Context {V : Type} `{Scalar V}.

(** [np.array(v)] for a number [v] *)
Definition scalar (v : V) : ndarray V := NdArray [] (Item v).

Definition of_vector (l : list V) : ndarray V :=
  NdArray [length l] (Axis (map Item l)).

Definition of_matrix (M N : nat) (rows : list (list V)) : ndarray V :=
  NdArray [M; N] (Axis (map (fun r => Axis (map Item r)) rows)).

(** [t[_, ...]], [n] times: [n] new leading axes of length one *)
Fixpoint newaxes (n : nat) (t : ndtree V) : ndtree V :=
  match n with
  | 0 => t
  | S n' => Axis [newaxes n' t]
  end.

(** The vector [cont] after [cont = cont[_, ...]] was run [i] times and
    [cont = cont[..., _]] until its rank reached [ndim]. *)
Definition expand (i ndim : nat) (cont : list V) : ndarray V :=
  let trailing := ndim - S i in
  NdArray (repeat 1 i ++ length cont :: repeat 1 trailing)
          (newaxes i (Axis (map (fun v => newaxes trailing (Item v)) cont))).

(** Broadcasting of two shapes of one rank *)
Fixpoint broadcast_shapes (s1 s2 : list nat) : result (list nat) :=
  match s1, s2 with
  | [], [] => Ok []
  | a :: s1', b :: s2' =>
      rest <- broadcast_shapes s1' s2' ;;
      if a =? b then Ok (a :: rest)
      else if a =? 1 then Ok (b :: rest)
      else if b =? 1 then Ok (a :: rest)
      else Raise ValueError
  | _, _ => Raise ValueError
  end.

(** [a * b] on the entries of two arrays of one rank: along an axis the
    lengths agree, or the side of length one is repeated *)
Fixpoint multiply_tree (a b : ndtree V) {struct a} : result (ndtree V) :=
  match a with
  | Item x =>
      match b with
      | Item y => Ok (Item (mul x y))
      | Axis _ => Raise ValueError
      end
  | Axis la =>
      match b with
      | Item _ => Raise ValueError
      | Axis lb =>
          if length la =? length lb then
            r <- (fix zip (la lb : list (ndtree V)) : result (list (ndtree V)) :=
                    match la, lb with
                    | [], [] => Ok []
                    | x :: la', y :: lb' =>
                        t <- multiply_tree x y ;;
                        ts <- zip la' lb' ;;
                        Ok (t :: ts)
                    | _, _ => Raise ValueError
                    end) la lb ;;
            Ok (Axis r)
          else
            match la, lb with
            | [x], _ =>
                r <- (fix each (lb : list (ndtree V)) : result (list (ndtree V)) :=
                        match lb with
                        | [] => Ok []
                        | y :: lb' =>
                            t <- multiply_tree x y ;;
                            ts <- each lb' ;;
                            Ok (t :: ts)
                        end) lb ;;
                Ok (Axis r)
            | _, [y] =>
                r <- (fix each (la : list (ndtree V)) : result (list (ndtree V)) :=
                        match la with
                        | [] => Ok []
                        | x :: la' =>
                            t <- multiply_tree x y ;;
                            ts <- each la' ;;
                            Ok (t :: ts)
                        end) la ;;
                Ok (Axis r)
            | _, _ => Raise ValueError
            end
      end
  end.

(** [a * b]: the array of lower rank first gets leading axes of length
    one *)
Definition multiply (a b : ndarray V) : result (ndarray V) :=
  let ra := length (nd_shape a) in
  let rb := length (nd_shape b) in
  shape <- broadcast_shapes (repeat 1 (rb - ra) ++ nd_shape a)
                            (repeat 1 (ra - rb) ++ nd_shape b) ;;
  tree <- multiply_tree (newaxes (rb - ra) (nd_tree a))
                        (newaxes (ra - rb) (nd_tree b)) ;;
  Ok (NdArray shape tree).

(** [np.zeros(shape)] *)
Fixpoint zeros (shape : list nat) : ndtree V :=
  match shape with
  | [] => Item zero
  | n :: inner => Axis (repeat (zeros inner) n)
  end.

(** [a + b] on the entries of two arrays of one shape *)
Fixpoint add_tree (a b : ndtree V) {struct a} : result (ndtree V) :=
  match a with
  | Item x =>
      match b with
      | Item y => Ok (Item (add x y))
      | Axis _ => Raise ValueError
      end
  | Axis la =>
      match b with
      | Item _ => Raise ValueError
      | Axis lb =>
          r <- (fix zip (la lb : list (ndtree V)) : result (list (ndtree V)) :=
                  match la, lb with
                  | [], [] => Ok []
                  | x :: la', y :: lb' =>
                      t <- add_tree x y ;;
                      ts <- zip la' lb' ;;
                      Ok (t :: ts)
                  | _, _ => Raise ValueError
                  end) la lb ;;
          Ok (Axis r)
      end
  end.

(** the sum of the sub-arrays of one axis: the running sum starts from
    the first one; an empty axis sums to zeros *)
Definition add_reduce (inner : list nat) (l : list (ndtree V))
  : result (ndtree V) :=
  match l with
  | [] => Ok (zeros inner)
  | x :: l' => fold_left (fun acc y => a <- acc ;; add_tree a y) l' (Ok x)
  end.

(** [a.sum(k)] on the entries of an array of shape [shape] *)
Fixpoint sum_axis_tree (k : nat) (shape : list nat) (t : ndtree V)
  {struct t} : result (ndtree V) :=
  match shape, t with
  | _ :: inner, Axis l =>
      match k with
      | 0 => add_reduce inner l
      | S k' =>
          r <- (fix each (l : list (ndtree V)) : result (list (ndtree V)) :=
                  match l with
                  | [] => Ok []
                  | x :: l' =>
                      t <- sum_axis_tree k' inner x ;;
                      ts <- each l' ;;
                      Ok (t :: ts)
                  end) l ;;
          Ok (Axis r)
      end
  | _, _ => Raise ValueError
  end.

Fixpoint remove_nth {A : Type} (k : nat) (l : list A) : list A :=
  match l with
  | [] => []
  | x :: l' =>
      match k with
      | 0 => l'
      | S k' => x :: remove_nth k' l'
      end
  end.

(** [a.sum(k)] *)
Definition sum_axis (k : nat) (a : ndarray V) : result (ndarray V) :=
  tree <- sum_axis_tree k (nd_shape a) (nd_tree a) ;;
  Ok (NdArray (remove_nth k (nd_shape a)) tree).

(** [a.sum(axes)] for a tuple of increasing axes: the last axis is summed
    first, so that the positions of the others stay *)
Fixpoint sum (a : ndarray V) (axes : list nat) : result (ndarray V) :=
  match axes with
  | [] => Ok a
  | k :: axes' =>
      a' <- sum a axes' ;;
      sum_axis k a'
  end.

End Dense.
End nd.

(** ** The persistence store

    A hierarchical store of named groups: a group holds attributes and named
    members, each a dataset or a group.  A Python dict, and the members of a
    group, are association lists in insertion order. *)

Section Assoc.
Context {K A : Type} (eqb : K -> K -> bool).

Fixpoint assoc_get (k : K) (l : list (K * A)) : option A :=
  match l with
  | [] => None
  | (k', a) :: l' => if eqb k k' then Some a else assoc_get k l'
  end.

(** [d[k] = a]: the value of an existing key is replaced in place, a new key
    goes last *)
Fixpoint assoc_set (k : K) (a : A) (l : list (K * A)) : list (K * A) :=
  match l with
  | [] => [(k, a)]
  | (k', a') :: l' =>
      if eqb k k' then (k, a) :: l' else (k', a') :: assoc_set k a l'
  end.

End Assoc.

(** A metadata property: a number or a string. *)
Inductive propval : Type :=
| PropInt (z : Z)
| PropStr (s : string).

Module h5.
Section Store.
Context {V : Type}.

Inductive dataset : Type :=
| IntData (a : intarray)
| ValData (l : list V)
| ArrayData (a : ndarray V)
| MatrixData (m : csr_matrix V)
| PropData (p : propval).

Inductive attr : Type :=
| StrAttr (s : string)
| ShapeAttr (l : list nat).

Inductive node : Type :=
| Dataset (d : dataset)
| Group (attrs : list (string * attr)) (members : list (string * node)).

Definition empty_group : node := Group [] [].

(** [group.require_group(name)]: the member of that name, created empty
    when there is none *)
Definition require_group (group : node) (name : string) : result node :=
  match group with
  | Group _ members =>
      match assoc_get String.eqb name members with
      | Some (Group a m) => Ok (Group a m)
      | Some (Dataset _) => Raise TypeError
      | None => Ok empty_group
      end
  | Dataset _ => Raise TypeError
  end.

(** the member [name] of [group] becomes [n]: how a change made through the
    handle that [require_group] returned shows in the parent *)
Definition set_member (group : node) (name : string) (n : node)
  : result node :=
  match group with
  | Group attrs members =>
      Ok (Group attrs (assoc_set String.eqb name n members))
  | Dataset _ => Raise TypeError
  end.

(** [group[name]] *)
Definition get_member (group : node) (name : string) : result node :=
  match group with
  | Group _ members =>
      match assoc_get String.eqb name members with
      | Some n => Ok n
      | None => Raise KeyError
      end
  | Dataset _ => Raise TypeError
  end.

(** [group.items()] *)
Definition items (group : node) : result (list (string * node)) :=
  match group with
  | Group _ members => Ok members
  | Dataset _ => Raise TypeError
  end.

(** [group.attrs[key] = a] *)
Definition set_attr (group : node) (key : string) (a : attr) : result node :=
  match group with
  | Group attrs members =>
      Ok (Group (assoc_set String.eqb key a attrs) members)
  | Dataset _ => Raise TypeError
  end.

(** [group.attrs[key]] *)
Definition get_attr (group : node) (key : string) : result attr :=
  match group with
  | Group attrs _ =>
      match assoc_get String.eqb key attrs with
      | Some a => Ok a
      | None => Raise KeyError
      end
  | Dataset _ => Raise TypeError
  end.

(** [tuple(group.attrs['shape'])] *)
Definition get_shape (group : node) (key : string) : result (list nat) :=
  a <- get_attr group key ;;
  match a with
  | ShapeAttr l => Ok l
  | StrAttr _ => Raise TypeError
  end.

(** [group.attrs['type']] *)
Definition get_str (group : node) (key : string) : result string :=
  a <- get_attr group key ;;
  match a with
  | StrAttr s => Ok s
  | ShapeAttr _ => Raise TypeError
  end.

(** Modelled from the spec: [util.to_dataset] and [util.from_dataset] are
    not among the sources.  A group holds named arrays; [to_dataset] binds
    the name to the value it is given and [from_dataset] gives the value
    back.  The spec does not say what happens to a name that is bound
    already (here it is bound anew; a backend may refuse); the statements
    about [write] are for names that the group does not hold. *)
Definition to_dataset (value : dataset) (group : node) (name : string)
  : result node :=
  set_member group name (Dataset value).

Definition from_dataset (n : node) : result dataset :=
  match n with
  | Dataset d => Ok d
  | Group _ _ => Raise TypeError
  end.

(** [group[name][:]], read as an integer array *)
Definition get_ints (group : node) (name : string) : result intarray :=
  n <- get_member group name ;;
  d <- from_dataset n ;;
  match d with
  | IntData a => Ok a
  | _ => Raise TypeError
  end.

(** [group[name][:]], read as an array of values *)
Definition get_vals (group : node) (name : string) : result (list V) :=
  n <- get_member group name ;;
  d <- from_dataset n ;;
  match d with
  | ValData l => Ok l
  | _ => Raise TypeError
  end.

End Store.

Arguments dataset V : clear implicits.
Arguments node V : clear implicits.

End h5.

(** *** CSRAssembler *)

Module CSRAssembler.

Record t : Type := Make {
  row : intarray;
  col : intarray;
  order : intarray;
  inds : intarray;
  shape : list nat
}.

(** [CSRAssembler.__init__(shape, row, col)] *)
Definition init (shape : list nat) (row0 col0 : intarray) : result t :=
  let row := values row0 in
  let col := values col0 in
  _ <- py_assert (length shape =? 2) ;;
  mr <- np.max row ;;
  s0 <- np.item shape 0 ;;
  _ <- py_assert (mr <? s0) ;;
  mc <- np.max col ;;
  s1 <- np.item shape 1 ;;
  _ <- py_assert (mc <? s1) ;;
  order <- np.lexsort row col ;;
  row1 <- np.take row order ;;
  col1 <- np.take col order ;;
  let mask := true :: np.logical_or (np.adjacent_neq row1)
                                    (np.adjacent_neq col1) in
  row2 <- np.compress row1 mask ;;
  col2 <- np.compress col1 mask ;;
  let inds := np.nonzero_mask mask in
  ' (M, N) <- unpack2 shape ;;
  let idx_dtype :=
    get_index_dtype [{| dtype := dtype row0; values := row2 |};
                     {| dtype := dtype col0; values := col2 |}]
                    (Nat.max (length row2) N) in
  Ok {| row := astype idx_dtype row2;
        col := astype idx_dtype col2;
        order := {| dtype := Int64; values := order |};
        inds := {| dtype := Int64; values := inds |};
        shape := shape |}.

Section Call.
Context {V : Type} `{Scalar V}.

(** [CSRAssembler.__call__(data)] *)
Definition call (self : t) (data : list V) : result (csr_matrix V) :=
  sorted <- np.take data (values (order self)) ;;
  data1 <- np.add_reduceat sorted (values (inds self)) ;;
  ' (M, N) <- unpack2 (shape self) ;;
  let '(indptr, indices, new_data) :=
    sptools.coo_tocsr M N (values (row self)) (values (col self)) data1 in
  Ok {| csr_data := new_data; csr_indices := indices;
        csr_indptr := indptr; csr_shape := (M, N) |}.

(** [CSRAssembler.write(group)].  Its first statement calls
    [to_dataset] by its bare name, which [sparse.py] neither defines nor
    imports: the name is looked up before anything is written, and the
    call raises [NameError]. *)
Definition write (self : t) (group : h5.node V) : result (h5.node V) :=
  Raise NameError.

(** [CSRAssembler.read(group)] *)
Definition read (group : h5.node V) : result t :=
  row <- h5.get_ints group "row" ;;
  col <- h5.get_ints group "col" ;;
  order <- h5.get_ints group "order" ;;
  inds <- h5.get_ints group "inds" ;;
  shape <- h5.get_shape group "shape" ;;
  Ok {| row := row; col := col; order := order; inds := inds;
        shape := shape |}.

End Call.
End CSRAssembler.

(** *** VectorAssembler *)

Module VectorAssembler.

Record t : Type := Make {
  row : intarray;
  order : intarray;
  inds : intarray;
  shape : list nat
}.

(** [VectorAssembler.__init__(shape, inds)] *)
Definition init (shape : list nat) (inds : intarray) : result t :=
  _ <- py_assert (length shape =? 1) ;;
  mi <- np.max (values inds) ;;
  s0 <- np.item shape 0 ;;
  _ <- py_assert (mi <? s0) ;;
  let order := np.lexsort1 (values inds) in
  inds1 <- np.take (values inds) order ;;
  let mask := true :: np.adjacent_neq inds1 in
  row <- np.compress inds1 mask ;;
  let inds2 := np.nonzero_mask mask in
  Ok {| row := {| dtype := dtype inds; values := row |};
        order := {| dtype := Int64; values := order |};
        inds := {| dtype := Int64; values := inds2 |};
        shape := shape |}.

Section Call.
Context {V : Type} `{Scalar V}.

(** [VectorAssembler.__call__(data)] *)
Definition call (self : t) (data : list V) : result (list V) :=
  sorted <- np.take data (values (order self)) ;;
  data1 <- np.add_reduceat sorted (values (inds self)) ;;
  s0 <- match shape self with
        | [n] => Ok n
        | _ => Raise ValueError
        end ;;
  np.put (repeat zero s0) (values (row self)) data1.

(** [VectorAssembler.write(group)]: as for [CSRAssembler.write], the bare
    name [to_dataset] is not bound in [sparse.py], and the call raises
    [NameError]. *)
Definition write (self : t) (group : h5.node V) : result (h5.node V) :=
  Raise NameError.

(** [VectorAssembler.read(group)] *)
Definition read (group : h5.node V) : result t :=
  row <- h5.get_ints group "row" ;;
  order <- h5.get_ints group "order" ;;
  inds <- h5.get_ints group "inds" ;;
  shape <- h5.get_shape group "shape" ;;
  Ok {| row := row; order := order; inds := inds; shape := shape |}.

End Call.
End VectorAssembler.



(** ** [aroma/affine/integrands/__init__.py] *)

(** [for x in l: f(x)], collecting the results *)
Fixpoint map_result {A B : Type} (f : A -> result B) (l : list A)
  : result (list B) :=
  match l with
  | [] => Ok []
  | x :: l' =>
      y <- f x ;;
      ys <- map_result f l' ;;
      Ok (y :: ys)
  end.

(** [str(n)] and [int(s)] for a natural number in decimal, [sep.join] and
    [s.split(sep)] *)
Definition str_nat (n : nat) : string :=
  DecimalString.NilZero.string_of_uint (Nat.to_uint n).

Definition int_of_string (s : string) : result nat :=
  match DecimalString.NilZero.uint_of_string s with
  | Some d => Ok (Nat.of_uint d)
  | None => Raise ValueError
  end.

Fixpoint join (sep : string) (l : list string) : string :=
  match l with
  | [] => ""
  | [s] => s
  | s :: l' => s ++ sep ++ join sep l'
  end.

Fixpoint split (sep : ascii) (s : string) : list string :=
  match s with
  | EmptyString => [""]
  | String c s' =>
      if Ascii.eqb c sep then "" :: split sep s'
      else match split sep s' with
           | [] => [String c ""]
           | w :: ws => String c w :: ws
           end
  end.

Definition list_nat_eqb (a b : list nat) : bool :=
  if list_eq_dec Nat.eq_dec a b then true else false.

Definition is_none {A : Type} (o : option A) : bool :=
  match o with None => true | Some _ => false end.

Module integrands.
Section Integrands.
Context {V : Type} `{Scalar V}.

(** the [_properties] dict *)
Definition props : Type := list (string * propval).

(** A contraction specification: per axis, [None] or a vector. *)
Definition contraction_spec : Type := list (option (list V)).

Inductive assembler : Type :=
| CSRAsm (a : CSRAssembler.t)
| VectorAsm (a : VectorAssembler.t).

(** An attribute that [__init__] sets and that an object made by
    [cls.__new__(cls)] lacks until it is assigned is an [option]. *)
Record COOTensorIntegrand : Type := {
  coo_properties : option props;
  coo_shape : list nat;
  coo_ndim : option nat;
  coo_data : list V;
  coo_indices : list intarray;
  coo_assemblers : list (list nat * assembler)
}.

Record NumpyArrayIntegrand : Type := {
  np_properties : option props;
  np_obj : ndarray V
}.

Record ScipyArrayIntegrand : Type := {
  sp_properties : option props;
  sp_obj : csr_matrix V
}.

(** The Python values that reach [Integrand.make], and the instances of
    the classes of this file. *)
Inductive pyobj : Type :=
| PyArray (a : ndarray V)
| PyScalar (v : V)
| PyMatrix (m : csr_matrix V)
| PyIntegrand (x : Integrand)
| PyOther (repr : string)
with Integrand : Type :=
| ThinWrapper (properties : option props) (obj : pyobj)
| Numpy (x : NumpyArrayIntegrand)
| Scipy (x : ScipyArrayIntegrand)
| COOTensor (x : COOTensorIntegrand).

(** *** The registry: [Integrand.subclasses], [accepts], [make] *)

(** A registered class: its name, its [accepts] and its constructor
    applied to one argument. *)
Record subclass : Type := {
  name : string;
  accepts : pyobj -> bool;
  construct : pyobj -> result Integrand
}.

(** [Integrand.get_subclass(obj)] *)
Fixpoint get_subclass (subclasses : list subclass) (obj : pyobj)
  : option subclass :=
  match subclasses with
  | [] => None
  | c :: rest => if accepts c obj then Some c else get_subclass rest obj
  end.

Definition isinstance_Integrand (obj : pyobj) : bool :=
  match obj with PyIntegrand _ => true | _ => false end.

(** [Integrand.acceptable(obj)] *)
Definition acceptable (subclasses : list subclass) (obj : pyobj) : bool :=
  isinstance_Integrand obj || negb (is_none (get_subclass subclasses obj)).

(** [Integrand.make(obj)] *)
Definition make (subclasses : list subclass) (obj : pyobj)
  : result Integrand :=
  match obj with
  | PyIntegrand x => Ok x
  | _ =>
      if negb (acceptable subclasses obj) then Raise NotImplementedError
      else match get_subclass subclasses obj with
           | Some c => construct c obj
           | None => Raise TypeError
           end
  end.

(** *** NumpyArrayIntegrand *)

(** Modelled from the spec: [util._SCALARS] is not among the sources; the
    dense wrapper takes bare scalars and promotes them to 0-D arrays. *)
Definition NumpyArrayIntegrand_accepts (obj : pyobj) : bool :=
  match obj with
  | PyArray _ | PyScalar _ => true
  | _ => false
  end.

(** [NumpyArrayIntegrand(obj)], on the values that [accepts] takes *)
Definition NumpyArrayIntegrand_init (obj : pyobj) : result Integrand :=
  match obj with
  | PyArray a => Ok (Numpy {| np_properties := Some []; np_obj := a |})
  | PyScalar v =>
      Ok (Numpy {| np_properties := Some []; np_obj := nd.scalar v |})
  | _ => Raise TypeError
  end.

(** the loop of [NumpyArrayIntegrand._contract], from position [i] on *)
Fixpoint contract_loop (ndim i : nat) (contraction : contraction_spec)
  (obj : ndarray V) (axes : list nat) : result (ndarray V * list nat) :=
  match contraction with
  | [] => Ok (obj, axes)
  | None :: rest => contract_loop ndim (S i) rest obj axes
  | Some cont :: rest =>
      obj' <- nd.multiply obj (nd.expand i ndim cont) ;;
      contract_loop ndim (S i) rest obj' (axes ++ [i])
  end.

Definition NumpyArrayIntegrand__contract (self : NumpyArrayIntegrand)
  (contraction : contraction_spec) : result (ndarray V) :=
  ' (obj, axes) <- contract_loop (length (nd_shape (np_obj self))) 0
                                 contraction (np_obj self) [] ;;
  nd.sum obj axes.

Definition NumpyArrayIntegrand_get (self : NumpyArrayIntegrand)
  (contraction : contraction_spec) : result pyobj :=
  a <- NumpyArrayIntegrand__contract self contraction ;;
  Ok (PyArray a).

Definition NumpyArrayIntegrand_contract (self : NumpyArrayIntegrand)
  (contraction : contraction_spec) : result Integrand :=
  a <- NumpyArrayIntegrand__contract self contraction ;;
  NumpyArrayIntegrand_init (PyArray a).

(** *** ScipyArrayIntegrand *)

Definition ScipyArrayIntegrand_accepts (obj : pyobj) : bool :=
  match obj with
  | PyMatrix _ => true
  | _ => false
  end.

(** [ScipyArrayIntegrand(obj)]: the constructor of [ThinWrapperIntegrand],
    which wraps what it is given *)
Definition ScipyArrayIntegrand_init (obj : pyobj) : result Integrand :=
  match obj with
  | PyMatrix m => Ok (Scipy {| sp_properties := Some []; sp_obj := m |})
  | _ => Ok (ThinWrapper (Some []) obj)
  end.

(** [ca, cb = contraction] *)
Definition unpack_pair {A : Type} (l : list A) : result (A * A) :=
  match l with
  | [a; b] => Ok (a, b)
  | _ => Raise ValueError
  end.

(** [a.dot(b)] for two vectors *)
Definition vdot (a b : list V) : result V :=
  p <- np.multiply a b ;;
  Ok (fold_left add p zero).

Definition ScipyArrayIntegrand_get (self : ScipyArrayIntegrand)
  (contraction : contraction_spec) : result pyobj :=
  if forallb is_none contraction then Ok (PyMatrix (sp_obj self))
  else
    ' (ca, cb) <- unpack_pair contraction ;;
    match ca, cb with
    | None, None => Raise TypeError
    | None, Some cb =>
        v <- sptools.dot (sp_obj self) cb ;;
        Ok (PyArray (nd.of_vector v))
    | Some ca, None =>
        v <- sptools.T_dot (sp_obj self) ca ;;
        Ok (PyArray (nd.of_vector v))
    | Some ca, Some cb =>
        v <- sptools.dot (sp_obj self) cb ;;
        s <- vdot ca v ;;
        Ok (PyScalar s)
    end.

Definition ScipyArrayIntegrand_contract (self : ScipyArrayIntegrand)
  (contraction : contraction_spec) : result Integrand :=
  _ <- py_assert (length contraction =? 2) ;;
  ' (ca, cb) <- unpack_pair contraction ;;
  if is_none ca && is_none cb then Ok (Scipy self)
  else
    _ <- py_assert (is_none ca || is_none cb) ;;
    match ca with
    | None =>
        match cb with
        | Some cb =>
            v <- sptools.dot (sp_obj self) cb ;;
            NumpyArrayIntegrand_init (PyArray (nd.of_vector v))
        | None => Raise TypeError
        end
    | Some ca =>
        v <- sptools.T_dot (sp_obj self) ca ;;
        NumpyArrayIntegrand_init (PyArray (nd.of_vector v))
    end.

(** *** COOTensorIntegrand *)

(** [all(np.max(i) <= np.iinfo(np.int32).max for i in indices)]: the
    arrays are read in turn, up to the first that does not fit *)
Fixpoint all_fit (indices : list (list nat)) : result bool :=
  match indices with
  | [] => Ok true
  | i :: rest =>
      m <- np.max i ;;
      if (Z.of_nat m <=? iinfo_max Int32)%Z then all_fit rest else Ok false
  end.

(** [COOTensorIntegrand(shape, *args)]: [args] are the index arrays
    followed by the data array *)
Definition COOTensorIntegrand_init (shape : list nat)
  (index_args : list (list nat)) (data_arg : list V)
  : result COOTensorIntegrand :=
  _ <- py_assert (length shape =? 3) ;;
  _ <- py_assert (length shape =? length index_args) ;;
  let nz := np.nonzero data_arg in
  indices <- map_result (fun arg => np.take arg nz) index_args ;;
  data <- np.take data_arg nz ;;
  fits <- all_fit indices ;;
  let idx_dtype := if fits then Int32 else Int64 in
  let indices := map (astype idx_dtype) indices in
  s0 <- np.item shape 0 ;;
  s1 <- np.item shape 1 ;;
  s2 <- np.item shape 2 ;;
  i0 <- np.item indices 0 ;;
  i1 <- np.item indices 1 ;;
  i2 <- np.item indices 2 ;;
  a1 <- CSRAssembler.init [s0; s2] i0 i2 ;;
  a2 <- CSRAssembler.init [s0; s1] i0 i1 ;;
  a12 <- VectorAssembler.init [s0] i0 ;;
  Ok {| coo_properties := Some [];
        coo_shape := shape;
        coo_ndim := Some (length shape);
        coo_data := data;
        coo_indices := indices;
        coo_assemblers :=
          [([1], CSRAsm a1); ([2], CSRAsm a2); ([1; 2], VectorAsm a12)] |}.

(** [[(i, c) for i, c in enumerate(contraction) if c is not None]] *)
Fixpoint nontrivial (i : nat) (contraction : contraction_spec)
  : list (nat * list V) :=
  match contraction with
  | [] => []
  | None :: rest => nontrivial (S i) rest
  | Some c :: rest => (i, c) :: nontrivial (S i) rest
  end.

(** the axes that a contraction specification eliminates *)
Definition eliminated (c : contraction_spec) : list nat :=
  map fst (nontrivial 0 c).

(** [for i, c in contraction: data *= c[self.indices[i]]] *)
Fixpoint weigh (indices : list intarray) (contraction : list (nat * list V))
  (data : list V) : result (list V) :=
  match contraction with
  | [] => Ok data
  | (i, c) :: rest =>
      idx <- np.item indices i ;;
      w <- np.take c (values idx) ;;
      data' <- np.imul data w ;;
      weigh indices rest data'
  end.

Definition assembler_call (a : assembler) (data : list V) : result pyobj :=
  match a with
  | CSRAsm a =>
      m <- CSRAssembler.call a data ;;
      Ok (PyMatrix m)
  | VectorAsm a =>
      v <- VectorAssembler.call a data ;;
      Ok (PyArray (nd.of_vector v))
  end.

Definition COOTensorIntegrand__contract (self : COOTensorIntegrand)
  (contraction : contraction_spec) : result pyobj :=
  if forallb is_none contraction then Ok (PyIntegrand (COOTensor self))
  else
    let contraction := nontrivial 0 contraction in
    let axes := map fst contraction in
    data <- weigh (coo_indices self) contraction (coo_data self) ;;
    if list_nat_eqb axes [0; 1; 2] then Ok (PyScalar (np.sum data))
    else match assoc_get list_nat_eqb axes (coo_assemblers self) with
         | Some a => assembler_call a data
         | None => Raise KeyError
         end.

(** [COOTensorIntegrand.contract]; [subclasses] is the registry that
    [Integrand.make] reads *)
Definition COOTensorIntegrand_contract (subclasses : list subclass)
  (self : COOTensorIntegrand) (contraction : contraction_spec)
  : result Integrand :=
  r <- COOTensorIntegrand__contract self contraction ;;
  make subclasses r.

(** [np.ravel_multi_index((j, k), (s1, s2))] *)
Fixpoint ravel_multi_index (j k : list nat) (s1 s2 : nat)
  : result (list nat) :=
  match j, k with
  | [], [] => Ok []
  | a :: j', b :: k' =>
      if (a <? s1) && (b <? s2) then
        rest <- ravel_multi_index j' k' s1 s2 ;;
        Ok (a * s2 + b :: rest)
      else Raise ValueError
  | _, _ => Raise ValueError
  end.

(** [sp.coo_matrix((data, (row, col)), shape=(M, N)).toarray()]: every
    entry is added, in turn, into a matrix of zeros *)
Fixpoint coo_toarray (row col : list nat) (data : list V) (N : nat)
  (B : list (list V)) : result (list (list V)) :=
  match row, col, data with
  | [], [], [] => Ok B
  | r :: row', c :: col', d :: data' =>
      match nth_error B r with
      | Some Br =>
          if c <? N then
            coo_toarray row' col' data' N
              (firstn r B ++ sptools.add_at Br c d :: skipn (S r) B)
          else Raise ValueError
      | None => Raise ValueError
      end
  | _, _, _ => Raise ValueError
  end.

(** the [count] consecutive runs of length [n] of a row *)
Fixpoint chunks (n count : nat) (l : list V) : list (list V) :=
  match count with
  | 0 => []
  | S count' => firstn n l :: chunks n count' (skipn n l)
  end.

Definition COOTensorIntegrand_toarray (self : COOTensorIntegrand)
  : result (ndarray V) :=
  match coo_indices self, coo_shape self with
  | [i; j; k], [s0; s1; s2] =>
      flat_index <- ravel_multi_index (values j) (values k) s1 s2 ;;
      matrix <- coo_toarray (values i) flat_index (coo_data self) (s1 * s2)
                            (repeat (repeat zero (s1 * s2)) s0) ;;
      Ok (NdArray [s0; s1; s2]
            (Axis (map (fun r => Axis (map (fun ch => Axis (map Item ch))
                                           (chunks s2 s1 r))) matrix)))
  | _, _ => Raise ValueError
  end.

Definition COOTensorIntegrand_get (self : COOTensorIntegrand)
  (contraction : contraction_spec) : result pyobj :=
  retval <- COOTensorIntegrand__contract self contraction ;;
  match retval with
  | PyIntegrand (COOTensor x) =>
      a <- COOTensorIntegrand_toarray x ;;
      Ok (PyArray a)
  | _ => Ok retval
  end.

(** *** The registry of this file, in the order of the class
    definitions *)
Definition subclasses : list subclass :=
  [ {| name := "ThinWrapperIntegrand";
       accepts := fun _ => false;
       construct := fun obj => Ok (ThinWrapper (Some []) obj) |};
    {| name := "NumpyArrayIntegrand";
       accepts := NumpyArrayIntegrand_accepts;
       construct := NumpyArrayIntegrand_init |};
    {| name := "ScipyArrayIntegrand";
       accepts := ScipyArrayIntegrand_accepts;
       construct := ScipyArrayIntegrand_init |};
    {| name := "COOTensorIntegrand";
       accepts := fun _ => false;
       construct := fun _ => Raise AssertionError |} ].

(** *** Metadata properties *)

Definition in_dict (key : string) (d : props) : bool :=
  negb (is_none (assoc_get String.eqb key d)).

(** [self.prop] called with [args]: the values of the named
    properties, from [kwargs] for those that are not set *)
Fixpoint prop_values (properties : option props) (args : list string)
  (kwargs : props) : result (list propval) :=
  match args with
  | [] => Ok []
  | arg :: rest =>
      d <- match properties with
           | Some d => Ok d
           | None => Raise AttributeError
           end ;;
      v <- match assoc_get String.eqb arg d with
           | Some v => Ok v
           | None =>
               match assoc_get String.eqb arg kwargs with
               | Some v => Ok v
               | None => Raise KeyError
               end
           end ;;
      vs <- prop_values properties rest kwargs ;;
      Ok (v :: vs)
  end.

(** [self.prop] called with [kwargs] alone: the keys that are not set take their default *)
Fixpoint prop_defaults (properties : option props) (kwargs : props)
  : result (option props) :=
  match kwargs with
  | [] => Ok properties
  | (key, val) :: rest =>
      d <- match properties with
           | Some d => Ok d
           | None => Raise AttributeError
           end ;;
      prop_defaults
        (Some (if in_dict key d then d else assoc_set String.eqb key val d))
        rest
  end.

(** *** Persistence *)

(** [Integrand.write_props(group)] *)
Fixpoint write_props_loop (d : props) (group : h5.node V)
  : result (h5.node V) :=
  match d with
  | [] => Ok group
  | (key, value) :: rest =>
      g <- h5.to_dataset (h5.PropData value) group key ;;
      write_props_loop rest g
  end.

Definition write_props (properties : option props) (group : h5.node V)
  : result (h5.node V) :=
  g <- h5.require_group group "properties" ;;
  d <- match properties with
       | Some d => Ok d
       | None => Raise AttributeError
       end ;;
  g <- write_props_loop d g ;;
  h5.set_member group "properties" g.

(** [Integrand.read_props(group)] *)
Fixpoint read_props_loop (members : list (string * h5.node V)) (d : props)
  : result props :=
  match members with
  | [] => Ok d
  | (key, value) :: rest =>
      v <- h5.from_dataset value ;;
      match v with
      | h5.PropData p => read_props_loop rest (assoc_set String.eqb key p d)
      | _ => Raise TypeError
      end
  end.

Definition read_props (group : h5.node V) : result props :=
  g <- h5.get_member group "properties" ;;
  members <- h5.items g ;;
  read_props_loop members [].

(** [ThinWrapperIntegrand.write(group, name)], for the two thin wrappers.
    The result is [group] after the write; the source returns the handle
    of its member [name]. *)
Definition ThinWrapperIntegrand_write (cls : string) (obj : h5.dataset V)
  (properties : option props) (group : h5.node V) (name : string)
  : result (h5.node V) :=
  sub <- h5.require_group group name ;;
  sub <- h5.to_dataset obj sub "data" ;;
  sub <- h5.set_attr sub "type" (h5.StrAttr cls) ;;
  sub <- write_props properties sub ;;
  h5.set_member group name sub.

Definition NumpyArrayIntegrand_write (self : NumpyArrayIntegrand) :=
  ThinWrapperIntegrand_write "NumpyArrayIntegrand"
    (h5.ArrayData (np_obj self)) (np_properties self).

Definition ScipyArrayIntegrand_write (self : ScipyArrayIntegrand) :=
  ThinWrapperIntegrand_write "ScipyArrayIntegrand"
    (h5.MatrixData (sp_obj self)) (sp_properties self).

(** [ThinWrapperIntegrand.read(group)].
    Modelled from the spec: [util.find_subclass] is not among the sources;
    the [type] attribute names the concrete variant. *)
Definition ThinWrapperIntegrand_read (group : h5.node V)
  : result Integrand :=
  cls <- h5.get_str group "type" ;;
  n <- h5.get_member group "data" ;;
  obj <- h5.from_dataset n ;;
  d <- read_props group ;;
  match obj with
  | h5.ArrayData a =>
      if String.eqb cls "NumpyArrayIntegrand"
      then Ok (Numpy {| np_properties := Some d; np_obj := a |})
      else Raise TypeError
  | h5.MatrixData m =>
      if String.eqb cls "ScipyArrayIntegrand"
      then Ok (Scipy {| sp_properties := Some d; sp_obj := m |})
      else Raise TypeError
  | _ => Raise TypeError
  end.

Definition assembler_write (a : assembler) (group : h5.node V)
  : result (h5.node V) :=
  match a with
  | CSRAsm a => CSRAssembler.write a group
  | VectorAsm a => VectorAssembler.write a group
  end.

(** [for key, assembler in self.assemblers.items(): ...] *)
Fixpoint write_assemblers (assemblers : list (list nat * assembler))
  (group : h5.node V) : result (h5.node V) :=
  match assemblers with
  | [] => Ok group
  | (key, a) :: rest =>
      let name := join "," (map str_nat key) in
      ass_grp <- h5.require_group group name ;;
      ass_grp <- assembler_write a ass_grp ;;
      g <- h5.set_member group name ass_grp ;;
      write_assemblers rest g
  end.

(** [COOTensorIntegrand.write(group, name)].  The result is [group] after
    the write; the source returns the handle of its member [name]. *)
Definition COOTensorIntegrand_write (self : COOTensorIntegrand)
  (group : h5.node V) (name : string) : result (h5.node V) :=
  sub <- h5.require_group group name ;;
  datagrp <- h5.require_group sub "data" ;;
  i <- np.item (coo_indices self) 0 ;;
  datagrp <- h5.to_dataset (h5.IntData i) datagrp "indices-i" ;;
  j <- np.item (coo_indices self) 1 ;;
  datagrp <- h5.to_dataset (h5.IntData j) datagrp "indices-j" ;;
  k <- np.item (coo_indices self) 2 ;;
  datagrp <- h5.to_dataset (h5.IntData k) datagrp "indices-k" ;;
  datagrp <- h5.to_dataset (h5.ValData (coo_data self)) datagrp "data" ;;
  datagrp <- h5.set_attr datagrp "shape" (h5.ShapeAttr (coo_shape self)) ;;
  sub <- h5.set_attr sub "type" (h5.StrAttr "COOTensorIntegrand") ;;
  assemblers <- h5.require_group datagrp "assemblers" ;;
  assemblers <- write_assemblers (coo_assemblers self) assemblers ;;
  datagrp <- h5.set_member datagrp "assemblers" assemblers ;;
  sub <- h5.set_member sub "data" datagrp ;;
  h5.set_member group name sub.

(** [getattr(util, type).read(grp)] *)
Definition assembler_read (type : string) (grp : h5.node V)
  : result assembler :=
  if String.eqb type "CSRAssembler" then
    a <- CSRAssembler.read grp ;;
    Ok (CSRAsm a)
  else if String.eqb type "VectorAssembler" then
    a <- VectorAssembler.read grp ;;
    Ok (VectorAsm a)
  else Raise AttributeError.

(** [for key, grp in datagrp['assemblers'].items(): ...] *)
Fixpoint read_assemblers (members : list (string * h5.node V))
  (assemblers : list (list nat * assembler))
  : result (list (list nat * assembler)) :=
  match members with
  | [] => Ok assemblers
  | (key, grp) :: rest =>
      key <- map_result int_of_string (split "," key) ;;
      type <- h5.get_str grp "type" ;;
      a <- assembler_read type grp ;;
      read_assemblers rest (assoc_set list_nat_eqb key a assemblers)
  end.

(** [COOTensorIntegrand.read(group)]: the object is made by [__new__] and
    gets [indices], [data], [shape] and [assemblers] *)
Definition COOTensorIntegrand_read (group : h5.node V)
  : result COOTensorIntegrand :=
  datagrp <- h5.get_member group "data" ;;
  i <- h5.get_ints datagrp "indices-i" ;;
  j <- h5.get_ints datagrp "indices-j" ;;
  k <- h5.get_ints datagrp "indices-k" ;;
  data <- h5.get_vals datagrp "data" ;;
  shape <- h5.get_shape datagrp "shape" ;;
  ass <- h5.get_member datagrp "assemblers" ;;
  members <- h5.items ass ;;
  assemblers <- read_assemblers members [] ;;
  Ok {| coo_properties := None;
        coo_shape := shape;
        coo_ndim := None;
        coo_data := data;
        coo_indices := [i; j; k];
        coo_assemblers := assemblers |}.

(** [Integrand.read(group)].
    Modelled from the spec: [util.find_subclass] is not among the sources;
    the [type] attribute names the registered class whose [read] runs. *)
Definition Integrand_read (group : h5.node V) : result Integrand :=
  type <- h5.get_str group "type" ;;
  if String.eqb type "COOTensorIntegrand" then
    x <- COOTensorIntegrand_read group ;;
    Ok (COOTensor x)
  else if String.eqb type "NumpyArrayIntegrand"
          || String.eqb type "ScipyArrayIntegrand" then
    ThinWrapperIntegrand_read group
  else Raise KeyError.

(** [x.prop(...)], the inherited method, on two of the classes *)
Definition COOTensorIntegrand_prop_values (self : COOTensorIntegrand)
  (args : list string) (kwargs : props) : result (list propval) :=
  prop_values (coo_properties self) args kwargs.

Definition COOTensorIntegrand_prop_defaults (self : COOTensorIntegrand)
  (kwargs : props) : result COOTensorIntegrand :=
  p <- prop_defaults (coo_properties self) kwargs ;;
  Ok {| coo_properties := p;
        coo_shape := coo_shape self;
        coo_ndim := coo_ndim self;
        coo_data := coo_data self;
        coo_indices := coo_indices self;
        coo_assemblers := coo_assemblers self |}.

Definition NumpyArrayIntegrand_prop_values (self : NumpyArrayIntegrand)
  (args : list string) (kwargs : props) : result (list propval) :=
  prop_values (np_properties self) args kwargs.

Definition NumpyArrayIntegrand_prop_defaults (self : NumpyArrayIntegrand)
  (kwargs : props) : result NumpyArrayIntegrand :=
  p <- prop_defaults (np_properties self) kwargs ;;
  Ok {| np_properties := p; np_obj := np_obj self |}.

(** *** Dispatch on the concrete class *)

(** [x.ndim] *)
Definition Integrand_ndim (x : Integrand) : result nat :=
  match x with
  | Numpy x => Ok (length (nd_shape (np_obj x)))
  | Scipy _ => Ok 2
  | COOTensor x =>
      match coo_ndim x with
      | Some n => Ok n
      | None => Raise AttributeError
      end
  | ThinWrapper _ _ => Raise AttributeError
  end.

(** [x.get(contraction)] *)
Definition Integrand_get (x : Integrand) (contraction : contraction_spec)
  : result pyobj :=
  match x with
  | Numpy x => NumpyArrayIntegrand_get x contraction
  | Scipy x => ScipyArrayIntegrand_get x contraction
  | COOTensor x => COOTensorIntegrand_get x contraction
  | ThinWrapper _ _ => Raise AttributeError
  end.

(** [x.contract(contraction)] *)
Definition Integrand_contract (x : Integrand)
  (contraction : contraction_spec) : result Integrand :=
  match x with
  | Numpy x => NumpyArrayIntegrand_contract x contraction
  | Scipy x => ScipyArrayIntegrand_contract x contraction
  | COOTensor x => COOTensorIntegrand_contract subclasses x contraction
  | ThinWrapper _ _ => Raise AttributeError
  end.

(** the all-no-op contraction of a tensor of rank [n] *)
Definition trivial (n : nat) : contraction_spec := repeat None n.

(** [x.contract(c).get(trivial)] *)
Definition contract_then_get (x : Integrand) (c : contraction_spec)
  : result pyobj :=
  y <- Integrand_contract x c ;;
  n <- Integrand_ndim y ;;
  Integrand_get y (trivial n).

(** The entries of a result, as a dense array: what two results are
    compared by. *)
Definition densify (o : pyobj) : option (ndarray V) :=
  match o with
  | PyArray a => Some a
  | PyScalar v => Some (nd.scalar v)
  | PyMatrix m =>
      Some (nd.of_matrix (fst (csr_shape m)) (snd (csr_shape m))
                         (sptools.toarray m))
  | _ => None
  end.

End Integrands.
End integrands.

(** ** [aroma/util/sparse.py]: SparseArray

    The generic sparse container.  Its dense exports run the code of
    [COOTensorIntegrand.toarray], so that this module comes after it. *)

Module SparseArray.
Section SparseArray.
Context {V : Type} `{Scalar V}.

Record t : Type := Make {
  data : list V;
  indices : list (list nat);
  shape : list nat;
  ndim : nat
}.

(** [SparseArray(data, indices, shape)] *)
Definition init (data : list V) (indices : list (list nat))
  (shape : list nat) : result t :=
  _ <- py_assert (length shape =? length indices) ;;
  Ok {| data := data; indices := indices; shape := shape;
        ndim := length shape |}.

(** [self.T] *)
Definition T (self : t) : result t :=
  init (data self) (rev (indices self)) (rev (shape self)).

(** the loop of [SparseArray.contract], from position [i] on *)
Fixpoint contract_loop (indices : list (list nat)) (i : nat)
  (contraction : list (option (list V))) (data : list V)
  (remaining : list nat) : result (list V * list nat) :=
  match contraction with
  | [] => Ok (data, remaining)
  | None :: rest =>
      contract_loop indices (S i) rest data (remaining ++ [i])
  | Some c :: rest =>
      idx <- np.item indices i ;;
      w <- np.take c idx ;;
      data' <- np.imul data w ;;
      contract_loop indices (S i) rest data' remaining
  end.

(** [self.contract(contraction)] *)
Definition contract (self : t) (contraction : list (option (list V)))
  : result t :=
  ' (data, remaining) <- contract_loop (indices self) 0 contraction
                                       (data self) [] ;;
  idx <- map_result (np.item (indices self)) remaining ;;
  shp <- map_result (np.item (shape self)) remaining ;;
  init data idx shp.

(** What [export] returns: a scipy matrix, given by the arguments of its
    constructor, a number, or a dense array. *)
Inductive exported : Type :=
| ScipyMatrix (format : string) (data : list V) (row col : list nat)
              (shape : list nat)
| Number (v : V)
| Dense (a : ndarray V).

(** [self.export(format)] *)
Definition export (self : t) (format : string) : result exported :=
  if String.eqb format "csr" && (ndim self =? 2) then
    ' (row, col) <- integrands.unpack_pair (indices self) ;;
    Ok (ScipyMatrix "csr" (data self) row col (shape self))
  else if String.eqb format "coo" && (ndim self =? 2) then
    ' (row, col) <- integrands.unpack_pair (indices self) ;;
    Ok (ScipyMatrix "coo" (data self) row col (shape self))
  else if String.eqb format "dense" && (ndim self =? 0) then
    Ok (Number (np.sum (data self)))
  else if String.eqb format "dense" && (ndim self =? 1) then
    i0 <- np.item (indices self) 0 ;;
    let col := repeat 0 (length i0) in
    match shape self with
    | [n] =>
        matrix <- integrands.coo_toarray i0 col (data self) 1
                    (repeat (repeat zero 1) n) ;;
        Ok (Dense (NdArray [n] (Axis (map Item (concat matrix)))))
    | _ => Raise ValueError
    end
  else if String.eqb format "dense" && (ndim self =? 3) then
    match indices self, shape self with
    | [i; j; k], [s0; s1; s2] =>
        flat_index <- integrands.ravel_multi_index j k s1 s2 ;;
        matrix <- integrands.coo_toarray i flat_index (data self) (s1 * s2)
                    (repeat (repeat zero (s1 * s2)) s0) ;;
        Ok (Dense
              (NdArray [s0; s1; s2]
                 (Axis (map (fun r =>
                               Axis (map (fun ch => Axis (map Item ch))
                                         (integrands.chunks s2 s1 r)))
                            matrix))))
    | _, _ => Raise ValueError
    end
  else Raise NotImplementedError.

End SparseArray.
End SparseArray.

(** ** Registration of the classes and lazy combination *)

Module registry.
Section Registry.
Context {V : Type} `{Scalar V}.

(** [Integrand.subclasses[name] = subclass]: an entry of that name is
    replaced where it stands, a new name goes last *)
Fixpoint set_class (c : @integrands.subclass V)
  (subclasses : list integrands.subclass) : list integrands.subclass :=
  match subclasses with
  | [] => [c]
  | c' :: rest =>
      if String.eqb (integrands.name c) (integrands.name c')
      then c :: rest
      else c' :: set_class c rest
  end.

(** [MetaIntegrand.__new__]: every class but the one named [Integrand]
    enters the registry under its name *)
Definition register (c : @integrands.subclass V)
  (subclasses : list integrands.subclass) : list integrands.subclass :=
  if String.eqb (integrands.name c) "Integrand" then subclasses
  else set_class c subclasses.

End Registry.

Section Integrate.
(** An argument of [integrate]: its class, and whether that class derives
    from [LazyIntegral]. *)
Context {A : Type} (class_of : A -> string) (is_lazy : A -> bool).
(** [cls.integrate], which the classes that derive from [LazyIntegral]
    define outside this file *)
Context {B : Type} (class_integrate : string -> list A -> result B).

(** [integrate(args)]: the arguments themselves, or what the class of the
    first one makes of them *)
Definition integrate (args : list A) : result (list A + B) :=
  if forallb (fun arg => negb (is_lazy arg)) args then Ok (inl args)
  else
    match args with
    | [] => Raise IndexError
    | first :: rest =>
        _ <- py_assert (forallb (fun arg => String.eqb (class_of arg)
                                                       (class_of first))
                                rest) ;;
        r <- class_integrate (class_of first) args ;;
        Ok (inr r)
    end.

End Integrate.
End registry.

(** ** The statements of the specification, in its own words *)

Module spec.

(** The smallest signed integer type that can represent [m]. *)
Definition smallest_signed_dtype (m : Z) : int_dtype :=
  if (m <=? 127)%Z then Int8
  else if (m <=? 32767)%Z then Int16
  else if (m <=? 2147483647)%Z then Int32
  else Int64.

(** The largest coordinate of a family of index arrays. *)
Definition max_coordinate (indices : list (list nat)) : nat :=
  fold_right Nat.max 0 (map (fold_right Nat.max 0) indices).

Section Algebra.
Context {V : Type} `{Scalar V}.

Definition Sum (l : list V) : V := fold_right add zero l.

Fixpoint zip_mul (a b : list V) : list V :=
  match a, b with
  | x :: a', y :: b' => mul x y :: zip_mul a' b'
  | _, _ => []
  end.

(** [A x]: entry [i] is the sum over [j] of [A[i][j] * x[j]] *)
Definition matvec (A : list (list V)) (x : list V) : list V :=
  map (fun row => Sum (zip_mul row x)) A.

(** the bilinear reduction [ca^T A cb] *)
Definition bilinear (ca : list V) (A : list (list V)) (cb : list V) : V :=
  Sum (zip_mul ca (matvec A cb)).

(** The sum of the values contributed at the coordinates [(r, c)]. *)
Definition total (l : list (nat * nat * V)) (r c : nat) : V :=
  Sum (map snd
           (filter (fun e => (fst (fst e) =? r) && (snd (fst e) =? c)) l)).

(** A contraction specification for a tensor of shape [shape]: one entry
    per axis, a vector having the length of its axis. *)
Definition wf_contraction (shape : list nat) (c : list (option (list V)))
  : Prop :=
  Forall2 (fun n o => match o with
                      | None => True
                      | Some v => length v = n
                      end) shape c.

End Algebra.
End spec.

Import integrands.

(** ** The statements about the index dtype, and the examples *)

(** The claim of the specification: every stored index array has the
    smallest signed integer type that holds the largest coordinate. *)
Definition index_dtype_is_smallest {V : Type} (x : @COOTensorIntegrand V)
  : Prop :=
  Forall (fun a =>
            dtype a = spec.smallest_signed_dtype
                        (Z.of_nat (spec.max_coordinate
                                     (map values (coo_indices x)))))
         (coo_indices x).

(** What the constructor does: 32 bits when every coordinate fits, 64
    bits otherwise. *)
Definition index_dtype_is_32_or_64 {V : Type} (x : @COOTensorIntegrand V)
  : Prop :=
  Forall (fun a =>
            dtype a =
            if (Z.of_nat (spec.max_coordinate (map values (coo_indices x)))
                <=? iinfo_max Int32)%Z
            then Int32 else Int64)
         (coo_indices x).

(** The tensor of the worked example, with one metadata property set. *)
Definition tagged_example : result (@COOTensorIntegrand float) :=
  x <- COOTensorIntegrand_init [2; 2; 2]
         [[0; 0; 1]; [0; 0; 1]; [0; 0; 1]] [1.0; 2.0; 3.0]%float ;;
  COOTensorIntegrand_prop_defaults x [("tag", PropInt 7)].

(** [Integrand.read(x.write(group, name))] on an empty group *)
Definition COOTensorIntegrand_roundtrip {V : Type} `{Scalar V}
  (x : @COOTensorIntegrand V) (name : string) : result (@Integrand V) :=
  g <- COOTensorIntegrand_write x h5.empty_group name ;;
  sub <- h5.get_member g name ;;
  Integrand_read sub.

Definition NumpyArrayIntegrand_roundtrip {V : Type} `{Scalar V}
  (x : @NumpyArrayIntegrand V) (name : string) : result (@Integrand V) :=
  g <- NumpyArrayIntegrand_write x h5.empty_group name ;;
  sub <- h5.get_member g name ;;
  Integrand_read sub.

(** A sparse matrix with a stored entry in three of its four
    positions. *)
Definition example_matrix : csr_matrix Z :=
  {| csr_data := [2; 3; 5]%Z; csr_indices := [0; 1; 1];
     csr_indptr := [0; 2; 3]; csr_shape := (2, 2) |}.

(** * Properties *)

Unset Implicit Arguments.

#[export] Instance ScalarLaws_Z : ScalarLaws Z.
Proof.
  constructor; simpl; intros; lia.
Qed.

(** ** The registry *)

Section Registry.
Context {V : Type} `{Scalar V}.

Lemma get_subclass_none (subclasses : list (@subclass V)) (obj : pyobj) :
  (forall c, In c subclasses -> accepts c obj = false) ->
  get_subclass subclasses obj = None.
Proof.
  induction subclasses as [|c rest IH]; intros Hall; simpl.
  - reflexivity.
  - rewrite (Hall c (or_introl eq_refl)).
    apply IH. intros c' Hin. apply Hall. now right.
Qed.

(** C7: a value that is not an Integrand and that no registered class
    accepts makes [Integrand.make] raise [NotImplementedError], the
    error that the specification calls UnsupportedRepresentation, and
    [Integrand.acceptable] answers False for it. *)
Theorem make_unsupported (subclasses : list (@subclass V)) (obj : pyobj) :
  isinstance_Integrand obj = false ->
  (forall c, In c subclasses -> accepts c obj = false) ->
  make subclasses obj = Raise NotImplementedError
  /\ acceptable subclasses obj = false.
Proof.
  intros Hinst Hall.
  assert (Hacc : acceptable subclasses obj = false).
  { unfold acceptable. rewrite Hinst, (get_subclass_none _ _ Hall).
    reflexivity. }
  split; [|exact Hacc].
  unfold make. rewrite Hacc.
  destruct obj; try reflexivity. discriminate Hinst.
Qed.

End Registry.

Lemma make_unsupported_witness :
  make (V := Z) subclasses (PyOther "a string") = Raise NotImplementedError
  /\ acceptable (V := Z) subclasses (PyOther "a string") = false.
Proof.
  apply (make_unsupported (V := Z) subclasses (PyOther "a string")).
  - reflexivity.
  - intros c Hin. simpl in Hin.
    destruct Hin as [<-|[<-|[<-|[<-|[]]]]]; reflexivity.
Defined.

(** ** The worked example of the specification *)

(** C1: the tensor of shape (2,2,2) built from i = j = k = [0,0,1] and
    the values [1.0, 2.0, 3.0]; contracting axes 1 and 2 with [1,1] and
    [1,1] gives the vector [3.0, 3.0], and contracting axis 2 alone with
    [1,0] gives the 2x2 matrix with 3.0 at (0,0), 0.0 at (1,1) and zero
    elsewhere. *)
Theorem coo_contract_example :
  exists x m,
    COOTensorIntegrand_init [2; 2; 2] [[0; 0; 1]; [0; 0; 1]; [0; 0; 1]]
                            [1.0; 2.0; 3.0]%float = Ok x
    /\ COOTensorIntegrand_contract subclasses x
         [None; Some [1; 1]%float; Some [1; 1]%float]
       = Ok (Numpy {| np_properties := Some [];
                      np_obj := nd.of_vector [3.0; 3.0]%float |})
    /\ COOTensorIntegrand_contract subclasses x
         [None; None; Some [1; 0]%float]
       = Ok (Scipy {| sp_properties := Some []; sp_obj := m |})
    /\ csr_shape m = (2, 2)
    /\ sptools.toarray m = [[3.0; 0.0]; [0.0; 0.0]]%float.
Proof.
  eexists. eexists.
  split; [vm_compute; reflexivity|].
  split; [vm_compute; reflexivity|].
  split; [vm_compute; reflexivity|].
  split; vm_compute; reflexivity.
Qed.

(** ** Reading a successful run backwards *)

Lemma bind_Ok {A B : Type} (m : result A) (k : A -> result B) (b : B) :
  bind m k = Ok b -> exists a, m = Ok a /\ k a = Ok b.
Proof.
  destruct m as [a|e]; simpl; intros Hk.
  - now exists a.
  - discriminate.
Qed.

Lemma py_assert_Ok (cond : bool) (u : unit) :
  py_assert cond = Ok u -> cond = true.
Proof.
  destruct cond; [reflexivity|discriminate].
Qed.

Ltac bind_inv H :=
  let a := fresh "a" in
  let E := fresh "E" in
  apply bind_Ok in H; destruct H as (a & E & H); cbv beta in H.

Ltac binds_inv H :=
  repeat (match type of H with
          | bind _ _ = Ok _ => bind_inv H
          end).

(** ** Contraction with nothing to contract *)

Section Identity.
Context {V : Type} `{Scalar V}.

Lemma forallb_is_none_trivial (n : nat) :
  forallb is_none (@trivial V n) = true.
Proof.
  induction n as [|n IH]; simpl; [reflexivity|exact IH].
Qed.

Lemma contract_loop_trivial (ndim n i : nat) (obj : ndarray V)
  (axes : list nat) :
  contract_loop ndim i (trivial n) obj axes = Ok (obj, axes).
Proof.
  revert i. induction n as [|n IH]; intros i; simpl.
  - reflexivity.
  - apply IH.
Qed.

Lemma NumpyArrayIntegrand__contract_trivial (self : NumpyArrayIntegrand)
  (n : nat) :
  NumpyArrayIntegrand__contract self (trivial n) = Ok (np_obj self).
Proof.
  unfold NumpyArrayIntegrand__contract.
  rewrite contract_loop_trivial. simpl. now destruct (np_obj self).
Qed.

(** C9: the all-no-op contraction gives back the tensor.  For the
    unassembled tensor [_contract] and [contract] return the receiver
    itself; for the dense wrapper [get] returns the wrapped array and
    [contract] a wrapper of that same array.  The rank-3 case is [n = 3]. *)
Theorem contract_trivial_identity (n : nat) :
  (forall (subclasses : list subclass) (x : COOTensorIntegrand),
      COOTensorIntegrand__contract x (trivial n)
      = Ok (PyIntegrand (COOTensor x))
      /\ COOTensorIntegrand_contract subclasses x (trivial n)
         = Ok (COOTensor x))
  /\ (forall (x : NumpyArrayIntegrand),
         NumpyArrayIntegrand_get x (trivial n) = Ok (PyArray (np_obj x))
         /\ NumpyArrayIntegrand_contract x (trivial n)
            = Ok (Numpy {| np_properties := Some [];
                           np_obj := np_obj x |})).
Proof.
  split.
  - intros subclasses x.
    unfold COOTensorIntegrand_contract, COOTensorIntegrand__contract.
    rewrite forallb_is_none_trivial. split; reflexivity.
  - intros x.
    unfold NumpyArrayIntegrand_get, NumpyArrayIntegrand_contract.
    rewrite NumpyArrayIntegrand__contract_trivial. split; reflexivity.
Qed.

(** ** The sparse-matrix wrapper and two vectors *)

(** C6: [ScipyArrayIntegrand.contract] with a vector on both axes fails:
    its assertion that one of the two operands is trivial raises, the
    fatal error that the specification calls InvalidContraction.  With no
    vector at all the receiver itself is returned. *)
Theorem scipy_contract_two_vectors (self : ScipyArrayIntegrand)
  (ca cb : list V) :
  ScipyArrayIntegrand_contract self [Some ca; Some cb] = Raise AssertionError
  /\ ScipyArrayIntegrand_contract self [None; None] = Ok (Scipy self).
Proof.
  split; reflexivity.
Qed.

End Identity.

(** ** The dtype of the index arrays *)

Section IndexDtype.
Context {V : Type} `{Scalar V}.

Lemma np_max_fold (a : list nat) (m : nat) :
  np.max a = Ok m -> m = fold_right Nat.max 0 a.
Proof.
  destruct a as [|x a]; simpl; [discriminate|].
  intros [= <-]. revert x.
  induction a as [|y a IH]; intros x; simpl.
  - lia.
  - rewrite IH. simpl. lia.
Qed.

Lemma all_fit_spec (indices : list (list nat)) (fits : bool) :
  all_fit indices = Ok fits ->
  fits = (Z.of_nat (spec.max_coordinate indices) <=? iinfo_max Int32)%Z.
Proof.
  unfold spec.max_coordinate.
  revert fits. induction indices as [|i rest IH]; intros fits; simpl.
  - intros [= <-]. reflexivity.
  - intros Hfit. bind_inv Hfit. apply np_max_fold in E. subst a.
    set (mi := fold_right Nat.max 0%nat i) in *.
    set (mr := fold_right Nat.max 0%nat
                 (map (fold_right Nat.max 0%nat) rest)) in *.
    change (iinfo_max Int32) with 2147483647%Z in *.
    destruct (Z.leb_spec (Z.of_nat mi) 2147483647) as [Hi|Hi].
    + rewrite (IH _ Hfit).
      destruct (Z.leb_spec (Z.of_nat mr) 2147483647) as [Hr|Hr];
        symmetry; [apply Z.leb_le|apply Z.leb_gt]; lia.
    + injection Hfit as <-. symmetry. apply Z.leb_gt. lia.
Qed.

Lemma map_values_astype (d : int_dtype) (l : list (list nat)) :
  map values (map (astype d) l) = l.
Proof.
  induction l as [|a l IH]; simpl; [reflexivity|now rewrite IH].
Qed.

(** What a successful run of the constructor went through. *)
Lemma COOTensorIntegrand_init_inv (shape : list nat)
  (index_args : list (list nat)) (data_arg : list V)
  (x : COOTensorIntegrand) :
  COOTensorIntegrand_init shape index_args data_arg = Ok x ->
  exists indices data fits s0 s1 s2 i0 i1 i2 a1 a2 a12,
    shape = [s0; s1; s2]
    /\ map_result (fun arg => np.take arg (np.nonzero data_arg)) index_args
       = Ok [i0; i1; i2]
    /\ np.take data_arg (np.nonzero data_arg) = Ok data
    /\ all_fit [i0; i1; i2] = Ok fits
    /\ indices = map (astype (if fits then Int32 else Int64)) [i0; i1; i2]
    /\ CSRAssembler.init [s0; s2]
         (astype (if fits then Int32 else Int64) i0)
         (astype (if fits then Int32 else Int64) i2) = Ok a1
    /\ CSRAssembler.init [s0; s1]
         (astype (if fits then Int32 else Int64) i0)
         (astype (if fits then Int32 else Int64) i1) = Ok a2
    /\ VectorAssembler.init [s0]
         (astype (if fits then Int32 else Int64) i0) = Ok a12
    /\ x = {| coo_properties := Some [];
              coo_shape := shape;
              coo_ndim := Some 3;
              coo_data := data;
              coo_indices := indices;
              coo_assemblers :=
                [([1], CSRAsm a1); ([2], CSRAsm a2);
                 ([1; 2], VectorAsm a12)] |}.
Proof.
  unfold COOTensorIntegrand_init. intros Hinit.
  bind_inv Hinit. apply py_assert_Ok, Nat.eqb_eq in E.
  bind_inv Hinit. apply py_assert_Ok, Nat.eqb_eq in E0.
  destruct shape as [|s0 [|s1 [|s2 [|? ?]]]]; try discriminate E.
  destruct index_args as [|j0 [|j1 [|j2 [|? ?]]]]; try discriminate E0.
  bind_inv Hinit. rename a1 into indices, E1 into Hidx.
  bind_inv Hinit. rename a1 into data, E1 into Hdata.
  bind_inv Hinit. rename a1 into fits, E1 into Hfits.
  simpl in Hidx.
  destruct (np.take j0 (np.nonzero data_arg)) as [i0|] eqn:H0;
    [|discriminate].
  destruct (np.take j1 (np.nonzero data_arg)) as [i1|] eqn:H1;
    [|discriminate].
  destruct (np.take j2 (np.nonzero data_arg)) as [i2|] eqn:H2;
    [|discriminate].
  simpl in Hidx. injection Hidx as <-.
  simpl in Hinit.
  bind_inv Hinit. rename a1 into a1', E1 into Ha1.
  bind_inv Hinit. rename a1 into a2', E1 into Ha2.
  bind_inv Hinit. rename a1 into a12', E1 into Ha12.
  injection Hinit as <-.
  exists (map (astype (if fits then Int32 else Int64)) [i0; i1; i2]).
  exists data, fits, s0, s1, s2, i0, i1, i2, a1', a2', a12'.
  simpl. rewrite H0, H1, H2. simpl.
  repeat split; assumption || reflexivity.
Qed.

(** C8, as the code has it: the index arrays are stored with 32 bits
    when the largest coordinate of the stored entries is at most
    [2^31 - 1], and with 64 bits otherwise; smaller types are not
    used. *)
Theorem index_dtype_32_or_64 (shape : list nat)
  (index_args : list (list nat)) (data_arg : list V)
  (x : COOTensorIntegrand) :
  COOTensorIntegrand_init shape index_args data_arg = Ok x ->
  index_dtype_is_32_or_64 x.
Proof.
  intros Hinit. apply COOTensorIntegrand_init_inv in Hinit.
  destruct Hinit as (indices & data & fits & s0 & s1 & s2 & i0 & i1 & i2
                     & a1 & a2 & a12 & _ & _ & _ & Hfits & -> & _ & _ & _
                     & ->).
  unfold index_dtype_is_32_or_64.
  cbn [coo_indices]. rewrite map_values_astype.
  rewrite <- (all_fit_spec _ _ Hfits).
  apply Forall_forall. intros a Hin.
  apply in_map_iff in Hin. destruct Hin as (l & <- & _). reflexivity.
Qed.

End IndexDtype.

Lemma index_dtype_32_or_64_witness :
  exists x,
    COOTensorIntegrand_init [2; 2; 2] [[0; 0; 1]; [0; 0; 1]; [0; 0; 1]]
                            [1; 2; 3]%Z = Ok x
    /\ index_dtype_is_32_or_64 x.
Proof.
  eexists. split.
  - vm_compute. reflexivity.
  - apply (index_dtype_32_or_64 (V := Z) [2; 2; 2]
             [[0; 0; 1]; [0; 0; 1]; [0; 0; 1]] [1; 2; 3]%Z).
    vm_compute. reflexivity.
Defined.

(** C8, as the specification words it, fails: with largest coordinate 1
    the smallest signed type is the 8-bit one, and the arrays are stored
    with 32 bits. *)
Lemma index_dtype_not_smallest :
  exists x,
    COOTensorIntegrand_init [2; 2; 2] [[0; 0; 1]; [0; 0; 1]; [0; 0; 1]]
                            [1; 2; 3]%Z = Ok x
    /\ ~ index_dtype_is_smallest x.
Proof.
  eexists. split.
  - vm_compute. reflexivity.
  - intros Hall. inversion Hall as [|a l Hd _]. discriminate Hd.
Qed.

(** ** The numpy operations: when they succeed and what they return *)

Section NumpyFacts.
Context {A : Type}.

Lemma item_Ok (arr : list A) (i : nat) (d : A) :
  i < length arr -> np.item arr i = Ok (nth i arr d).
Proof.
  intros Hi. unfold np.item.
  rewrite (nth_error_nth' arr d Hi). reflexivity.
Qed.

Lemma item_Ok_inv (arr : list A) (i : nat) (a : A) :
  np.item arr i = Ok a -> nth_error arr i = Some a.
Proof.
  unfold np.item. destruct (nth_error arr i); [|discriminate].
  now intros [= ->].
Qed.

(** a gather through positions that all hold an entry *)
Lemma take_map {B : Type} (arr : list A) (pos : B -> nat) (val : B -> A)
  (l : list B) :
  Forall (fun e => nth_error arr (pos e) = Some (val e)) l ->
  np.take arr (map pos l) = Ok (map val l).
Proof.
  induction 1 as [|e l He _ IH]; simpl.
  - reflexivity.
  - unfold np.item. rewrite He. simpl. rewrite IH. reflexivity.
Qed.

Lemma take_Ok_length (arr : list A) (idx : list nat) (l : list A) :
  np.take arr idx = Ok l -> length l = length idx.
Proof.
  revert l. induction idx as [|i idx IH]; intros l; simpl.
  - now intros [= <-].
  - intros Ht. bind_inv Ht. bind_inv Ht. injection Ht as <-.
    simpl. f_equal. now apply IH.
Qed.

Lemma take_Ok_bounds (arr : list A) (idx : list nat) (l : list A) :
  np.take arr idx = Ok l -> Forall (fun i => i < length arr) idx.
Proof.
  revert l. induction idx as [|i idx IH]; intros l; simpl.
  - constructor.
  - intros Ht. bind_inv Ht. bind_inv Ht. constructor.
    + apply item_Ok_inv in E. apply nth_error_Some. congruence.
    + eapply IH; eassumption.
Qed.

Lemma take_Ok_Forall (P : A -> Prop) (arr : list A) (idx : list nat)
  (l : list A) :
  Forall P arr -> np.take arr idx = Ok l -> Forall P l.
Proof.
  intros HP. revert l. induction idx as [|i idx IH]; intros l; simpl.
  - intros [= <-]. constructor.
  - intros Ht. bind_inv Ht. bind_inv Ht. injection Ht as <-.
    constructor.
    + apply item_Ok_inv, nth_error_In in E.
      rewrite Forall_forall in HP. now apply HP.
    + now apply IH.
Qed.

Lemma take_bounded (arr : list A) (idx : list nat) :
  Forall (fun i => i < length arr) idx ->
  exists l, np.take arr idx = Ok l /\ length l = length idx.
Proof.
  induction 1 as [|i idx Hi _ (l & Hl & Hlen)]; simpl.
  - now exists [].
  - destruct arr as [|d arr]; [inversion Hi|].
    rewrite (item_Ok (d :: arr) i d Hi). simpl. rewrite Hl. simpl.
    eexists. split; [reflexivity|]. simpl. now rewrite Hlen.
Qed.

End NumpyFacts.

(** ** Stable sorting of the positions *)

Section SortFacts.

Lemma insert_perm (x : (nat * nat) * nat) (l : list ((nat * nat) * nat)) :
  Permutation (np.insert x l) (x :: l).
Proof.
  induction l as [|y l IH]; simpl.
  - apply Permutation_refl.
  - destruct (np.key_leb (fst x) (fst y)).
    + apply Permutation_refl.
    + eapply perm_trans; [apply perm_skip, IH|apply perm_swap].
Qed.

Lemma sort_perm (l : list ((nat * nat) * nat)) :
  Permutation (np.sort l) l.
Proof.
  induction l as [|x l IH]; simpl.
  - apply perm_nil.
  - eapply perm_trans; [apply insert_perm|]. now apply perm_skip.
Qed.

(** The entries of the table that [lexsort] sorts: position [p] with
    the key [(major[p], minor[p])]. *)
Lemma keyed_positions (major minor : list nat) (start : nat) :
  length minor = length major ->
  Forall (fun e =>
            start <= snd e < start + length major
            /\ nth_error major (snd e - start) = Some (fst (fst e))
            /\ nth_error minor (snd e - start) = Some (snd (fst e)))
         (combine (combine major minor) (seq start (length major))).
Proof.
  revert minor start.
  induction major as [|c major IH]; intros [|r minor] start Hlen;
    simpl in *; try discriminate; constructor.
  - simpl. rewrite Nat.sub_diag. simpl. repeat split; lia.
  - injection Hlen as Hlen.
    eapply Forall_impl; [|apply (IH minor (S start) Hlen)].
    intros [[c' r'] p] (Hp & Hc & Hr). simpl in *.
    replace (p - start) with (S (p - S start)) by lia.
    simpl. repeat split; assumption || lia.
Qed.

End SortFacts.

(** ** Runs of equal coordinates

    The assemblers sort the contributions, mark where the coordinates
    change, keep the first coordinates of every run and sum the values of
    every run.  [merged] does the same in one pass over the sorted
    contributions [(row, column, value)]; the lemmas below relate the
    array operations of the source to it. *)

Section Runs.
Context {V : Type} `{Scalar V}.

Definition row_of (e : nat * nat * V) : nat := fst (fst e).
Definition col_of (e : nat * nat * V) : nat := snd (fst e).
Definition val_of (e : nat * nat * V) : V := snd e.

(** whether the coordinates change at each contribution, the previous
    coordinates being [(r0, c0)] *)
Fixpoint changes (r0 c0 : nat) (K : list (nat * nat * V)) : list bool :=
  match K with
  | [] => []
  | e :: K' =>
      (negb (row_of e =? r0) || negb (col_of e =? c0))
        :: changes (row_of e) (col_of e) K'
  end.

(** the runs after an open run of coordinates [(r0, c0)] and running
    sum [acc] *)
Fixpoint merged (r0 c0 : nat) (acc : V) (K : list (nat * nat * V))
  : list (nat * nat * V) :=
  match K with
  | [] => [(r0, c0, acc)]
  | e :: K' =>
      if negb (row_of e =? r0) || negb (col_of e =? c0)
      then (r0, c0, acc) :: merged (row_of e) (col_of e) (val_of e) K'
      else merged r0 c0 (add acc (val_of e)) K'
  end.

(** the sums of the runs that a mask delimits, [acc] being the running
    sum of the open run *)
Fixpoint run_sums (mask : list bool) (vals : list V) (acc : V) : list V :=
  match mask, vals with
  | b :: mask', v :: vals' =>
      if b then acc :: run_sums mask' vals' v
      else run_sums mask' vals' (add acc v)
  | _, _ => [acc]
  end.

Lemma changes_length (r0 c0 : nat) (K : list (nat * nat * V)) :
  length (changes r0 c0 K) = length K.
Proof.
  revert r0 c0. induction K as [|e K IH]; intros r0 c0; simpl.
  - reflexivity.
  - now rewrite IH.
Qed.

Lemma mask_changes (r0 c0 : nat) (K : list (nat * nat * V)) :
  np.logical_or (np.adjacent_neq (r0 :: map row_of K))
                (np.adjacent_neq (c0 :: map col_of K))
  = changes r0 c0 K.
Proof.
  revert r0 c0. induction K as [|e K IH]; intros r0 c0.
  - reflexivity.
  - cbn [map changes].
    change (np.adjacent_neq (r0 :: row_of e :: map row_of K))
      with (negb (row_of e =? r0) :: np.adjacent_neq (row_of e :: map row_of K)).
    change (np.adjacent_neq (c0 :: col_of e :: map col_of K))
      with (negb (col_of e =? c0) :: np.adjacent_neq (col_of e :: map col_of K)).
    cbn [np.logical_or]. now rewrite IH.
Qed.

Lemma mask_changes1 (c0 : nat) (K : list (nat * nat * V)) :
  Forall (fun e => row_of e = 0) K ->
  np.adjacent_neq (c0 :: map col_of K) = changes 0 c0 K.
Proof.
  intros HK. revert c0.
  induction HK as [|e K He _ IH]; intros c0.
  - reflexivity.
  - cbn [map changes].
    change (np.adjacent_neq (c0 :: col_of e :: map col_of K))
      with (negb (col_of e =? c0) :: np.adjacent_neq (col_of e :: map col_of K)).
    rewrite IH, He. reflexivity.
Qed.

Lemma merged_Forall (P : nat -> nat -> Prop) (r0 c0 : nat) (acc : V)
  (K : list (nat * nat * V)) :
  P r0 c0 -> Forall (fun e => P (row_of e) (col_of e)) K ->
  Forall (fun e => P (row_of e) (col_of e)) (merged r0 c0 acc K).
Proof.
  intros H0 HK. revert r0 c0 acc H0.
  induction HK as [|e K He _ IH]; intros r0 c0 acc H0; cbn [merged].
  - now constructor.
  - destruct (negb (row_of e =? r0) || negb (col_of e =? c0)).
    + constructor; [exact H0|]. now apply IH.
    + now apply IH.
Qed.

(** [row[mask]] and [col[mask]] are the coordinates of the runs *)
Lemma compress_merged {B : Type} (f : nat * nat * V -> B) (b0 : B)
  (r0 c0 : nat) (acc : V) (K : list (nat * nat * V)) :
  f (r0, c0, acc) = b0 ->
  (forall r c v w, f (r, c, v) = f (r, c, w)) ->
  np.compress (b0 :: map f K) (true :: changes r0 c0 K)
  = Ok (map f (merged r0 c0 acc K)).
Proof.
  intros Hb0 Hf. revert r0 c0 acc b0 Hb0.
  induction K as [|e K IH]; intros r0 c0 acc b0 Hb0.
  - simpl. now rewrite Hb0.
  - cbn [map changes merged].
    destruct (negb (row_of e =? r0) || negb (col_of e =? c0)) eqn:Hd.
    + change (np.compress (b0 :: f e :: map f K)
                (true :: true :: changes (row_of e) (col_of e) K))
        with (rest <- np.compress (f e :: map f K)
                        (true :: changes (row_of e) (col_of e) K) ;;
              Ok (b0 :: rest)).
      rewrite (IH (row_of e) (col_of e) (val_of e) (f e)).
      * simpl. now rewrite Hb0.
      * now destruct e as [[r c] v].
    + apply orb_false_elim in Hd. destruct Hd as [Hr Hc].
      apply negb_false_iff, Nat.eqb_eq in Hr, Hc.
      specialize (IH r0 c0 (add acc (val_of e)) b0).
      rewrite <- IH by (rewrite <- Hb0; apply Hf).
      rewrite Hr, Hc. simpl.
      destruct (np.compress (map f K) (changes r0 c0 K)); reflexivity.
Qed.

Lemma run_sums_merged (r0 c0 : nat) (acc : V) (K : list (nat * nat * V)) :
  run_sums (changes r0 c0 K) (map val_of K) acc
  = map val_of (merged r0 c0 acc K).
Proof.
  revert r0 c0 acc. induction K as [|e K IH]; intros r0 c0 acc.
  - reflexivity.
  - cbn [map changes merged run_sums].
    destruct (negb (row_of e =? r0) || negb (col_of e =? c0)) eqn:Hd.
    + cbn [map]. now rewrite IH.
    + apply orb_false_elim in Hd. destruct Hd as [Hr Hc].
      apply negb_false_iff, Nat.eqb_eq in Hr, Hc.
      rewrite Hr, Hc. apply IH.
Qed.

Lemma item_middle (pre post : list V) (v : V) :
  np.item (pre ++ v :: post) (length pre) = Ok v.
Proof.
  unfold np.item.
  rewrite nth_error_app2, Nat.sub_diag by lia. reflexivity.
Qed.

Lemma skipn_middle (pre post : list V) (v : V) :
  skipn (S (length pre)) (pre ++ v :: post) = post.
Proof.
  induction pre as [|x pre IH]; [reflexivity|exact IH].
Qed.

(** [np.add.reduceat] at the positions of a mask: the run that is open at
    position [length pre] has collected [run] after its first value [v],
    and [mask] says where the later runs start in [vals] *)
Lemma add_reduceat_open_run (mask : list bool) (vals pre run : list V)
  (v : V) :
  length mask = length vals ->
  np.add_reduceat (pre ++ v :: run ++ vals)
    (length pre :: np.nonzero_from (S (length pre) + length run) mask)
  = Ok (run_sums mask vals (fold_left add run v)).
Proof.
  revert vals pre run v.
  induction mask as [|b mask IH]; intros [|w vals] pre run v Hlen;
    simpl in Hlen; try discriminate.
  - (* no later run: the open run goes to the end *)
    cbn [np.nonzero_from np.add_reduceat run_sums].
    rewrite item_middle. cbn [bind].
    rewrite skipn_middle, app_nil_r. reflexivity.
  - injection Hlen as Hlen. destruct b.
    + (* a run starts at [w]: the open run is closed *)
      cbn [np.nonzero_from run_sums].
      set (s := S (length pre) + length run).
      cbn [np.add_reduceat].
      rewrite item_middle. cbn [bind].
      rewrite skipn_middle.
      replace (s - S (length pre)) with (length run) by (unfold s; lia).
      rewrite firstn_app, firstn_all, Nat.sub_diag. cbn [firstn].
      rewrite app_nil_r.
      specialize (IH vals (pre ++ v :: run) [] w Hlen).
      rewrite <- app_assoc in IH. cbn [app] in IH.
      rewrite length_app in IH. cbn [length] in IH.
      replace (S (length pre + S (length run)) + 0) with (S s) in IH
        by (unfold s; lia).
      replace (length pre + S (length run)) with s in IH
        by (unfold s; lia).
      cbn [fold_left np.add_reduceat] in IH.
      rewrite IH. reflexivity.
    + (* [w] joins the open run *)
      cbn [np.nonzero_from run_sums].
      specialize (IH vals pre (run ++ [w]) v Hlen).
      rewrite <- app_assoc in IH. cbn [app] in IH.
      rewrite length_app in IH. cbn [length] in IH.
      replace (S (length pre) + (length run + 1))
        with (S (S (length pre) + length run)) in IH by lia.
      rewrite IH. rewrite fold_left_app. reflexivity.
Qed.

Lemma add_reduceat_mask (mask : list bool) (vals : list V) (v : V) :
  length mask = length vals ->
  np.add_reduceat (v :: vals) (np.nonzero_mask (true :: mask))
  = Ok (run_sums mask vals v).
Proof.
  intros Hlen.
  exact (add_reduceat_open_run mask vals [] [] v Hlen).
Qed.

End Runs.

(** ** What the assemblers compute *)

Section AssemblerFacts.
Context {V : Type} `{Scalar V}.

Lemma np_max_lt (a : list nat) (m s : nat) :
  np.max a = Ok m -> m < s -> a <> [] /\ Forall (fun x => x < s) a.
Proof.
  intros Hmax Hlt. split.
  - destruct a; [discriminate|congruence].
  - apply np_max_fold in Hmax. subst m.
    induction a as [|x a IH]; constructor; simpl in Hlt.
    + lia.
    + apply IH. lia.
Qed.

(** the table of [lexsort], sorted *)
Definition sorted_table (row col : list nat) : list ((nat * nat) * nat) :=
  np.sort (combine (combine col row) (seq 0 (length col))).

(** the contributions [(row, column, value)] in the order of the sort *)
Definition sorted_triples (row col : list nat) (data : list V)
  : list (nat * nat * V) :=
  map (fun e => (snd (fst e), fst (fst e), nth (snd e) data zero))
      (sorted_table row col).

(** the contributions in the order of the input *)
Definition triples (row col : list nat) (data : list V)
  : list (nat * nat * V) :=
  combine (combine row col) data.

Lemma sorted_table_positions (row col : list nat) :
  length row = length col ->
  Forall (fun e =>
            snd e < length col
            /\ nth_error col (snd e) = Some (fst (fst e))
            /\ nth_error row (snd e) = Some (snd (fst e)))
         (sorted_table row col).
Proof.
  intros Hlen.
  eapply Permutation_Forall; [apply Permutation_sym, sort_perm|].
  eapply Forall_impl; [|apply (keyed_positions col row 0 Hlen)].
  intros e (Hp & Hc & Hr). rewrite Nat.sub_0_r in Hc, Hr.
  repeat split; assumption || lia.
Qed.

Lemma sorted_table_length (row col : list nat) :
  length row = length col ->
  length (sorted_table row col) = length col.
Proof.
  intros Hlen. unfold sorted_table.
  rewrite (Permutation_length (sort_perm _)).
  rewrite length_combine, length_combine, length_seq. lia.
Qed.

Lemma lexsort_sorted_table (row col order : list nat) :
  np.lexsort row col = Ok order ->
  length row = length col /\ order = map snd (sorted_table row col).
Proof.
  unfold np.lexsort.
  destruct (length row =? length col) eqn:Hlen; [|discriminate].
  apply Nat.eqb_eq in Hlen. intros [= <-]. now split.
Qed.

Lemma take_row_sorted (row col : list nat) :
  length row = length col ->
  np.take row (map snd (sorted_table row col))
  = Ok (map (fun e => snd (fst e)) (sorted_table row col)).
Proof.
  intros Hlen. apply take_map.
  eapply Forall_impl; [|apply (sorted_table_positions _ _ Hlen)].
  now intros e (_ & _ & Hr).
Qed.

Lemma take_col_sorted (row col : list nat) :
  length row = length col ->
  np.take col (map snd (sorted_table row col))
  = Ok (map (fun e => fst (fst e)) (sorted_table row col)).
Proof.
  intros Hlen. apply take_map.
  eapply Forall_impl; [|apply (sorted_table_positions _ _ Hlen)].
  now intros e (_ & Hc & _).
Qed.

Lemma take_data_sorted (row col : list nat) (data : list V) :
  length row = length col -> length data = length row ->
  np.take data (map snd (sorted_table row col))
  = Ok (map val_of (sorted_triples row col data)).
Proof.
  intros Hlen Hdata. unfold sorted_triples. rewrite map_map.
  apply take_map.
  eapply Forall_impl; [|apply (sorted_table_positions _ _ Hlen)].
  intros e (Hp & _ & _). unfold val_of. simpl.
  apply nth_error_nth'. lia.
Qed.

Lemma map_row_sorted_triples (row col : list nat) (data : list V) :
  map row_of (sorted_triples row col data)
  = map (fun e => snd (fst e)) (sorted_table row col).
Proof.
  unfold sorted_triples. rewrite map_map. reflexivity.
Qed.

Lemma map_col_sorted_triples (row col : list nat) (data : list V) :
  map col_of (sorted_triples row col data)
  = map (fun e => fst (fst e)) (sorted_table row col).
Proof.
  unfold sorted_triples. rewrite map_map. reflexivity.
Qed.

(** the CSR matrix that [coo_tocsr] makes of a list of contributions *)
Definition csr_of_triples (M N : nat) (L : list (nat * nat * V))
  : csr_matrix V :=
  let '(indptr, indices, new_data) :=
    sptools.coo_tocsr M N (map row_of L) (map col_of L) (map val_of L) in
  {| csr_data := new_data; csr_indices := indices;
     csr_indptr := indptr; csr_shape := (M, N) |}.

(** What a successful run of the constructor of [CSRAssembler] went
    through. *)
Lemma CSRAssembler_init_inv (shape : list nat) (dr dc : int_dtype)
  (row col : list nat) (a : CSRAssembler.t) :
  CSRAssembler.init shape (IntArray dr row) (IntArray dc col) = Ok a ->
  exists M N,
    shape = [M; N]
    /\ row <> []
    /\ length row = length col
    /\ Forall (fun r => r < M) row
    /\ Forall (fun c => c < N) col
    /\ CSRAssembler.shape a = [M; N]
    /\ values (CSRAssembler.order a) = map snd (sorted_table row col)
    /\ (let row1 := map (fun e => snd (fst e)) (sorted_table row col) in
        let col1 := map (fun e => fst (fst e)) (sorted_table row col) in
        let mask := true :: np.logical_or (np.adjacent_neq row1)
                                          (np.adjacent_neq col1) in
        np.compress row1 mask = Ok (values (CSRAssembler.row a))
        /\ np.compress col1 mask = Ok (values (CSRAssembler.col a))
        /\ values (CSRAssembler.inds a) = np.nonzero_mask mask).
Proof.
  unfold CSRAssembler.init. cbn [values dtype]. intros Hinit.
  bind_inv Hinit. apply py_assert_Ok, Nat.eqb_eq in E.
  destruct shape as [|M [|N [|? ?]]]; try discriminate E.
  bind_inv Hinit. rename a1 into mr, E0 into Hmr.
  simpl in Hinit.
  bind_inv Hinit. apply py_assert_Ok, Nat.ltb_lt in E0.
  bind_inv Hinit. rename a2 into mc, E1 into Hmc.
  bind_inv Hinit. apply py_assert_Ok, Nat.ltb_lt in E1.
  bind_inv Hinit. rename a3 into order, E2 into Horder.
  apply lexsort_sorted_table in Horder. destruct Horder as [Hlen ->].
  rewrite (take_row_sorted _ _ Hlen), (take_col_sorted _ _ Hlen) in Hinit.
  cbn [bind] in Hinit.
  bind_inv Hinit. rename a3 into row2, E2 into Hrow2.
  bind_inv Hinit. rename a3 into col2, E2 into Hcol2.
  injection Hinit as <-.
  destruct (np_max_lt _ _ _ Hmr E0) as [Hne Hrows].
  destruct (np_max_lt _ _ _ Hmc E1) as [_ Hcols].
  exists M, N. cbn [CSRAssembler.shape CSRAssembler.order CSRAssembler.row
                    CSRAssembler.col CSRAssembler.inds values astype].
  repeat split; assumption.
Qed.

(** [CSRAssembler.__call__] succeeds on a data array of the length of
    the coordinate arrays, and returns the CSR matrix of the merged
    runs. *)
Lemma CSRAssembler_call_merged (shape : list nat) (dr dc : int_dtype)
  (row col : list nat) (a : CSRAssembler.t) (data : list V) :
  CSRAssembler.init shape (IntArray dr row) (IntArray dc col) = Ok a ->
  length data = length row ->
  exists M N e0 K,
    shape = [M; N]
    /\ Forall (fun r => r < M) row
    /\ Forall (fun c => c < N) col
    /\ length row = length col
    /\ sorted_triples row col data = e0 :: K
    /\ CSRAssembler.call a data
       = Ok (csr_of_triples M N
               (merged (row_of e0) (col_of e0) (val_of e0) K)).
Proof.
  intros Hinit Hdata.
  apply CSRAssembler_init_inv in Hinit.
  destruct Hinit as (M & N & -> & Hne & Hlen & Hrows & Hcols & Hshape
                     & Horder & Hrow2 & Hcol2 & Hinds).
  rewrite <- (map_row_sorted_triples row col data) in Hrow2, Hcol2, Hinds.
  rewrite <- (map_col_sorted_triples row col data) in Hrow2, Hcol2, Hinds.
  destruct (sorted_triples row col data) as [|e0 K] eqn:HK.
  { exfalso. apply (f_equal (@length _)) in HK.
    unfold sorted_triples in HK.
    rewrite length_map, (sorted_table_length _ _ Hlen) in HK.
    destruct row; [now apply Hne|]. simpl in *. lia. }
  exists M, N, e0, K.
  repeat split; try assumption.
  cbn [map] in Hrow2, Hcol2, Hinds.
  rewrite mask_changes in Hrow2, Hcol2, Hinds.
  rewrite (@compress_merged V _ _ row_of (row_of e0) (row_of e0) (col_of e0)
             (val_of e0) K) in Hrow2;
    [|now destruct e0 as [[? ?] ?]|reflexivity].
  rewrite (@compress_merged V _ _ col_of (col_of e0) (row_of e0) (col_of e0)
             (val_of e0) K) in Hcol2;
    [|now destruct e0 as [[? ?] ?]|reflexivity].
  injection Hrow2 as Hrow2. injection Hcol2 as Hcol2.
  unfold CSRAssembler.call.
  rewrite Horder, (take_data_sorted _ _ _ Hlen Hdata), HK.
  cbn [map bind]. rewrite Hinds.
  rewrite add_reduceat_mask
    by now rewrite changes_length, length_map.
  cbn [bind]. rewrite Hshape. cbn [unpack2 bind].
  rewrite run_sums_merged, <- Hrow2, <- Hcol2.
  unfold csr_of_triples.
  destruct (sptools.coo_tocsr M N _ _ _) as [[indptr indices] new_data].
  reflexivity.
Qed.

Lemma put_bounded (retval : list V) (row : list nat) (data : list V) :
  Forall (fun r => r < length retval) row ->
  length row = length data ->
  exists out, np.put retval row data = Ok out
              /\ length out = length retval.
Proof.
  intros Hrow. revert retval data Hrow.
  induction row as [|r row IH]; intros retval [|d data] Hrow Hlen;
    simpl in Hlen; try discriminate.
  - now exists retval.
  - inversion Hrow as [|? ? Hr Hrow']; subst.
    cbn [np.put]. apply Nat.ltb_lt in Hr as Hr'. rewrite Hr'.
    assert (Hl : length (firstn r retval ++ d :: skipn (S r) retval)
                 = length retval).
    { rewrite length_app, length_firstn. cbn [length].
      rewrite length_skipn. lia. }
    destruct (IH (firstn r retval ++ d :: skipn (S r) retval) data)
      as (out & Hout & Hlen').
    + now rewrite Hl.
    + now injection Hlen.
    + exists out. split; [exact Hout|]. now rewrite Hlen', Hl.
Qed.

Lemma lexsort1_sorted_table (inds : list nat) :
  np.lexsort1 inds
  = map snd (sorted_table (repeat 0 (length inds)) inds).
Proof.
  reflexivity.
Qed.

Lemma sorted_triples_rows_zero (inds : list nat) (data : list V) :
  Forall (fun e => row_of e = 0)
         (sorted_triples (repeat 0 (length inds)) inds data).
Proof.
  unfold sorted_triples. apply Forall_map.
  eapply Forall_impl;
    [|apply (sorted_table_positions (repeat 0 (length inds)) inds)].
  - intros e (_ & _ & Hr). unfold row_of. simpl.
    apply nth_error_In, repeat_spec in Hr. exact Hr.
  - apply repeat_length.
Qed.

Lemma sorted_triples_cols (P : nat -> Prop) (row col : list nat)
  (data : list V) :
  length row = length col -> Forall P col ->
  Forall (fun e => P (col_of e)) (sorted_triples row col data).
Proof.
  intros Hlen HP. unfold sorted_triples. apply Forall_map.
  eapply Forall_impl; [|apply (sorted_table_positions _ _ Hlen)].
  intros e (_ & Hc & _). unfold col_of. simpl.
  apply nth_error_In in Hc. rewrite Forall_forall in HP. now apply HP.
Qed.

(** [VectorAssembler.__call__] succeeds on a data array of the length of
    the coordinate array, and returns a vector of the length of the
    shape. *)
Lemma VectorAssembler_call_ok (shape : list nat) (inds : intarray)
  (a : VectorAssembler.t) (data : list V) :
  VectorAssembler.init shape inds = Ok a ->
  length data = length (values inds) ->
  exists s0 out,
    shape = [s0]
    /\ VectorAssembler.call a data = Ok out
    /\ length out = s0.
Proof.
  unfold VectorAssembler.init. intros Hinit Hdata.
  bind_inv Hinit. apply py_assert_Ok, Nat.eqb_eq in E.
  destruct shape as [|s0 [|? ?]]; try discriminate E.
  bind_inv Hinit. rename a1 into mi, E0 into Hmi.
  simpl in Hinit.
  bind_inv Hinit. apply py_assert_Ok, Nat.ltb_lt in E0.
  destruct (np_max_lt _ _ _ Hmi E0) as [Hne Hbound].
  rewrite lexsort1_sorted_table in Hinit.
  assert (Hlen : length (repeat 0 (length (values inds)))
                 = length (values inds)) by apply repeat_length.
  rewrite (take_col_sorted _ _ Hlen) in Hinit. cbn [bind] in Hinit.
  rewrite <- (map_col_sorted_triples _ _ data) in Hinit.
  pose proof (sorted_triples_rows_zero (values inds) data) as Hzero.
  pose proof (sorted_triples_cols (fun c => c < s0) _ _ data Hlen Hbound)
    as Hcols.
  destruct (sorted_triples (repeat 0 (length (values inds))) (values inds)
              data) as [|e0 K] eqn:HK.
  { exfalso. apply (f_equal (@length _)) in HK.
    unfold sorted_triples in HK.
    rewrite length_map, (sorted_table_length _ _ Hlen) in HK.
    destruct (values inds); [now apply Hne|]. simpl in HK. lia. }
  inversion Hzero as [|? ? Hz0 HzK]; subst.
  inversion Hcols as [|? ? Hc0 HcK]; subst.
  cbn [map] in Hinit. rewrite (mask_changes1 _ _ HzK) in Hinit.
  rewrite (@compress_merged V _ _ col_of (col_of e0) 0 (col_of e0)
             (val_of e0) K) in Hinit;
    [|destruct e0 as [[? ?] ?]; reflexivity|reflexivity].
  cbn [bind] in Hinit. injection Hinit as <-.
  destruct (put_bounded (repeat zero s0)
              (map col_of (merged 0 (col_of e0) (val_of e0) K))
              (map val_of (merged 0 (col_of e0) (val_of e0) K)))
    as (out & Hout & Hlenout).
  { apply Forall_map. rewrite repeat_length.
    apply (merged_Forall (fun _ c => c < s0)); assumption. }
  { now rewrite !length_map. }
  exists s0, out. rewrite repeat_length in Hlenout.
  split; [reflexivity|]. split; [|exact Hlenout].
  unfold VectorAssembler.call.
  cbn [VectorAssembler.order VectorAssembler.inds VectorAssembler.shape
       VectorAssembler.row values].
  rewrite (take_data_sorted _ _ _ Hlen) by now rewrite repeat_length.
  rewrite HK. cbn [map bind].
  rewrite add_reduceat_mask by now rewrite changes_length, length_map.
  cbn [bind]. rewrite run_sums_merged. exact Hout.
Qed.

End AssemblerFacts.

(** ** The axis patterns of the unassembled tensor *)

Section Patterns.
Context {V : Type} `{Scalar V}.

Lemma multiply_same_length (a b : list V) :
  length a = length b ->
  exists l, np.multiply a b = Ok l /\ length l = length a.
Proof.
  revert b. induction a as [|x a IH]; intros [|y b] Hlen;
    simpl in Hlen; try discriminate.
  - now exists [].
  - injection Hlen as Hlen. destruct (IH b Hlen) as (l & Hl & Hlenl).
    exists (mul x y :: l). simpl. rewrite Hl. simpl. now rewrite Hlenl.
Qed.

(** the weighting loop succeeds when every vector covers the
    coordinates of its axis *)
Lemma weigh_bounded (indices : list intarray)
  (l : list (nat * list V)) (data : list V) :
  Forall (fun ic =>
            exists idx,
              nth_error indices (fst ic) = Some idx
              /\ Forall (fun k => k < length (snd ic)) (values idx)
              /\ length (values idx) = length data) l ->
  exists data',
    weigh indices l data = Ok data' /\ length data' = length data.
Proof.
  intros Hl. revert data Hl.
  induction l as [|[i c] l IH]; intros data Hl.
  - now exists data.
  - inversion Hl as [|? ? (idx & Hidx & Hbound & Hlen) Hl']; subst.
    simpl in Hidx, Hbound, Hlen. cbn [weigh].
    unfold np.item. rewrite Hidx. cbn [bind].
    destruct (take_bounded c _ Hbound) as (w & Hw & Hlenw).
    rewrite Hw. cbn [bind]. unfold np.imul.
    assert (Hwd : length w = length data) by congruence.
    apply Nat.eqb_eq in Hwd as Hwd'. rewrite Hwd'.
    destruct (multiply_same_length data w (eq_sym Hwd))
      as (data' & Hdata' & Hlen').
    rewrite Hdata'. cbn [bind].
    destruct (IH data') as (data'' & Hok & Hlen'').
    + eapply Forall_impl; [|exact Hl'].
      intros [i' c'] (idx' & ? & ? & ?). exists idx'.
      repeat split; try assumption. congruence.
    + exists data''. split; [exact Hok|congruence].
Qed.

(** The shape of a specification that eliminates given axes of a
    rank-3 tensor. *)
Lemma eliminated_cases (c : @contraction_spec V) (s0 s1 s2 : nat) :
  spec.wf_contraction [s0; s1; s2] c ->
  exists o0 o1 o2,
    c = [o0; o1; o2]
    /\ eliminated c
       = (if is_none o0 then [] else [0])
           ++ (if is_none o1 then [] else [1])
           ++ (if is_none o2 then [] else [2])
    /\ (forall v, o0 = Some v -> length v = s0)
    /\ (forall v, o1 = Some v -> length v = s1)
    /\ (forall v, o2 = Some v -> length v = s2).
Proof.
  unfold spec.wf_contraction. intros Hwf.
  inversion Hwf as [|? o0 ? ? H0 Hwf1]; subst.
  inversion Hwf1 as [|? o1 ? ? H1 Hwf2]; subst.
  inversion Hwf2 as [|? o2 ? ? H2 Hwf3]; subst.
  inversion Hwf3; subst.
  exists o0, o1, o2. split; [reflexivity|].
  split.
  - destruct o0, o1, o2; reflexivity.
  - repeat split; intros v ->; assumption.
Qed.

Lemma map_result_Forall2 {A B : Type} (f : A -> result B) (l : list A)
  (l' : list B) :
  map_result f l = Ok l' -> Forall2 (fun a b => f a = Ok b) l l'.
Proof.
  revert l'. induction l as [|a l IH]; intros l'; simpl.
  - intros [= <-]. constructor.
  - intros Hm. bind_inv Hm. bind_inv Hm. injection Hm as <-.
    constructor; [assumption|now apply IH].
Qed.

(** A tensor that the constructor returned: its arrays have one length,
    its coordinates lie inside its shape, and it owns the assemblers of
    the patterns (1), (2) and (1,2). *)
Lemma COOTensorIntegrand_init_wf (shape : list nat)
  (index_args : list (list nat)) (data_arg : list V)
  (x : COOTensorIntegrand) :
  COOTensorIntegrand_init shape index_args data_arg = Ok x ->
  exists s0 s1 s2 i0 i1 i2 d a1 a2 a12,
    shape = [s0; s1; s2]
    /\ coo_indices x = [astype d i0; astype d i1; astype d i2]
    /\ coo_assemblers x
       = [([1], CSRAsm a1); ([2], CSRAsm a2); ([1; 2], VectorAsm a12)]
    /\ length i0 = length (coo_data x)
    /\ length i1 = length (coo_data x)
    /\ length i2 = length (coo_data x)
    /\ Forall (fun k => k < s0) i0
    /\ Forall (fun k => k < s1) i1
    /\ Forall (fun k => k < s2) i2
    /\ CSRAssembler.init [s0; s2] (astype d i0) (astype d i2) = Ok a1
    /\ CSRAssembler.init [s0; s1] (astype d i0) (astype d i1) = Ok a2
    /\ VectorAssembler.init [s0] (astype d i0) = Ok a12.
Proof.
  intros Hinit. apply COOTensorIntegrand_init_inv in Hinit.
  destruct Hinit as (indices & data & fits & s0 & s1 & s2 & i0 & i1 & i2
                     & a1 & a2 & a12 & -> & Hidx & Hdata & _ & -> & Ha1
                     & Ha2 & Ha12 & ->).
  exists s0, s1, s2, i0, i1, i2, (if fits then Int32 else Int64),
    a1, a2, a12.
  cbn [coo_indices coo_assemblers coo_data map].
  apply take_Ok_length in Hdata.
  apply map_result_Forall2 in Hidx.
  inversion Hidx as [|? ? ? ? H0 Hidx1]; subst.
  inversion Hidx1 as [|? ? ? ? H1 Hidx2]; subst.
  inversion Hidx2 as [|? ? ? ? H2 _]; subst.
  apply take_Ok_length in H0, H1, H2.
  pose proof Ha1 as Hi1. apply CSRAssembler_init_inv in Hi1.
  destruct Hi1 as (M1 & N1 & [= <- <-] & _ & _ & Hb0 & Hb2 & _).
  pose proof Ha2 as Hi2. apply CSRAssembler_init_inv in Hi2.
  destruct Hi2 as (M2 & N2 & [= <- <-] & _ & _ & _ & Hb1 & _).
  repeat split; try assumption; try reflexivity; congruence.
Qed.

Lemma nontrivial_all_none (c : @contraction_spec V) (i : nat) :
  forallb is_none c = true -> nontrivial i c = [].
Proof.
  revert i. induction c as [|[v|] c IH]; intros i; simpl.
  - reflexivity.
  - discriminate.
  - apply IH.
Qed.

(** C5: on a tensor that the constructor returned, a contraction that
    eliminates exactly axis 0, axes 0 and 1, or axes 0 and 2 fails: no
    assembler is registered for these patterns, and the lookup raises
    [KeyError] when the vectors have the lengths of their axes.  A
    contraction that eliminates exactly axis 1, axis 2, or axes 1 and 2
    succeeds. *)
Theorem coo_contract_patterns (shape : list nat)
  (index_args : list (list nat)) (data_arg : list V)
  (x : COOTensorIntegrand) :
  COOTensorIntegrand_init shape index_args data_arg = Ok x ->
  (forall c, In (eliminated c) [[0]; [0; 1]; [0; 2]] ->
             fails (COOTensorIntegrand__contract x c)
             /\ fails (COOTensorIntegrand_contract subclasses x c))
  /\ (forall c, spec.wf_contraction shape c ->
                In (eliminated c) [[0]; [0; 1]; [0; 2]] ->
                COOTensorIntegrand__contract x c = Raise KeyError
                /\ COOTensorIntegrand_contract subclasses x c
                   = Raise KeyError)
  /\ (forall c, spec.wf_contraction shape c ->
                In (eliminated c) [[1]; [2]; [1; 2]] ->
                exists y, COOTensorIntegrand_contract subclasses x c
                          = Ok y).
Proof.
  intros Hinit. apply COOTensorIntegrand_init_wf in Hinit.
  destruct Hinit as (s0 & s1 & s2 & i0 & i1 & i2 & d & a1 & a2 & a12
                     & -> & Hidx & Hass & Hl0 & Hl1 & Hl2 & Hb0 & Hb1 & Hb2
                     & Ha1 & Ha2 & Ha12).
  assert (Hbad : forall c, In (eliminated c) [[0]; [0; 1]; [0; 2]] ->
            forall data,
              weigh (coo_indices x) (nontrivial 0 c) (coo_data x) = Ok data ->
              COOTensorIntegrand__contract x c = Raise KeyError).
  { intros c Hin data Hw. unfold COOTensorIntegrand__contract.
    destruct (forallb is_none c) eqn:Hnone.
    - unfold eliminated in Hin.
      rewrite (nontrivial_all_none _ _ Hnone) in Hin. simpl in Hin.
      destruct Hin as [Hin|[Hin|[Hin|[]]]]; discriminate Hin.
    - rewrite Hw. cbn [bind]. fold (eliminated c). rewrite Hass.
      simpl in Hin.
      destruct Hin as [<-|[<-|[<-|[]]]]; reflexivity. }
  split; [|split].
  - intros c Hin. unfold COOTensorIntegrand_contract.
    destruct (weigh (coo_indices x) (nontrivial 0 c) (coo_data x))
      as [data|e] eqn:Hw.
    + rewrite (Hbad c Hin data Hw). split; eexists; reflexivity.
    + assert (Hf : COOTensorIntegrand__contract x c = Raise e).
      { unfold COOTensorIntegrand__contract.
        destruct (forallb is_none c) eqn:Hnone.
        - rewrite (nontrivial_all_none _ _ Hnone) in Hw. discriminate Hw.
        - rewrite Hw. reflexivity. }
      rewrite Hf. split; eexists; reflexivity.
  - intros c Hwf Hin.
    destruct (@eliminated_cases c s0 s1 s2 Hwf)
      as (o0 & o1 & o2 & -> & Hel & Hv0 & Hv1 & Hv2).
    assert (Hw : exists data,
               weigh (coo_indices x) (nontrivial 0 [o0; o1; o2])
                     (coo_data x) = Ok data).
    { destruct (weigh_bounded (coo_indices x) (nontrivial 0 [o0; o1; o2])
                  (coo_data x)) as (data & Hdata & _); [|now exists data].
      rewrite Hidx.
      destruct o0 as [v0|], o1 as [v1|], o2 as [v2|]; cbn [nontrivial];
        repeat constructor; cbn [fst snd];
        eexists; (split; [reflexivity|]); cbn [values astype];
        (split; [|assumption]);
        first [rewrite (Hv0 _ eq_refl)|rewrite (Hv1 _ eq_refl)
              |rewrite (Hv2 _ eq_refl)]; assumption. }
    destruct Hw as (data & Hw).
    unfold COOTensorIntegrand_contract.
    rewrite (Hbad _ Hin data Hw). split; reflexivity.
  - intros c Hwf Hin.
    destruct (@eliminated_cases c s0 s1 s2 Hwf)
      as (o0 & o1 & o2 & -> & Hel & Hv0 & Hv1 & Hv2).
    destruct (weigh_bounded (coo_indices x) (nontrivial 0 [o0; o1; o2])
                (coo_data x)) as (data & Hdata & Hlen).
    { rewrite Hidx.
      destruct o0 as [v0|], o1 as [v1|], o2 as [v2|]; cbn [nontrivial];
        repeat constructor; cbn [fst snd];
        eexists; (split; [reflexivity|]); cbn [values astype];
        (split; [|assumption]);
        first [rewrite (Hv0 _ eq_refl)|rewrite (Hv1 _ eq_refl)
              |rewrite (Hv2 _ eq_refl)]; assumption. }
    unfold COOTensorIntegrand_contract, COOTensorIntegrand__contract.
    rewrite Hel in Hin.
    destruct (@CSRAssembler_call_merged V _ _ _ _ _ _ _ data Ha1)
      as (? & ? & ? & ? & _ & _ & _ & _ & _ & Hc1); [congruence|].
    destruct (@CSRAssembler_call_merged V _ _ _ _ _ _ _ data Ha2)
      as (? & ? & ? & ? & _ & _ & _ & _ & _ & Hc2); [congruence|].
    destruct (@VectorAssembler_call_ok V _ _ _ _ data Ha12)
      as (? & out & _ & Hc12 & _); [cbn [values astype]; congruence|].
    destruct o0 as [v0|], o1 as [v1|], o2 as [v2|]; simpl in Hin;
      try (exfalso; intuition discriminate);
      cbn [forallb is_none andb];
      rewrite Hdata; cbn [bind]; cbn [nontrivial map fst];
      rewrite Hass;
      cbn [list_nat_eqb assoc_get].
    all: unfold list_nat_eqb; simpl; unfold assembler_call.
    + rewrite Hc12. cbn [bind]. eexists. reflexivity.
    + rewrite Hc1. cbn [bind]. eexists. reflexivity.
    + rewrite Hc2. cbn [bind]. eexists. reflexivity.
Qed.

End Patterns.

Lemma coo_contract_patterns_witness :
  exists x,
    COOTensorIntegrand_init [2; 2; 2] [[0; 0; 1]; [0; 0; 1]; [0; 0; 1]]
                            [1; 2; 3]%Z = Ok x
    /\ COOTensorIntegrand_contract subclasses x
         [Some [1; 1]%Z; None; None] = Raise KeyError
    /\ exists y, COOTensorIntegrand_contract subclasses x
                   [None; Some [1; 1]%Z; None] = Ok y.
Proof.
  eexists. split; [vm_compute; reflexivity|].
  match goal with
  | |- COOTensorIntegrand_contract _ ?x _ = _ /\ _ =>
      assert (Hx : COOTensorIntegrand_init [2; 2; 2]
                     [[0; 0; 1]; [0; 0; 1]; [0; 0; 1]] [1; 2; 3]%Z = Ok x)
        by (vm_compute; reflexivity);
      destruct (coo_contract_patterns (V := Z)
                  [2; 2; 2] [[0; 0; 1]; [0; 0; 1]; [0; 0; 1]] [1; 2; 3]%Z
                  x Hx) as (_ & Hbad & Hgood)
  end.
  split.
  - apply (Hbad [Some [1; 1]%Z; None; None]).
    + repeat constructor.
    + simpl. now left.
  - apply (Hgood [None; Some [1; 1]%Z; None]).
    + repeat constructor.
    + simpl. now left.
Defined.

(** ** Sums in a commutative semiring *)

Section Sums.
Context {V : Type} `{ScalarLaws V}.

Lemma add_zero_r (a : V) : add a zero = a.
Proof.
  rewrite add_comm. apply add_zero_l.
Qed.

Lemma fold_left_add_Sum (l : list V) (a : V) :
  fold_left add l a = add a (spec.Sum l).
Proof.
  revert a. induction l as [|x l IH]; intros a; simpl.
  - symmetry. apply add_zero_r.
  - rewrite IH. fold (spec.Sum l). symmetry. apply add_assoc.
Qed.

Lemma np_sum_Sum (l : list V) : np.sum l = spec.Sum l.
Proof.
  destruct l as [|x l]; [reflexivity|].
  unfold np.sum, np.add_reduce_from. apply fold_left_add_Sum.
Qed.

Lemma Sum_app (l1 l2 : list V) :
  spec.Sum (l1 ++ l2) = add (spec.Sum l1) (spec.Sum l2).
Proof.
  induction l1 as [|x l1 IH]; simpl.
  - symmetry. apply add_zero_l.
  - fold (spec.Sum (l1 ++ l2)). fold (spec.Sum l1).
    rewrite IH. apply add_assoc.
Qed.

(** summing the values at given coordinates, one contribution after
    the other *)
Lemma fold_left_select (p : nat * V -> bool) (es : list (nat * V)) (z : V) :
  fold_left (fun s e => if p e then add s (snd e) else s) es z
  = add z (spec.Sum (map snd (filter p es))).
Proof.
  revert z. induction es as [|e es IH]; intros z; simpl.
  - symmetry. apply add_zero_r.
  - rewrite IH. destruct (p e); simpl.
    + fold (spec.Sum (map snd (filter p es))). symmetry. apply add_assoc.
    + reflexivity.
Qed.

Lemma total_cons (e : nat * nat * V) (l : list (nat * nat * V))
  (r c : nat) :
  spec.total (e :: l) r c
  = if (row_of e =? r) && (col_of e =? c)
    then add (val_of e) (spec.total l r c)
    else spec.total l r c.
Proof.
  unfold spec.total, row_of, col_of, val_of. simpl.
  destruct ((fst (fst e) =? r) && (snd (fst e) =? c)); reflexivity.
Qed.

(** the total at given coordinates does not depend on the order of the
    contributions *)
Lemma total_perm (l l' : list (nat * nat * V)) (r c : nat) :
  Permutation l l' -> spec.total l r c = spec.total l' r c.
Proof.
  induction 1 as [|e l l' _ IH|e e' l|l l' l'' _ IH1 _ IH2].
  - reflexivity.
  - rewrite !total_cons, IH. reflexivity.
  - rewrite !total_cons.
    destruct ((row_of e =? r) && (col_of e =? c)),
             ((row_of e' =? r) && (col_of e' =? c)); try reflexivity.
    rewrite !add_assoc. f_equal. apply add_comm.
  - now rewrite IH1.
Qed.

(** merging the runs keeps the totals *)
Lemma total_merged (r0 c0 : nat) (acc : V) (K : list (nat * nat * V))
  (r c : nat) :
  spec.total (merged r0 c0 acc K) r c = spec.total ((r0, c0, acc) :: K) r c.
Proof.
  revert r0 c0 acc. induction K as [|e K IH]; intros r0 c0 acc.
  - reflexivity.
  - cbn [merged].
    destruct (negb (row_of e =? r0) || negb (col_of e =? c0)) eqn:Hd.
    + rewrite total_cons, IH.
      rewrite (total_cons (r0, c0, acc)).
      destruct e as [[re ce] ve]. reflexivity.
    + apply orb_false_elim in Hd. destruct Hd as [Hr Hc].
      apply negb_false_iff, Nat.eqb_eq in Hr, Hc.
      rewrite IH, !total_cons.
      rewrite Hr, Hc. unfold row_of, col_of, val_of. cbn [fst snd].
      destruct ((r0 =? r) && (c0 =? c)); [|reflexivity].
      symmetry. apply add_assoc.
Qed.

End Sums.

(** ** The CSR matrix of a list of contributions *)

Section Buckets.
Context {B : Type} (coo : list (nat * B)).

Definition bucket (r : nat) : list (nat * B) :=
  filter (fun e => fst e =? r) coo.

Definition below (r : nat) : list (nat * B) :=
  filter (fun e => fst e <? r) coo.

Lemma below_S_length (r : nat) :
  length (below (S r)) = length (below r) + length (bucket r).
Proof.
  unfold below, bucket. induction coo as [|e l IH]; simpl.
  - reflexivity.
  - destruct (Nat.ltb_spec (fst e) (S r)), (Nat.ltb_spec (fst e) r),
      (Nat.eqb_spec (fst e) r); simpl; lia.
Qed.

Lemma flat_map_bucket_length (k : nat) :
  length (flat_map bucket (seq 0 k)) = length (below k).
Proof.
  induction k as [|k IH].
  - unfold below. simpl. induction coo as [|e l IHl]; simpl; auto.
  - rewrite seq_S, flat_map_app, length_app, IH, below_S_length.
    simpl. now rewrite app_nil_r.
Qed.

(** the entries of row [r] lie between the offsets [indptr[r]] and
    [indptr[r+1]] *)
Lemma bucket_slice {C : Type} (g : nat * B -> C) (r M : nat) :
  r < M ->
  firstn (length (below (S r)) - length (below r))
         (skipn (length (below r)) (map g (flat_map bucket (seq 0 M))))
  = map g (bucket r).
Proof.
  intros Hr.
  replace M with (r + S (M - S r)) by lia.
  rewrite seq_app, flat_map_app, map_app. cbn [seq flat_map Nat.add].
  rewrite map_app.
  rewrite below_S_length, Nat.add_comm, Nat.add_sub.
  rewrite <- flat_map_bucket_length.
  rewrite <- (length_map g (flat_map bucket (seq 0 r))).
  rewrite skipn_app, skipn_all, Nat.sub_diag. cbn [skipn app].
  rewrite <- (length_map g (bucket r)).
  rewrite firstn_app, firstn_all, Nat.sub_diag. cbn [firstn].
  apply app_nil_r.
Qed.

End Buckets.

Section CsrFacts.
Context {V : Type} `{Scalar V}.

Lemma nth_map_seq {A : Type} (f : nat -> A) (M r : nat) (d : A) :
  r < M -> nth r (map f (seq 0 M)) d = f r.
Proof.
  intros Hr.
  rewrite (nth_indep _ d (f 0)) by now rewrite length_map, length_seq.
  rewrite map_nth, seq_nth by exact Hr. reflexivity.
Qed.

Lemma combine_map {A B C : Type} (f : A -> B) (g : A -> C) (l : list A) :
  combine (map f l) (map g l) = map (fun a => (f a, g a)) l.
Proof.
  induction l as [|a l IH]; simpl; [reflexivity|now rewrite IH].
Qed.

Lemma filter_map {A B : Type} (p : B -> bool) (g : A -> B) (l : list A) :
  filter p (map g l) = map g (filter (fun a => p (g a)) l).
Proof.
  induction l as [|a l IH]; simpl; [reflexivity|].
  destruct (p (g a)); simpl; now rewrite IH.
Qed.

(** the stored entries of a row of the CSR matrix: the contributions of
    that row, in their order *)
Lemma row_entries_csr_of_triples (M N : nat) (L : list (nat * nat * V))
  (r : nat) :
  r < M ->
  sptools.row_entries (csr_of_triples M N L) r
  = map (fun e => (col_of e, val_of e))
        (filter (fun e => row_of e =? r) L).
Proof.
  intros Hr. unfold csr_of_triples, sptools.coo_tocsr, sptools.row_entries.
  cbn [csr_indptr csr_indices csr_data].
  rewrite !nth_map_seq by lia.
  rewrite (combine_map col_of val_of L).
  rewrite (combine_map row_of (fun e => (col_of e, val_of e)) L).
  set (coo := map (fun a => (row_of a, (col_of a, val_of a))) L).
  rewrite combine_map.
  change (filter (fun e => fst e <? S r) coo) with (below coo (S r)).
  change (filter (fun e => fst e <? r) coo) with (below coo r).
  change (fun r0 => filter (fun e => fst e =? r0) coo) with (bucket coo).
  rewrite (bucket_slice coo (fun a => (fst (snd a), snd (snd a))) r M Hr).
  unfold bucket, coo. rewrite filter_map, map_map. reflexivity.
Qed.

Lemma add_at_nil (j : nat) (v : V) : sptools.add_at [] j v = [].
Proof.
  unfold sptools.add_at. now destruct j.
Qed.

Lemma add_at_0 (b : V) (B : list V) (v : V) :
  sptools.add_at (b :: B) 0 v = add b v :: B.
Proof.
  reflexivity.
Qed.

Lemma add_at_S (b : V) (B : list V) (j : nat) (v : V) :
  sptools.add_at (b :: B) (S j) v = b :: sptools.add_at B j v.
Proof.
  unfold sptools.add_at. simpl.
  destruct (nth_error B j); reflexivity.
Qed.

Lemma add_at_length (B : list V) (j : nat) (v : V) :
  length (sptools.add_at B j v) = length B.
Proof.
  revert j. induction B as [|b B IH]; intros j.
  - now rewrite add_at_nil.
  - destruct j as [|j]; [reflexivity|].
    rewrite add_at_S. simpl. now rewrite IH.
Qed.

Lemma nth_add_at (B : list V) (j c : nat) (v : V) :
  c < length B ->
  nth c (sptools.add_at B j v) zero
  = if j =? c then add (nth c B zero) v else nth c B zero.
Proof.
  revert j c. induction B as [|b B IH]; intros j c Hc; simpl in Hc.
  - lia.
  - destruct j as [|j], c as [|c]; rewrite ?add_at_0, ?add_at_S; simpl;
      try reflexivity.
    apply IH. lia.
Qed.

Lemma dense_fold_length (es : list (nat * V)) (B : list V) :
  length (fold_left (fun B e => sptools.add_at B (fst e) (snd e)) es B)
  = length B.
Proof.
  revert B. induction es as [|e es IH]; intros B; simpl.
  - reflexivity.
  - now rewrite IH, add_at_length.
Qed.

Lemma dense_row_length (N : nat) (es : list (nat * V)) :
  length (sptools.dense_row N es) = N.
Proof.
  unfold sptools.dense_row. now rewrite dense_fold_length, repeat_length.
Qed.

(** one entry of a dense row: the stored values of that column, added
    in turn to zero *)
Lemma nth_dense_fold (es : list (nat * V)) (B : list V) (c : nat) :
  c < length B ->
  nth c (fold_left (fun B e => sptools.add_at B (fst e) (snd e)) es B) zero
  = fold_left (fun s e => if fst e =? c then add s (snd e) else s) es
              (nth c B zero).
Proof.
  revert B. induction es as [|e es IH]; intros B Hc; simpl.
  - reflexivity.
  - rewrite IH by now rewrite add_at_length.
    now rewrite nth_add_at.
Qed.

Lemma nth_repeat_zero (N c : nat) : nth c (repeat (@zero V _) N) zero = zero.
Proof.
  revert c. induction N as [|N IH]; intros [|c]; simpl; auto.
Qed.

Lemma entry_csr_of_triples (M N : nat) (L : list (nat * nat * V))
  (r c : nat) :
  r < M -> c < N ->
  sptools.entry (csr_of_triples M N L) r c
  = fold_left (fun s e => if fst e =? c then add s (snd e) else s)
      (map (fun e => (col_of e, val_of e))
           (filter (fun e => row_of e =? r) L))
      zero.
Proof.
  intros Hr Hc. unfold sptools.entry, sptools.toarray.
  assert (Hs : csr_shape (csr_of_triples M N L) = (M, N)).
  { unfold csr_of_triples.
    destruct (sptools.coo_tocsr M N _ _ _) as [[? ?] ?]. reflexivity. }
  rewrite Hs. cbn [fst snd].
  rewrite nth_map_seq by exact Hr.
  rewrite (row_entries_csr_of_triples M N L r Hr).
  unfold sptools.dense_row.
  rewrite nth_dense_fold by now rewrite repeat_length.
  now rewrite nth_repeat_zero.
Qed.

End CsrFacts.

(** ** Assembly sums the contributions of equal coordinates *)

Section Assembly.
Context {V : Type} `{ScalarLaws V}.

Lemma keyed_triples (col row : list nat) (data pre : list V) :
  length row = length col -> length data = length col ->
  map (fun e => (snd (fst e), fst (fst e), nth (snd e) (pre ++ data) zero))
      (combine (combine col row) (seq (length pre) (length col)))
  = triples row col data.
Proof.
  revert row data pre.
  induction col as [|c col IH]; intros [|r row] [|d data] pre Hrow Hdata;
    simpl in Hrow, Hdata; try discriminate.
  - reflexivity.
  - injection Hrow as Hrow. injection Hdata as Hdata.
    unfold triples. cbn [length seq combine map fst snd].
    rewrite app_nth2, Nat.sub_diag by lia. cbn [nth].
    f_equal.
    specialize (IH row data (pre ++ [d]) Hrow Hdata).
    rewrite <- app_assoc, length_app, Nat.add_comm in IH. exact IH.
Qed.

Lemma sorted_triples_perm (row col : list nat) (data : list V) :
  length row = length col -> length data = length row ->
  Permutation (sorted_triples row col data) (triples row col data).
Proof.
  intros Hrow Hdata.
  rewrite <- (keyed_triples col row data [] Hrow) by congruence.
  unfold sorted_triples, sorted_table. cbn [app length].
  apply Permutation_map, sort_perm.
Qed.

Lemma entry_total (M N : nat) (L : list (nat * nat * V)) (r c : nat) :
  r < M -> c < N ->
  sptools.entry (csr_of_triples M N L) r c = spec.total L r c.
Proof.
  intros Hr Hc. rewrite entry_csr_of_triples by assumption.
  rewrite (fold_left_select (fun e => fst e =? c)), add_zero_l.
  unfold spec.total. f_equal.
  induction L as [|e L IH]; [reflexivity|].
  unfold row_of, col_of, val_of in *. cbn [filter].
  destruct (fst (fst e) =? r); cbn [map filter fst snd andb].
  - destruct (snd (fst e) =? c); cbn [map]; now rewrite IH.
  - exact IH.
Qed.

(** The assembled matrix holds, at every position, the sum of the values
    of the raw entries with these coordinates. *)
Lemma CSRAssembler_call_total (shape : list nat) (dr dc : int_dtype)
  (row col : list nat) (a : CSRAssembler.t) (data : list V) :
  CSRAssembler.init shape (IntArray dr row) (IntArray dc col) = Ok a ->
  length data = length row ->
  exists M N m,
    shape = [M; N]
    /\ CSRAssembler.call a data = Ok m
    /\ csr_shape m = (M, N)
    /\ forall r c, r < M -> c < N ->
         sptools.entry m r c = spec.total (triples row col data) r c.
Proof.
  intros Hinit Hdata.
  destruct (CSRAssembler_call_merged shape dr dc row col a data Hinit Hdata)
    as (M & N & e0 & K & -> & _ & _ & Hlen & HK & Hcall).
  exists M, N. eexists. split; [reflexivity|]. split; [exact Hcall|].
  split.
  - unfold csr_of_triples.
    destruct (sptools.coo_tocsr M N _ _ _) as [[? ?] ?]. reflexivity.
  - intros r c Hr Hc.
    rewrite entry_total by assumption.
    rewrite total_merged.
    replace (row_of e0, col_of e0, val_of e0) with e0
      by now destruct e0 as [[? ?] ?].
    rewrite <- HK. apply total_perm, sorted_triples_perm; assumption.
Qed.

(** C2: the assembler built from the rows [0,0,1] and the columns
    [2,2,3], called on [1.0, 2.0, 5.0], gives a matrix with 3.0 at (0,2)
    and 5.0 at (1,3), and the same matrix when the two duplicates are
    exchanged.  In general the assembled matrix holds at every position
    the sum of the raw values with these coordinates, and two inputs
    that list the same raw entries in different orders give the same
    entries.  The example is evaluated on binary64 numbers; the general
    statements hold in exact arithmetic. *)
Theorem csr_assembler_merges_duplicates :
  (exists a m m',
      CSRAssembler.init [2; 4] (IntArray Int64 [0; 0; 1])
                        (IntArray Int64 [2; 2; 3]) = Ok a
      /\ CSRAssembler.call a [1.0; 2.0; 5.0]%float = Ok m
      /\ sptools.entry m 0 2 = 3.0%float
      /\ sptools.entry m 1 3 = 5.0%float
      /\ sptools.toarray m
         = [[0.0; 0.0; 3.0; 0.0]; [0.0; 0.0; 0.0; 5.0]]%float
      /\ CSRAssembler.call a [2.0; 1.0; 5.0]%float = Ok m'
      /\ sptools.toarray m' = sptools.toarray m)
  /\ (forall shape row col a (data : list V),
         CSRAssembler.init shape row col = Ok a ->
         length data = length (values row) ->
         exists M N m,
           shape = [M; N]
           /\ CSRAssembler.call a data = Ok m
           /\ forall r c, r < M -> c < N ->
                sptools.entry m r c
                = spec.total (triples (values row) (values col) data) r c)
  /\ (forall shape row col row' col' a a' (data data' : list V),
         CSRAssembler.init shape row col = Ok a ->
         CSRAssembler.init shape row' col' = Ok a' ->
         length data = length (values row) ->
         length data' = length (values row') ->
         Permutation (triples (values row) (values col) data)
                     (triples (values row') (values col') data') ->
         exists M N m m',
           shape = [M; N]
           /\ CSRAssembler.call a data = Ok m
           /\ CSRAssembler.call a' data' = Ok m'
           /\ forall r c, r < M -> c < N ->
                sptools.entry m r c = sptools.entry m' r c).
Proof.
  split; [|split].
  - do 3 eexists.
    split; [vm_compute; reflexivity|].
    split; [vm_compute; reflexivity|].
    repeat split; vm_compute; reflexivity.
  - intros shape [dr row] [dc col] a data Hinit Hdata.
    destruct (CSRAssembler_call_total shape dr dc row col a data Hinit Hdata)
      as (M & N & m & Hs & Hcall & _ & Hentry).
    now exists M, N, m.
  - intros shape [dr row] [dc col] [dr' row'] [dc' col'] a a' data data'
      Hinit Hinit' Hdata Hdata' Hperm.
    destruct (CSRAssembler_call_total shape dr dc row col a data Hinit Hdata)
      as (M & N & m & Hs & Hcall & _ & Hentry).
    destruct (CSRAssembler_call_total shape dr' dc' row' col' a' data'
                Hinit' Hdata')
      as (M' & N' & m' & Hs' & Hcall' & _ & Hentry').
    subst shape. injection Hs' as <- <-.
    exists M, N, m, m'. repeat split; try assumption.
    intros r c Hr Hc.
    rewrite Hentry, Hentry' by assumption.
    now apply total_perm.
Qed.

End Assembly.

Lemma csr_assembler_merges_duplicates_witness :
  exists a m,
    CSRAssembler.init [2; 4] (IntArray Int64 [0; 0; 1])
                      (IntArray Int64 [2; 2; 3]) = Ok a
    /\ CSRAssembler.call a [1; 2; 5]%Z = Ok m
    /\ sptools.entry m 0 2 = 3%Z
    /\ sptools.entry m 1 3 = 5%Z.
Proof.
  destruct (csr_assembler_merges_duplicates (V := Z)) as (_ & Hgen & _).
  eexists.
  assert (Hinit : CSRAssembler.init [2; 4] (IntArray Int64 [0; 0; 1])
                                    (IntArray Int64 [2; 2; 3]) = Ok _)
    by (vm_compute; reflexivity).
  destruct (Hgen _ _ _ _ [1; 2; 5]%Z Hinit eq_refl)
    as (M & N & m & Hs & Hcall & Hentry).
  injection Hs as <- <-.
  exists m. split; [exact Hinit|]. split; [exact Hcall|].
  split.
  - rewrite (Hentry 0 2) by lia. reflexivity.
  - rewrite (Hentry 1 3) by lia. reflexivity.
Defined.

(** ** Dense arrays: the unfolding of the operations on one axis *)

Section TreeFacts.
Context {V : Type} `{Scalar V}.

(** [f] on the pairs of two lists of one length *)
Fixpoint zip_result {A B C : Type} (f : A -> B -> result C)
  (la : list A) (lb : list B) : result (list C) :=
  match la, lb with
  | [], [] => Ok []
  | x :: la', y :: lb' =>
      t <- f x y ;;
      ts <- zip_result f la' lb' ;;
      Ok (t :: ts)
  | _, _ => Raise ValueError
  end.

Lemma multiply_zip_fix (la lb : list (ndtree V)) :
  (fix zip (la lb : list (ndtree V)) : result (list (ndtree V)) :=
     match la, lb with
     | [], [] => Ok []
     | x :: la', y :: lb' =>
         t <- nd.multiply_tree x y ;;
         ts <- zip la' lb' ;;
         Ok (t :: ts)
     | _, _ => Raise ValueError
     end) la lb
  = zip_result nd.multiply_tree la lb.
Proof.
  revert lb. induction la as [|x la IH]; intros [|y lb]; try reflexivity.
  cbn [zip_result]. rewrite <- IH. reflexivity.
Qed.

Lemma multiply_each_right_fix (x : ndtree V) (lb : list (ndtree V)) :
  (fix each (lb : list (ndtree V)) : result (list (ndtree V)) :=
     match lb with
     | [] => Ok []
     | y :: lb' =>
         t <- nd.multiply_tree x y ;;
         ts <- each lb' ;;
         Ok (t :: ts)
     end) lb
  = map_result (nd.multiply_tree x) lb.
Proof.
  induction lb as [|y lb IH]; [reflexivity|].
  cbn [map_result]. rewrite <- IH. reflexivity.
Qed.

Lemma multiply_each_left_fix (y : ndtree V) (la : list (ndtree V)) :
  (fix each (la : list (ndtree V)) : result (list (ndtree V)) :=
     match la with
     | [] => Ok []
     | x :: la' =>
         t <- nd.multiply_tree x y ;;
         ts <- each la' ;;
         Ok (t :: ts)
     end) la
  = map_result (fun x => nd.multiply_tree x y) la.
Proof.
  induction la as [|x la IH]; [reflexivity|].
  cbn [map_result]. rewrite <- IH. reflexivity.
Qed.

Lemma multiply_tree_Axis (la lb : list (ndtree V)) :
  nd.multiply_tree (Axis la) (Axis lb)
  = if length la =? length lb then
      r <- zip_result nd.multiply_tree la lb ;; Ok (Axis r)
    else
      match la, lb with
      | [x], _ => r <- map_result (nd.multiply_tree x) lb ;; Ok (Axis r)
      | _, [y] =>
          r <- map_result (fun x => nd.multiply_tree x y) la ;; Ok (Axis r)
      | _, _ => Raise ValueError
      end.
Proof.
  cbn [nd.multiply_tree].
  destruct (length la =? length lb).
  - now rewrite multiply_zip_fix.
  - destruct la as [|x [|x' la]].
    + destruct lb as [|y [|y' lb]]; reflexivity.
    + now rewrite multiply_each_right_fix.
    + destruct lb as [|y [|y' lb]]; try reflexivity.
      now rewrite <- multiply_each_left_fix.
Qed.

Lemma add_tree_Axis (la lb : list (ndtree V)) :
  nd.add_tree (Axis la) (Axis lb)
  = r <- zip_result nd.add_tree la lb ;; Ok (Axis r).
Proof.
  cbn [nd.add_tree]. f_equal. revert lb.
  induction la as [|x la IH]; intros [|y lb]; try reflexivity.
  cbn [zip_result]. rewrite <- IH. reflexivity.
Qed.

Lemma sum_axis_tree_S (k n : nat) (inner : list nat)
  (l : list (ndtree V)) :
  nd.sum_axis_tree (S k) (n :: inner) (Axis l)
  = r <- map_result (nd.sum_axis_tree k inner) l ;; Ok (Axis r).
Proof.
  cbn [nd.sum_axis_tree]. f_equal.
  induction l as [|x l IH]; [reflexivity|].
  cbn [map_result]. rewrite <- IH. reflexivity.
Qed.

(** elementwise operations on vectors *)
Definition scale (c : V) (a : list V) : list V := map (fun d => mul d c) a.

Fixpoint zip_add (a b : list V) : list V :=
  match a, b with
  | x :: a', y :: b' => add x y :: zip_add a' b'
  | _, _ => []
  end.

Lemma zip_result_multiply_items (a b : list V) :
  length a = length b ->
  zip_result nd.multiply_tree (map Item a) (map Item b)
  = Ok (map Item (spec.zip_mul a b)).
Proof.
  revert b. induction a as [|x a IH]; intros [|y b] Hlen;
    simpl in Hlen; try discriminate; [reflexivity|].
  injection Hlen as Hlen. cbn [map zip_result spec.zip_mul].
  rewrite (IH b Hlen). reflexivity.
Qed.

Lemma zip_result_add_items (a b : list V) :
  length a = length b ->
  zip_result nd.add_tree (map Item a) (map Item b)
  = Ok (map Item (zip_add a b)).
Proof.
  revert b. induction a as [|x a IH]; intros [|y b] Hlen;
    simpl in Hlen; try discriminate; [reflexivity|].
  injection Hlen as Hlen. cbn [map zip_result zip_add].
  rewrite (IH b Hlen). reflexivity.
Qed.

(** a vector times a vector of the same length *)
Lemma multiply_tree_vectors (a b : list V) :
  length a = length b ->
  nd.multiply_tree (Axis (map Item a)) (Axis (map Item b))
  = Ok (Axis (map Item (spec.zip_mul a b))).
Proof.
  intros Hlen. rewrite multiply_tree_Axis, !length_map.
  apply Nat.eqb_eq in Hlen as Hlen'. rewrite Hlen'.
  now rewrite zip_result_multiply_items.
Qed.

Lemma map_result_multiply_item (l : list V) (c : V) :
  map_result (fun x => nd.multiply_tree x (Item c)) (map Item l)
  = Ok (map Item (scale c l)).
Proof.
  induction l as [|z l IH]; [reflexivity|].
  cbn [map map_result scale nd.multiply_tree bind].
  rewrite IH. reflexivity.
Qed.

(** a vector times an array of one number: the number is repeated *)
Lemma multiply_tree_scale (a : list V) (c : V) :
  nd.multiply_tree (Axis (map Item a)) (Axis [Item c])
  = Ok (Axis (map Item (scale c a))).
Proof.
  rewrite multiply_tree_Axis, length_map. cbn [length].
  destruct a as [|x [|x' a]]; try reflexivity.
  cbn [Nat.eqb]. rewrite map_result_multiply_item. reflexivity.
Qed.

Lemma add_tree_vectors (a b : list V) :
  length a = length b ->
  nd.add_tree (Axis (map Item a)) (Axis (map Item b))
  = Ok (Axis (map Item (zip_add a b))).
Proof.
  intros Hlen. rewrite add_tree_Axis.
  now rewrite zip_result_add_items.
Qed.

Lemma zip_add_length (a b : list V) :
  length a = length b -> length (zip_add a b) = length a.
Proof.
  revert b. induction a as [|x a IH]; intros [|y b] Hlen;
    simpl in Hlen; try discriminate; [reflexivity|].
  simpl. f_equal. apply IH. now injection Hlen.
Qed.

(** the sum of a vector along its axis *)
Lemma add_reduce_items (a : list V) :
  nd.add_reduce [] (map Item a) = Ok (Item (np.sum a)).
Proof.
  destruct a as [|x a]; [reflexivity|].
  cbn [map nd.add_reduce np.sum]. unfold np.add_reduce_from.
  revert x. induction a as [|y a IH]; intros x; [reflexivity|].
  cbn [map fold_left bind nd.add_tree]. apply IH.
Qed.

(** the sum of the rows of a matrix *)
Lemma add_reduce_rows (N : nat) (x : list V) (rows : list (list V)) :
  length x = N -> Forall (fun r => length r = N) rows ->
  nd.add_reduce [N] (map (fun r => Axis (map Item r)) (x :: rows))
  = Ok (Axis (map Item (fold_left zip_add rows x))).
Proof.
  intros Hx Hrows. cbn [map nd.add_reduce].
  revert x Hx. induction Hrows as [|r rows Hr _ IH]; intros x Hx.
  - reflexivity.
  - cbn [map fold_left bind].
    rewrite add_tree_vectors by congruence.
    apply IH. rewrite zip_add_length; congruence.
Qed.

Lemma scale_length (c : V) (a : list V) : length (scale c a) = length a.
Proof.
  apply length_map.
Qed.

Definition row_tree (r : list V) : ndtree V := Axis (map Item r).

(** a matrix times a row vector: every row is multiplied entry by
    entry *)
Lemma multiply_rows_by_vector (D : list (list V)) (cb : list V) :
  Forall (fun r => length r = length cb) D ->
  nd.multiply_tree (Axis (map row_tree D)) (Axis [row_tree cb])
  = Ok (Axis (map (fun r => row_tree (spec.zip_mul r cb)) D)).
Proof.
  intros HD.
  assert (Heach : map_result (fun x => nd.multiply_tree x (row_tree cb))
                             (map row_tree D)
                  = Ok (map (fun r => row_tree (spec.zip_mul r cb)) D)).
  { induction HD as [|r D Hr _ IH]; [reflexivity|].
    cbn [map map_result]. unfold row_tree at 1 2.
    rewrite (multiply_tree_vectors r cb Hr). cbn [bind].
    rewrite IH. reflexivity. }
  rewrite multiply_tree_Axis, length_map. cbn [length].
  destruct D as [|r [|r' D]].
  - reflexivity.
  - cbn [length Nat.eqb map zip_result]. unfold row_tree at 1 2.
    inversion HD as [|? ? Hr _]; subst.
    rewrite (multiply_tree_vectors r cb Hr). reflexivity.
  - cbn [length Nat.eqb]. cbn [map] in *. now rewrite Heach.
Qed.

(** a matrix times a column vector: row [i] is scaled by entry [i] *)
Lemma multiply_rows_by_column (D : list (list V)) (ca : list V) :
  length D = length ca ->
  nd.multiply_tree (Axis (map row_tree D))
                   (Axis (map (fun v => Axis [Item v]) ca))
  = Ok (Axis (map (fun p => row_tree (scale (snd p) (fst p)))
                  (combine D ca))).
Proof.
  intros Hlen. rewrite multiply_tree_Axis, !length_map.
  apply Nat.eqb_eq in Hlen as Hlen'. rewrite Hlen'.
  replace (zip_result nd.multiply_tree (map row_tree D)
             (map (fun v => Axis [Item v]) ca))
    with (Ok (A := list (ndtree V))
             (map (fun p => row_tree (scale (snd p) (fst p)))
                  (combine D ca))); [reflexivity|].
  clear Hlen'. revert ca Hlen.
  induction D as [|r D IH]; intros [|v ca] Hlen; simpl in Hlen;
    try discriminate; [reflexivity|].
  injection Hlen as Hlen.
  cbn [map combine zip_result fst snd].
  rewrite <- (IH ca Hlen). unfold row_tree.
  rewrite multiply_tree_scale. reflexivity.
Qed.

Lemma broadcast_shapes_row (M N : nat) :
  nd.broadcast_shapes [M; N] [1; N] = Ok [M; N].
Proof.
  cbn [nd.broadcast_shapes bind]. rewrite Nat.eqb_refl.
  destruct (M =? 1); reflexivity.
Qed.

Lemma broadcast_shapes_column (M N : nat) :
  nd.broadcast_shapes [M; N] [M; 1] = Ok [M; N].
Proof.
  cbn [nd.broadcast_shapes bind].
  replace (if N =? 1 then Ok (A := list nat) [N]
           else if N =? 1 then Ok [1] else if 1 =? 1 then Ok [N]
           else Raise ValueError)
    with (Ok (A := list nat) [N]) by (destruct (N =? 1); reflexivity).
  now rewrite Nat.eqb_refl.
Qed.

Lemma map_result_sum_rows (N : nat) (rows : list (list V)) :
  map_result (nd.sum_axis_tree 0 [N]) (map row_tree rows)
  = Ok (map (fun r => Item (np.sum r)) rows).
Proof.
  induction rows as [|r rows IH]; [reflexivity|].
  cbn [map map_result]. unfold row_tree at 1. cbn [nd.sum_axis_tree].
  rewrite add_reduce_items. cbn [bind]. rewrite IH. reflexivity.
Qed.

(** The dense contraction of a matrix with a vector on its second
    axis. *)
Lemma numpy_contract_columns (p : option props) (M N : nat)
  (D : list (list V)) (cb : list V) :
  Forall (fun r => length r = N) D -> length cb = N ->
  NumpyArrayIntegrand__contract
    {| np_properties := p; np_obj := nd.of_matrix M N D |} [None; Some cb]
  = Ok (NdArray [M]
          (Axis (map Item (map (fun r => np.sum (spec.zip_mul r cb)) D)))).
Proof.
  intros HD Hcb.
  unfold NumpyArrayIntegrand__contract, nd.of_matrix.
  cbn [np_obj nd_shape nd_tree length contract_loop].
  unfold nd.multiply, nd.expand.
  cbn [nd_shape nd_tree length Nat.sub repeat app nd.newaxes].
  rewrite Hcb, broadcast_shapes_row. cbn [bind].
  change (map (fun v : V => Item v) cb) with (map Item cb).
  change (Axis (map Item cb)) with (row_tree cb).
  change (map (fun r : list V => Axis (map Item r)) D)
    with (map row_tree D).
  rewrite multiply_rows_by_vector
    by (eapply Forall_impl; [|exact HD]; intros; congruence).
  cbn [bind nd.sum]. unfold nd.sum_axis. cbn [nd_shape nd_tree].
  rewrite sum_axis_tree_S.
  rewrite <- (map_map (fun r => spec.zip_mul r cb) row_tree).
  rewrite map_result_sum_rows. cbn [bind nd.remove_nth].
  now rewrite !map_map.
Qed.

(** the sum of the scaled rows of a matrix *)
Definition sum_rows (N : nat) (rows : list (list V)) : list V :=
  match rows with
  | [] => repeat zero N
  | x :: rest => fold_left zip_add rest x
  end.

Lemma zeros_vector (N : nat) :
  nd.zeros [N] = Axis (map Item (repeat (@zero V _) N)).
Proof.
  cbn [nd.zeros]. f_equal.
  induction N as [|N IH]; [reflexivity|].
  cbn [repeat map]. now rewrite IH.
Qed.

(** The dense contraction of a matrix with a vector on its first
    axis. *)
Lemma numpy_contract_rows (p : option props) (M N : nat)
  (D : list (list V)) (ca : list V) :
  Forall (fun r => length r = N) D -> length D = M -> length ca = M ->
  NumpyArrayIntegrand__contract
    {| np_properties := p; np_obj := nd.of_matrix M N D |} [Some ca; None]
  = Ok (NdArray [N]
          (Axis (map Item
                     (sum_rows N (map (fun p => scale (snd p) (fst p))
                                      (combine D ca)))))).
Proof.
  intros HD HM Hca.
  unfold NumpyArrayIntegrand__contract, nd.of_matrix.
  cbn [np_obj nd_shape nd_tree length contract_loop].
  unfold nd.multiply, nd.expand.
  cbn [nd_shape nd_tree length Nat.sub repeat app nd.newaxes].
  rewrite Hca, broadcast_shapes_column. cbn [bind].
  change (map (fun r : list V => Axis (map Item r)) D)
    with (map row_tree D).
  rewrite multiply_rows_by_column by congruence.
  cbn [bind contract_loop nd.sum app]. unfold nd.sum_axis.
  cbn [nd_shape nd_tree nd.sum_axis_tree nd.remove_nth].
  rewrite <- (map_map (fun p => scale (snd p) (fst p)) row_tree).
  assert (Hrows : Forall (fun r => length r = N)
                    (map (fun p => scale (snd p) (fst p)) (combine D ca))).
  { apply Forall_map, Forall_forall. intros [r v] Hin.
    apply in_combine_l in Hin. rewrite scale_length. cbn [fst].
    rewrite Forall_forall in HD. now apply HD. }
  destruct (map (fun p => scale (snd p) (fst p)) (combine D ca))
    as [|x rest].
  - cbn [map nd.add_reduce sum_rows]. now rewrite zeros_vector.
  - inversion Hrows as [|? ? Hx Hrest]; subst.
    unfold row_tree.
    rewrite (add_reduce_rows (length x) x rest eq_refl Hrest).
    reflexivity.
Qed.

End TreeFacts.

(** ** The sparse products against the dense ones *)

Section DenseSparse.
Context {V : Type} `{ScalarLaws V}.

Lemma Sum_zip_mul_zeros (N : nat) (x : list V) :
  spec.Sum (spec.zip_mul (repeat zero N) x) = zero.
Proof.
  revert x. induction N as [|N IH]; intros [|y x]; try reflexivity.
  cbn [repeat spec.zip_mul]. unfold spec.Sum. cbn [fold_right].
  fold (spec.Sum (spec.zip_mul (repeat zero N) x)).
  now rewrite IH, mul_zero_l, add_zero_l.
Qed.

Lemma Sum_cons (a : V) (l : list V) :
  spec.Sum (a :: l) = add a (spec.Sum l).
Proof.
  reflexivity.
Qed.

Lemma Sum_zip_mul_add_at (B x : list V) (j : nat) (v : V) :
  length B = length x ->
  spec.Sum (spec.zip_mul (sptools.add_at B j v) x)
  = add (spec.Sum (spec.zip_mul B x)) (mul v (nth j x zero)).
Proof.
  revert x j. induction B as [|b B IH]; intros [|y x] j Hlen;
    simpl in Hlen; try discriminate.
  - rewrite add_at_nil. cbn [spec.zip_mul].
    destruct j; cbn [nth]; rewrite mul_zero_r; unfold spec.Sum;
      cbn [fold_right]; now rewrite add_zero_l.
  - injection Hlen as Hlen. destruct j as [|j].
    + rewrite add_at_0. cbn [spec.zip_mul nth]. rewrite !Sum_cons.
      rewrite mul_add_distr_r.
      rewrite <- !add_assoc. f_equal. apply add_comm.
    + rewrite add_at_S. cbn [spec.zip_mul nth]. rewrite !Sum_cons.
      rewrite (IH x j Hlen). apply add_assoc.
Qed.

Lemma dense_fold_matvec (es : list (nat * V)) (B x : list V) :
  length B = length x ->
  spec.Sum (spec.zip_mul
              (fold_left (fun B e => sptools.add_at B (fst e) (snd e)) es B)
              x)
  = fold_left (fun s e => add s (mul (snd e) (nth (fst e) x zero))) es
              (spec.Sum (spec.zip_mul B x)).
Proof.
  revert B. induction es as [|e es IH]; intros B Hlen; [reflexivity|].
  cbn [fold_left]. rewrite IH by now rewrite add_at_length.
  now rewrite Sum_zip_mul_add_at.
Qed.

(** a row of the matrix-vector product: the dense sum over the columns
    is the sparse sum over the stored entries *)
Lemma dense_row_matvec (N : nat) (es : list (nat * V)) (x : list V) :
  length x = N ->
  spec.Sum (spec.zip_mul (sptools.dense_row N es) x)
  = sptools.matvec_row x es.
Proof.
  intros Hx. unfold sptools.dense_row, sptools.matvec_row.
  rewrite dense_fold_matvec by now rewrite repeat_length.
  now rewrite Sum_zip_mul_zeros.
Qed.

Lemma zip_add_scale_zeros (N : nat) (y : list V) (c : V) :
  length y = N -> zip_add y (scale c (repeat zero N)) = y.
Proof.
  revert y. induction N as [|N IH]; intros [|a y] Hy; simpl in Hy;
    try discriminate; [reflexivity|].
  cbn [repeat scale map zip_add]. fold (scale c (repeat zero N)).
  rewrite mul_zero_l, add_zero_r. f_equal. apply IH. now injection Hy.
Qed.

Lemma zip_add_zeros_l (N : nat) (y : list V) :
  length y = N -> zip_add (repeat zero N) y = y.
Proof.
  revert y. induction N as [|N IH]; intros [|a y] Hy; simpl in Hy;
    try discriminate; [reflexivity|].
  cbn [repeat zip_add]. rewrite add_zero_l. f_equal. apply IH.
  now injection Hy.
Qed.

Lemma zip_add_scale_add_at (y B : list V) (c : V) (j : nat) (v : V) :
  length y = length B ->
  sptools.add_at (zip_add y (scale c B)) j (mul v c)
  = zip_add y (scale c (sptools.add_at B j v)).
Proof.
  revert B j. induction y as [|a y IH]; intros [|b B] j Hlen;
    simpl in Hlen; try discriminate.
  - rewrite add_at_nil. cbn [scale map zip_add]. apply add_at_nil.
  - injection Hlen as Hlen. destruct j as [|j].
    + rewrite add_at_0. cbn [scale map zip_add]. rewrite add_at_0.
      rewrite mul_add_distr_r, add_assoc. reflexivity.
    + rewrite add_at_S. cbn [scale map zip_add]. rewrite add_at_S.
      fold (scale c B). fold (scale c (sptools.add_at B j v)).
      now rewrite IH.
Qed.

Lemma scatter_fold_dense (es : list (nat * V)) (y B : list V) (c : V) :
  length y = length B ->
  fold_left (fun y e => sptools.add_at y (fst e) (mul (snd e) c)) es
            (zip_add y (scale c B))
  = zip_add y
      (scale c (fold_left (fun B e => sptools.add_at B (fst e) (snd e))
                          es B)).
Proof.
  revert B. induction es as [|e es IH]; intros B Hlen; [reflexivity|].
  cbn [fold_left]. rewrite zip_add_scale_add_at by exact Hlen.
  apply IH. now rewrite add_at_length.
Qed.

(** a row of the transposed product: scattering the stored entries into
    [y] adds the scaled dense row to [y] *)
Lemma rmatvec_row_dense (N : nat) (es : list (nat * V)) (y : list V)
  (c : V) :
  length y = N ->
  sptools.rmatvec_row c y es
  = zip_add y (scale c (sptools.dense_row N es)).
Proof.
  intros Hy. unfold sptools.rmatvec_row, sptools.dense_row.
  rewrite <- scatter_fold_dense by now rewrite repeat_length.
  now rewrite zip_add_scale_zeros.
Qed.

Lemma combine_map_seq {A : Type} (f : nat -> A) (x : list V) (s : nat) :
  combine (map f (seq s (length x))) x
  = map (fun r => (f r, nth (r - s) x zero)) (seq s (length x)).
Proof.
  revert s. induction x as [|a x IH]; intros s; [reflexivity|].
  cbn [length seq map combine]. rewrite Nat.sub_diag. cbn [nth].
  f_equal. rewrite IH. apply map_ext_in. intros r Hr.
  apply in_seq in Hr. replace (r - s) with (S (r - S s)) by lia.
  reflexivity.
Qed.

(** the transposed product: the sum of the scaled dense rows *)
Lemma T_dot_dense (m : csr_matrix V) (x : list V) :
  length x = fst (csr_shape m) ->
  sptools.T_dot m x
  = Ok (sum_rows (snd (csr_shape m))
          (map (fun p => scale (snd p) (fst p))
               (combine (sptools.toarray m) x))).
Proof.
  intros Hx. unfold sptools.T_dot, sptools.toarray.
  apply Nat.eqb_eq in Hx as Hx'. rewrite Hx'. f_equal.
  rewrite <- Hx. rewrite combine_map_seq, map_map. cbn [fst snd].
  set (N := snd (csr_shape m)).
  set (g := fun r => scale (nth (r - 0) x zero)
                           (sptools.dense_row N (sptools.row_entries m r))).
  assert (Hg : forall r, length (g r) = N)
    by (intros r; unfold g; now rewrite scale_length, dense_row_length).
  assert (Hfold : forall l y, length y = N ->
            fold_left (fun y r => sptools.rmatvec_row (nth r x zero) y
                                    (sptools.row_entries m r)) l y
            = fold_left zip_add (map g l) y).
  { induction l as [|r l IH]; intros y Hy; [reflexivity|].
    cbn [fold_left map]. rewrite (rmatvec_row_dense N) by exact Hy.
    unfold g at 2. rewrite Nat.sub_0_r. apply IH.
    rewrite zip_add_length;
      [exact Hy|now rewrite scale_length, dense_row_length]. }
  rewrite Hfold by apply repeat_length.
  destruct (seq 0 (length x)) as [|r l]; [reflexivity|].
  cbn [map fold_left sum_rows].
  now rewrite zip_add_zeros_l.
Qed.

(** the product with a vector: the dense sums of the rows *)
Lemma dot_dense (m : csr_matrix V) (x : list V) :
  length x = snd (csr_shape m) ->
  sptools.dot m x = Ok (spec.matvec (sptools.toarray m) x).
Proof.
  intros Hx. unfold sptools.dot, sptools.toarray, spec.matvec.
  apply Nat.eqb_eq in Hx as Hx'. rewrite Hx'. f_equal.
  rewrite map_map. apply map_ext. intros r.
  symmetry. now apply dense_row_matvec.
Qed.

Lemma toarray_length (m : csr_matrix V) :
  length (sptools.toarray m) = fst (csr_shape m).
Proof.
  unfold sptools.toarray. now rewrite length_map, length_seq.
Qed.

Lemma toarray_rows (m : csr_matrix V) :
  Forall (fun r => length r = snd (csr_shape m)) (sptools.toarray m).
Proof.
  unfold sptools.toarray. apply Forall_map, Forall_forall.
  intros r _. apply dense_row_length.
Qed.

Lemma multiply_zip_mul (a b : list V) :
  length a = length b -> np.multiply a b = Ok (spec.zip_mul a b).
Proof.
  revert b. induction a as [|x a IH]; intros [|y b] Hlen;
    simpl in Hlen; try discriminate; [reflexivity|].
  cbn [np.multiply spec.zip_mul]. rewrite IH by now injection Hlen.
  reflexivity.
Qed.

End DenseSparse.

(** ** Dense and sparse wrappers of one matrix *)

Section Equivalence.
Context {V : Type} `{ScalarLaws V}.

Lemma map_np_sum (rows : list (list V)) (x : list V) :
  map (fun r => np.sum (spec.zip_mul r x)) rows = spec.matvec rows x.
Proof.
  unfold spec.matvec. apply map_ext. intros r. apply np_sum_Sum.
Qed.

Lemma matvec_length (rows : list (list V)) (x : list V) :
  length (spec.matvec rows x) = length rows.
Proof.
  apply length_map.
Qed.

Lemma fold_zip_add_length (N : nat) (rest : list (list V)) (x : list V) :
  length x = N -> Forall (fun r => length r = N) rest ->
  length (fold_left zip_add rest x) = N.
Proof.
  intros Hx Hrest. revert x Hx.
  induction Hrest as [|r rest Hr _ IH]; intros x Hx; [exact Hx|].
  cbn [fold_left]. apply IH.
  rewrite zip_add_length; congruence.
Qed.

Lemma sum_rows_length (N : nat) (rows : list (list V)) :
  Forall (fun r => length r = N) rows -> length (sum_rows N rows) = N.
Proof.
  intros Hrows. destruct rows as [|x rest]; cbn [sum_rows].
  - apply repeat_length.
  - inversion Hrows as [|? ? Hx Hrest]. now apply fold_zip_add_length.
Qed.

(** what [x.contract(c).get(trivial)] returns once [contract] has
    returned a dense wrapper of [a] *)
Lemma get_trivial_numpy (a : ndarray V) :
  (n <- Integrand_ndim (Numpy {| np_properties := Some [];
                                 np_obj := a |}) ;;
   Integrand_get (Numpy {| np_properties := Some []; np_obj := a |})
                 (trivial n))
  = Ok (PyArray a).
Proof.
  cbn [Integrand_ndim bind Integrand_get np_obj].
  unfold NumpyArrayIntegrand_get.
  now rewrite NumpyArrayIntegrand__contract_trivial.
Qed.

(** C3, as the code has it: for a sparse matrix and the dense array of
    its entries, and for a contraction specification with at most one
    vector, of the length of its axis, [contract] followed by [get] with
    the all-no-op specification succeeds on both wrappers and gives the
    same entries.  With two vectors the sparse wrapper refuses, by its
    assertion.  The equality is that of exact arithmetic. *)
Theorem dense_sparse_contract_agree (m : csr_matrix V)
  (pd ps : option props) (c : contraction_spec) :
  spec.wf_contraction [fst (csr_shape m); snd (csr_shape m)] c ->
  length (eliminated c) <= 1 ->
  exists rd rs a,
    contract_then_get
      (Numpy {| np_properties := pd;
                np_obj := nd.of_matrix (fst (csr_shape m))
                                       (snd (csr_shape m))
                                       (sptools.toarray m) |}) c = Ok rd
    /\ contract_then_get (Scipy {| sp_properties := ps; sp_obj := m |}) c
       = Ok rs
    /\ densify rd = Some a
    /\ densify rs = Some a.
Proof.
  set (M := fst (csr_shape m)). set (N := snd (csr_shape m)).
  intros Hwf Hone.
  inversion Hwf as [|? o0 ? ? Ho0 Hwf1]; subst.
  inversion Hwf1 as [|? o1 ? ? Ho1 Hwf2]; subst.
  inversion Hwf2; subst. clear Hwf Hwf1 Hwf2.
  unfold contract_then_get.
  cbn [Integrand_contract].
  unfold NumpyArrayIntegrand_contract, ScipyArrayIntegrand_contract.
  destruct o0 as [ca|], o1 as [cb|].
  - (* two vectors: excluded *)
    cbn in Hone. lia.
  - (* a vector on the first axis *)
    rewrite (numpy_contract_rows pd M N (sptools.toarray m) ca
               (toarray_rows m) (toarray_length m) Ho0).
    cbn [length Nat.eqb py_assert bind unpack_pair is_none andb orb].
    rewrite (T_dot_dense m ca Ho0). fold M N.
    cbn [bind NumpyArrayIntegrand_init]. unfold nd.of_vector.
    rewrite sum_rows_length.
    + rewrite !get_trivial_numpy. do 3 eexists. repeat split.
    + apply Forall_map, Forall_forall. intros [r v] Hin.
      apply in_combine_l in Hin. rewrite scale_length. cbn [fst].
      pose proof (toarray_rows m) as Hrows.
      rewrite Forall_forall in Hrows. now apply Hrows.
  - (* a vector on the second axis *)
    rewrite (numpy_contract_columns pd M N (sptools.toarray m) cb
               (toarray_rows m) Ho1).
    cbn [length Nat.eqb py_assert bind unpack_pair is_none andb orb].
    rewrite (dot_dense m cb Ho1).
    cbn [bind NumpyArrayIntegrand_init]. unfold nd.of_vector.
    rewrite map_np_sum, matvec_length, toarray_length. fold M.
    rewrite !get_trivial_numpy. do 3 eexists. repeat split.
  - (* no vector *)
    change [@None (list V); None] with (@trivial V 2).
    rewrite NumpyArrayIntegrand__contract_trivial.
    cbn [np_obj bind NumpyArrayIntegrand_init].
    rewrite get_trivial_numpy.
    cbn. do 3 eexists. repeat split.
Qed.

(** C10: [ScipyArrayIntegrand.get] with a vector on both axes returns
    the number [ca^T A cb], where [A] is the matrix of the entries;
    [contract] with the same specification fails. *)
Theorem scipy_get_two_vectors (self : ScipyArrayIntegrand)
  (ca cb : list V) :
  length ca = fst (csr_shape (sp_obj self)) ->
  length cb = snd (csr_shape (sp_obj self)) ->
  ScipyArrayIntegrand_get self [Some ca; Some cb]
  = Ok (PyScalar (spec.bilinear ca (sptools.toarray (sp_obj self)) cb))
  /\ ScipyArrayIntegrand_contract self [Some ca; Some cb]
     = Raise AssertionError.
Proof.
  intros Hca Hcb. split; [|reflexivity].
  unfold ScipyArrayIntegrand_get.
  cbn [forallb is_none andb unpack_pair bind].
  rewrite (dot_dense _ cb Hcb). cbn [bind]. unfold vdot.
  rewrite multiply_zip_mul
    by now rewrite matvec_length, toarray_length.
  cbn [bind]. rewrite fold_left_add_Sum, add_zero_l. reflexivity.
Qed.

End Equivalence.

Lemma dense_sparse_contract_agree_witness :
  exists rd rs a,
    contract_then_get
      (Numpy {| np_properties := Some [];
                np_obj := nd.of_matrix 2 2 (sptools.toarray example_matrix) |})
      [None; Some [1; 10]%Z] = Ok rd
    /\ contract_then_get
         (Scipy {| sp_properties := Some []; sp_obj := example_matrix |})
         [None; Some [1; 10]%Z] = Ok rs
    /\ densify rd = Some a
    /\ densify rs = Some a.
Proof.
  apply (dense_sparse_contract_agree example_matrix (Some []) (Some [])
           [None; Some [1; 10]%Z]).
  - repeat constructor.
  - simpl. lia.
Defined.

(** C3, as the specification words it, fails: with a vector on both axes
    the dense wrapper returns the number and the sparse wrapper
    refuses. *)
Lemma dense_sparse_contract_differ :
  spec.wf_contraction [2; 2] [Some [1; 1]%Z; Some [1; 10]%Z]
  /\ contract_then_get
       (Numpy {| np_properties := Some [];
                 np_obj := nd.of_matrix 2 2 (sptools.toarray example_matrix) |})
       [Some [1; 1]%Z; Some [1; 10]%Z]
     = Ok (PyArray (nd.scalar 82%Z))
  /\ contract_then_get
       (Scipy {| sp_properties := Some []; sp_obj := example_matrix |})
       [Some [1; 1]%Z; Some [1; 10]%Z]
     = Raise AssertionError.
Proof.
  split; [repeat constructor|].
  split; reflexivity.
Qed.

Lemma scipy_get_two_vectors_witness :
  ScipyArrayIntegrand_get
    {| sp_properties := Some []; sp_obj := example_matrix |}
    [Some [1; 1]%Z; Some [1; 10]%Z]
  = Ok (PyScalar 82%Z)
  /\ ScipyArrayIntegrand_contract
       {| sp_properties := Some []; sp_obj := example_matrix |}
       [Some [1; 1]%Z; Some [1; 10]%Z]
     = Raise AssertionError.
Proof.
  exact (scipy_get_two_vectors
           {| sp_properties := Some []; sp_obj := example_matrix |}
           [1; 1]%Z [1; 10]%Z eq_refl eq_refl).
Defined.

(** ** Persistence *)

(** C4: the round trip of an unassembled tensor does not take place.
    [COOTensorIntegrand.write] hands every assembler to the [write] of
    its class, and that method calls [to_dataset] by a name that
    [sparse.py] does not bind: for the tensor of the worked example with
    the property [tag] set, and for every tensor that the constructor
    returned, written under a name that the group does not hold,
    [write] raises [NameError], and so does reading back what it wrote.
    Nor could [read] give back an equal object: whatever the group, the
    object that [COOTensorIntegrand.read] returns has neither
    [_properties] nor [ndim], so that [prop] with a name and [ndim] raise
    [AttributeError] on it.  The dense wrapper, whose [write] and [read]
    call [write_props] and [read_props], keeps the property. *)
Theorem coo_roundtrip_fails :
  (exists x,
      tagged_example = Ok x
      /\ coo_properties x = Some [("tag", PropInt 7)]
      /\ COOTensorIntegrand_prop_values x ["tag"] [] = Ok [PropInt 7]
      /\ Integrand_ndim (COOTensor x) = Ok 3
      /\ COOTensorIntegrand_write x h5.empty_group "op" = Raise NameError
      /\ COOTensorIntegrand_roundtrip x "op" = Raise NameError)
  /\ (forall (V : Type) `{Scalar V} (shape : list nat)
             (index_args : list (list nat)) (data_arg : list V)
             (x : COOTensorIntegrand) (attrs : list (string * h5.attr))
             (members : list (string * h5.node V)) (name : string),
         COOTensorIntegrand_init shape index_args data_arg = Ok x ->
         assoc_get String.eqb name members = None ->
         COOTensorIntegrand_write x (h5.Group attrs members) name
         = Raise NameError)
  /\ (forall (V : Type) `{Scalar V} (group : h5.node V)
             (y : COOTensorIntegrand),
         COOTensorIntegrand_read group = Ok y ->
         coo_properties y = None
         /\ coo_ndim y = None
         /\ (forall arg args kwargs,
                COOTensorIntegrand_prop_values y (arg :: args) kwargs
                = Raise AttributeError)
         /\ Integrand_ndim (COOTensor y) = Raise AttributeError)
  /\ (forall w : @NumpyArrayIntegrand float,
         NumpyArrayIntegrand_prop_defaults
           {| np_properties := Some [];
              np_obj := nd.of_vector [3.0; 3.0]%float |}
           [("tag", PropInt 7)] = Ok w ->
         NumpyArrayIntegrand_roundtrip w "op" = Ok (Numpy w)).
Proof.
  split.
  { eexists. split; [vm_compute; reflexivity|].
    repeat (split; [reflexivity|]). reflexivity. }
  split.
  { intros V HV shape index_args data_arg x attrs members name Hinit Hfresh.
    apply COOTensorIntegrand_init_inv in Hinit.
    destruct Hinit as (indices & data & fits & s0 & s1 & s2 & i0 & i1 & i2
                       & a1 & a2 & a12 & -> & _ & _ & _ & -> & _ & _ & _
                       & ->).
    unfold COOTensorIntegrand_write, h5.require_group at 1.
    rewrite Hfresh. reflexivity. }
  split.
  { intros V HV group y Hread. unfold COOTensorIntegrand_read in Hread.
    binds_inv Hread. injection Hread as <-.
    repeat split; reflexivity. }
  intros w [= <-]. reflexivity.
Qed.

(** A group laid out as section 6 of the specification describes the
    stored form of an unassembled tensor: the tensor of shape (2,2,2)
    with the entries 3 at (0,0,0) and 3 at (1,1,1), and its assembler for
    the elimination of axes 1 and 2. *)
Definition stored_example : h5.node Z :=
  h5.Group
    [("type", h5.StrAttr "COOTensorIntegrand")]
    [("data",
      h5.Group
        [("shape", h5.ShapeAttr [2; 2; 2])]
        [("indices-i", h5.Dataset (h5.IntData (IntArray Int32 [0; 1])));
         ("indices-j", h5.Dataset (h5.IntData (IntArray Int32 [0; 1])));
         ("indices-k", h5.Dataset (h5.IntData (IntArray Int32 [0; 1])));
         ("data", h5.Dataset (h5.ValData [3; 3]%Z));
         ("assemblers",
          h5.Group []
            [("1,2",
              h5.Group
                [("shape", h5.ShapeAttr [2]);
                 ("type", h5.StrAttr "VectorAssembler")]
                [("row", h5.Dataset (h5.IntData (IntArray Int32 [0; 1])));
                 ("order", h5.Dataset (h5.IntData (IntArray Int64 [0; 1])));
                 ("inds", h5.Dataset (h5.IntData (IntArray Int64 [0; 1])))])])])].

Lemma coo_roundtrip_fails_witness :
  exists y,
    Integrand_read stored_example = Ok (COOTensor y)
    /\ COOTensorIntegrand_get y [None; Some [1; 1]%Z; Some [1; 1]%Z]
       = Ok (PyArray (nd.of_vector [3; 3]%Z))
    /\ coo_properties y = None
    /\ COOTensorIntegrand_prop_values y ["tag"] [] = Raise AttributeError
    /\ Integrand_ndim (COOTensor y) = Raise AttributeError.
Proof.
  destruct (COOTensorIntegrand_read stored_example) as [y|e] eqn:Hy;
    [|vm_compute in Hy; discriminate].
  destruct (proj1 (proj2 (proj2 coo_roundtrip_fails)) Z _ stored_example y Hy)
    as (Hp & _ & Hprop & Hndim).
  exists y. split.
  { unfold Integrand_read. cbn [h5.get_str h5.get_attr stored_example
                                 assoc_get String.eqb Ascii.eqb Bool.eqb bind].
    now rewrite Hy. }
  split; [vm_compute in Hy; injection Hy as <-; reflexivity|].
  split; [exact Hp|]. split; [apply Hprop|exact Hndim].
Defined.

(** * Further properties of the assemblers *)

(** ** The order of the sorted coordinates *)

Section Order.

(** the order of [lexsort]: first the major key, then the minor one *)
Definition key_lt (a b : nat * nat) : Prop :=
  fst a < fst b \/ (fst a = fst b /\ snd a < snd b).

Definition key_le (a b : nat * nat) : Prop := key_lt a b \/ a = b.

Lemma key_leb_le (a b : nat * nat) : np.key_leb a b = true <-> key_le a b.
Proof.
  unfold np.key_leb, key_le, key_lt. destruct a as [a1 a2], b as [b1 b2].
  cbn [fst snd].
  rewrite orb_true_iff, andb_true_iff, Nat.ltb_lt, Nat.eqb_eq, Nat.leb_le.
  split.
  - intros [Hlt|[-> Hle]]; [now left; left|].
    destruct (Nat.eq_dec a2 b2) as [->|Hne]; [now right|].
    left. right. split; [reflexivity|lia].
  - intros [[Hlt|[-> Hlt]]|[= -> ->]]; [now left| |]; right; split; lia.
Qed.

Lemma key_leb_total (a b : nat * nat) :
  np.key_leb a b = false -> np.key_leb b a = true.
Proof.
  unfold np.key_leb. destruct a as [a1 a2], b as [b1 b2]. cbn [fst snd].
  rewrite orb_false_iff, andb_false_iff, orb_true_iff, andb_true_iff.
  rewrite !Nat.ltb_ge, !Nat.ltb_lt, !Nat.eqb_eq, Nat.eqb_neq, Nat.leb_gt,
    Nat.leb_le.
  lia.
Qed.

Lemma key_lt_trans (a b c : nat * nat) :
  key_lt a b -> key_lt b c -> key_lt a c.
Proof.
  unfold key_lt. lia.
Qed.

Lemma key_lt_irrefl (a : nat * nat) : ~ key_lt a a.
Proof.
  unfold key_lt. lia.
Qed.

Definition entry_leb (x y : (nat * nat) * nat) : Prop :=
  np.key_leb (fst x) (fst y) = true.

Lemma insert_HdRel (a x : (nat * nat) * nat) (l : list ((nat * nat) * nat)) :
  HdRel entry_leb a l -> entry_leb a x -> HdRel entry_leb a (np.insert x l).
Proof.
  intros Hl Hx. destruct l as [|y l]; cbn [np.insert].
  - now constructor.
  - destruct (np.key_leb (fst x) (fst y)); constructor.
    + exact Hx.
    + now inversion Hl.
Qed.

Lemma insert_sorted (x : (nat * nat) * nat) (l : list ((nat * nat) * nat)) :
  Sorted entry_leb l -> Sorted entry_leb (np.insert x l).
Proof.
  induction 1 as [|y l Hs IH Hhd]; cbn [np.insert].
  - repeat constructor.
  - destruct (np.key_leb (fst x) (fst y)) eqn:Hxy.
    + constructor; [now constructor|]. now constructor.
    + constructor; [exact IH|].
      apply insert_HdRel; [exact Hhd|].
      now apply key_leb_total.
Qed.

(** the sort puts the keys in order *)
Lemma sort_sorted (l : list ((nat * nat) * nat)) :
  Sorted entry_leb (np.sort l).
Proof.
  induction l as [|x l IH]; cbn [np.sort].
  - constructor.
  - now apply insert_sorted.
Qed.

End Order.

(** ** The runs of the sorted contributions are strictly ordered *)

Section MergedOrder.
Context {V : Type} `{Scalar V}.

(** the key of a contribution: its column, then its row *)
Definition tkey (e : nat * nat * V) : nat * nat := (col_of e, row_of e).

Definition triple_le (e e' : nat * nat * V) : Prop :=
  key_le (tkey e) (tkey e').

Definition triple_lt (e e' : nat * nat * V) : Prop :=
  key_lt (tkey e) (tkey e').

Lemma Sorted_map {A B : Type} (R : A -> A -> Prop) (R' : B -> B -> Prop)
  (g : A -> B) (l : list A) :
  (forall x y, R x y -> R' (g x) (g y)) ->
  Sorted R l -> Sorted R' (map g l).
Proof.
  intros Hg. induction 1 as [|x l _ IH Hhd]; cbn [map]; constructor.
  - exact IH.
  - destruct Hhd; cbn [map]; constructor. now apply Hg.
Qed.

Lemma sorted_triples_sorted (row col : list nat) (data : list V) :
  Sorted triple_le (sorted_triples row col data).
Proof.
  unfold sorted_triples, sorted_table.
  apply (Sorted_map entry_leb); [|apply sort_sorted].
  intros [[c r] p] [[c' r'] p'] Hle.
  unfold entry_leb in Hle. apply key_leb_le in Hle. exact Hle.
Qed.

Lemma HdRel_same_key (R : nat * nat -> nat * nat -> Prop)
  (a b : nat * nat * V) (l : list (nat * nat * V)) :
  tkey a = tkey b ->
  HdRel (fun e e' => R (tkey e) (tkey e')) a l ->
  HdRel (fun e e' => R (tkey e) (tkey e')) b l.
Proof.
  intros Hk Hhd. destruct Hhd; constructor. now rewrite <- Hk.
Qed.

Lemma merged_head (r0 c0 : nat) (acc : V) (K : list (nat * nat * V)) :
  exists acc' rest, merged r0 c0 acc K = (r0, c0, acc') :: rest.
Proof.
  revert acc. induction K as [|e K IH]; intros acc; cbn [merged].
  - now exists acc, [].
  - destruct (negb (row_of e =? r0) || negb (col_of e =? c0)).
    + now exists acc, (merged (row_of e) (col_of e) (val_of e) K).
    + apply IH.
Qed.

(** after the merge the keys increase strictly: column first, then row *)
Lemma merged_sorted (r0 c0 : nat) (acc : V) (K : list (nat * nat * V)) :
  Sorted triple_le ((r0, c0, acc) :: K) ->
  Sorted triple_lt (merged r0 c0 acc K).
Proof.
  revert r0 c0 acc. induction K as [|e K IH]; intros r0 c0 acc Hs.
  - repeat constructor.
  - cbn [merged].
    inversion Hs as [|? ? Hs' Hhd]; subst.
    inversion Hhd as [|? ? Hle]; subst.
    assert (He : e = (row_of e, col_of e, val_of e))
      by now destruct e as [[? ?] ?].
    destruct (negb (row_of e =? r0) || negb (col_of e =? c0)) eqn:Hd.
    + constructor.
      * apply IH. now rewrite <- He.
      * destruct (merged_head (row_of e) (col_of e) (val_of e) K)
          as (acc' & rest & ->).
        constructor. unfold triple_lt, tkey, col_of, row_of. cbn [fst snd].
        destruct Hle as [Hlt|Heq]; [exact Hlt|].
        exfalso. unfold tkey, col_of, row_of in Heq. cbn [fst snd] in Heq.
        injection Heq as Hc Hr.
        apply orb_true_iff in Hd.
        destruct Hd as [Hd|Hd]; apply negb_true_iff, Nat.eqb_neq in Hd;
          unfold row_of, col_of in Hd; congruence.
    + apply orb_false_elim in Hd. destruct Hd as [Hr Hc].
      apply negb_false_iff, Nat.eqb_eq in Hr, Hc.
      apply IH. apply Sorted_inv in Hs'. destruct Hs' as [Hs'' Hhd'].
      constructor; [exact Hs''|].
      apply (HdRel_same_key key_le e); [|exact Hhd'].
      unfold tkey. now rewrite Hr, Hc.
Qed.

Lemma triple_lt_trans : Relations_1.Transitive triple_lt.
Proof.
  intros a b c. apply key_lt_trans.
Qed.

Lemma strictly_sorted_NoDup (l : list (nat * nat * V)) :
  StronglySorted triple_lt l -> NoDup (map tkey l).
Proof.
  induction 1 as [|a l _ IH Hall]; cbn [map]; constructor.
  - intros Hin. apply in_map_iff in Hin. destruct Hin as (b & Hk & Hb).
    rewrite Forall_forall in Hall. specialize (Hall b Hb).
    unfold triple_lt in Hall. rewrite Hk in Hall.
    now apply key_lt_irrefl in Hall.
  - exact IH.
Qed.

(** the merge keeps the set of the keys *)
Lemma merged_keys (r0 c0 : nat) (acc : V) (K : list (nat * nat * V))
  (k : nat * nat) :
  In k (map tkey (merged r0 c0 acc K))
  <-> k = (c0, r0) \/ In k (map tkey K).
Proof.
  revert r0 c0 acc. induction K as [|e K IH]; intros r0 c0 acc.
  - cbn [merged map In].
    change (tkey (r0, c0, acc)) with (c0, r0). intuition congruence.
  - cbn [merged].
    destruct (negb (row_of e =? r0) || negb (col_of e =? c0)) eqn:Hd.
    + cbn [map In]. rewrite IH.
      change (tkey (r0, c0, acc)) with (c0, r0).
      change (col_of e, row_of e) with (tkey e).
      intuition congruence.
    + apply orb_false_elim in Hd. destruct Hd as [Hr Hc].
      apply negb_false_iff, Nat.eqb_eq in Hr, Hc.
      rewrite IH. cbn [map In].
      assert (Hk : tkey e = (c0, r0)) by (unfold tkey; now rewrite Hr, Hc).
      rewrite Hk. intuition congruence.
Qed.

Lemma merged_length_mask (r0 c0 : nat) (acc : V)
  (K : list (nat * nat * V)) (s : nat) :
  length (np.nonzero_from s (true :: changes r0 c0 K))
  = length (merged r0 c0 acc K).
Proof.
  revert r0 c0 acc s. induction K as [|e K IH]; intros r0 c0 acc s.
  - reflexivity.
  - cbn [changes merged np.nonzero_from] in *.
    destruct (negb (row_of e =? r0) || negb (col_of e =? c0)) eqn:Hd.
    + cbn [length]. f_equal.
      apply (IH (row_of e) (col_of e) (val_of e) (S s)).
    + apply orb_false_elim in Hd. destruct Hd as [Hr Hc].
      apply negb_false_iff, Nat.eqb_eq in Hr, Hc.
      rewrite Hr, Hc.
      specialize (IH r0 c0 (add acc (val_of e)) (S s)).
      cbn [length] in IH. rewrite <- IH. reflexivity.
Qed.

(** The coordinates that the constructor of [CSRAssembler] keeps: those of
    the merged runs of the sorted contributions, whatever the values. *)
Lemma CSRAssembler_coordinates_merged (shape : list nat)
  (dr dc : int_dtype) (row col : list nat) (a : CSRAssembler.t)
  (data : list V) :
  CSRAssembler.init shape (IntArray dr row) (IntArray dc col) = Ok a ->
  exists e0 K,
    sorted_triples row col data = e0 :: K
    /\ values (CSRAssembler.row a)
       = map row_of (merged (row_of e0) (col_of e0) (val_of e0) K)
    /\ values (CSRAssembler.col a)
       = map col_of (merged (row_of e0) (col_of e0) (val_of e0) K)
    /\ values (CSRAssembler.inds a)
       = np.nonzero_mask (true :: changes (row_of e0) (col_of e0) K).
Proof.
  intros Hinit. apply CSRAssembler_init_inv in Hinit.
  destruct Hinit as (M & N & -> & Hne & Hlen & Hrows & Hcols & Hshape
                     & Horder & Hrow2 & Hcol2 & Hinds).
  rewrite <- (map_row_sorted_triples row col data) in Hrow2, Hcol2, Hinds.
  rewrite <- (map_col_sorted_triples row col data) in Hrow2, Hcol2, Hinds.
  destruct (sorted_triples row col data) as [|e0 K] eqn:HK.
  { exfalso. apply (f_equal (@length _)) in HK.
    unfold sorted_triples in HK.
    rewrite length_map, (sorted_table_length _ _ Hlen) in HK.
    destruct row; [now apply Hne|]. simpl in *. lia. }
  exists e0, K. split; [reflexivity|].
  cbn [map] in Hrow2, Hcol2, Hinds.
  rewrite mask_changes in Hrow2, Hcol2, Hinds.
  rewrite (@compress_merged V _ _ row_of (row_of e0) (row_of e0) (col_of e0)
             (val_of e0) K) in Hrow2;
    [|now destruct e0 as [[? ?] ?]|reflexivity].
  rewrite (@compress_merged V _ _ col_of (col_of e0) (row_of e0) (col_of e0)
             (val_of e0) K) in Hcol2;
    [|now destruct e0 as [[? ?] ?]|reflexivity].
  injection Hrow2 as Hrow2. injection Hcol2 as Hcol2.
  now repeat split.
Qed.

End MergedOrder.

(** ** The canonical coordinates of an assembler *)

Section Canonical.

Lemma StronglySorted_map {A B : Type} (R : A -> A -> Prop)
  (R' : B -> B -> Prop) (g : A -> B) (l : list A) :
  (forall x y, R x y -> R' (g x) (g y)) ->
  StronglySorted R l -> StronglySorted R' (map g l).
Proof.
  intros Hg. induction 1 as [|x l _ IH Hall]; cbn [map]; constructor.
  - exact IH.
  - apply Forall_map. eapply Forall_impl; [|exact Hall].
    intros y. apply Hg.
Qed.

Lemma map_snd_combine {A B : Type} (l : list A) (l' : list B) :
  length l = length l' -> map snd (combine l l') = l'.
Proof.
  revert l'. induction l as [|a l IH]; intros [|b l'] Hlen;
    simpl in Hlen; try discriminate; [reflexivity|].
  cbn [combine map snd]. f_equal. apply IH. now injection Hlen.
Qed.

Lemma map_tkey_triples {V : Type} (row col : list nat) (data : list V) :
  length row = length col -> length data = length row ->
  map tkey (triples row col data) = combine col row.
Proof.
  unfold triples. revert col data.
  induction row as [|r row IH]; intros [|c col] [|d data] Hrow Hdata;
    simpl in Hrow, Hdata; try discriminate; [reflexivity|].
  cbn [combine map]. f_equal. apply IH; congruence.
Qed.

(** X1: The coordinate list that the constructor keeps is canonical: the
    pairs (column, row) increase strictly, no pair occurs twice, and the
    pairs are those of the input.  [order] is a permutation of the
    positions of the input, and [inds] has one offset per kept pair. *)
Theorem CSRAssembler_canonical (shape : list nat) (row col : intarray)
  (a : CSRAssembler.t) :
  CSRAssembler.init shape row col = Ok a ->
  let keys := combine (values (CSRAssembler.col a))
                      (values (CSRAssembler.row a)) in
  length (values (CSRAssembler.row a))
  = length (values (CSRAssembler.col a))
  /\ StronglySorted key_lt keys
  /\ NoDup keys
  /\ (forall c r, In (c, r) keys
                  <-> In (c, r) (combine (values col) (values row)))
  /\ Permutation (values (CSRAssembler.order a))
                 (seq 0 (length (values row)))
  /\ length (values (CSRAssembler.inds a)) = length keys.
Proof.
  destruct row as [dr row], col as [dc col]. cbn [values]. intros Hinit.
  pose proof (CSRAssembler_init_inv _ _ _ _ _ _ Hinit)
    as (M & N & _ & _ & Hlen & _ & _ & _ & Horder & _).
  destruct (CSRAssembler_coordinates_merged (V := Z) shape dr dc row col a
              (repeat 0%Z (length row)) Hinit)
    as (e0 & K & HK & Hrow & Hcol & Hinds).
  set (L := merged (row_of e0) (col_of e0) (val_of e0) K) in *.
  assert (Hkeys : combine (values (CSRAssembler.col a))
                          (values (CSRAssembler.row a)) = map tkey L).
  { rewrite Hrow, Hcol. apply combine_map. }
  cbv zeta. rewrite Hkeys, Hrow, Hcol, !length_map.
  assert (He0 : (row_of e0, col_of e0, val_of e0) = e0)
    by now destruct e0 as [[? ?] ?].
  assert (Hsorted : StronglySorted triple_lt L).
  { apply Sorted_StronglySorted; [apply triple_lt_trans|].
    apply merged_sorted. rewrite He0, <- HK.
    apply sorted_triples_sorted. }
  split; [reflexivity|]. split.
  { apply (StronglySorted_map triple_lt); [|exact Hsorted]. now intros x y. }
  split; [now apply strictly_sorted_NoDup|].
  split; [|split].
  - intros c r. unfold L. rewrite merged_keys.
    change (col_of e0, row_of e0) with (tkey e0).
    rewrite <- (map_tkey_triples row col (repeat 0%Z (length row)) Hlen)
      by apply repeat_length.
    assert (Hperm : Permutation (map tkey (e0 :: K))
                      (map tkey (triples row col
                                         (repeat 0%Z (length row))))).
    { rewrite <- HK. apply Permutation_map, sorted_triples_perm;
        [exact Hlen|apply repeat_length]. }
    split.
    + intros Hin. apply (Permutation_in _ Hperm). cbn [map In].
      destruct Hin as [->|Hin]; [now left|now right].
    + intros Hin. apply (Permutation_in _ (Permutation_sym Hperm)) in Hin.
      cbn [map In] in Hin. destruct Hin as [<-|Hin]; [now left|now right].
  - rewrite Horder. unfold sorted_table.
    eapply perm_trans; [apply Permutation_map, sort_perm|].
    rewrite map_snd_combine; [rewrite Hlen; apply Permutation_refl|].
    rewrite length_combine, length_seq. lia.
  - rewrite Hinds. unfold np.nonzero_mask.
    apply merged_length_mask.
Qed.

End Canonical.

Lemma CSRAssembler_canonical_witness :
  exists a,
    CSRAssembler.init [2; 4] (IntArray Int64 [1; 0; 0])
                      (IntArray Int64 [3; 2; 2]) = Ok a
    /\ NoDup (combine (values (CSRAssembler.col a))
                      (values (CSRAssembler.row a)))
    /\ Permutation (values (CSRAssembler.order a)) (seq 0 3).
Proof.
  eexists. split; [vm_compute; reflexivity|].
  match goal with
  | |- NoDup (combine (values (CSRAssembler.col ?a)) _) /\ _ =>
      assert (Hinit : CSRAssembler.init [2; 4] (IntArray Int64 [1; 0; 0])
                        (IntArray Int64 [3; 2; 2]) = Ok a)
        by (vm_compute; reflexivity);
      destruct (CSRAssembler_canonical _ _ _ _ Hinit)
        as (_ & _ & Hnodup & _ & Hperm & _)
  end.
  split; [exact Hnodup|exact Hperm].
Defined.

(** ** The assembled matrix is a canonical CSR matrix *)

(** A CSR matrix in canonical format: the row offsets start at zero, do
    not decrease and end at the number of stored entries; the column
    indices lie inside the shape; within a row they increase strictly
    (sorted, no duplicate). *)
Definition csr_canonical {V : Type} (m : csr_matrix V) : Prop :=
  let M := fst (csr_shape m) in
  let N := snd (csr_shape m) in
  length (csr_indptr m) = S M
  /\ nth 0 (csr_indptr m) 0 = 0
  /\ (forall r, r < M ->
        nth r (csr_indptr m) 0 <= nth (S r) (csr_indptr m) 0)
  /\ nth M (csr_indptr m) 0 = length (csr_data m)
  /\ length (csr_indices m) = length (csr_data m)
  /\ Forall (fun c => c < N) (csr_indices m)
  /\ (forall r, r < M ->
        StronglySorted lt
          (firstn (nth (S r) (csr_indptr m) 0 - nth r (csr_indptr m) 0)
                  (skipn (nth r (csr_indptr m) 0) (csr_indices m)))).

Section CanonicalCsr.
Context {V : Type} `{Scalar V}.

Lemma below_0 {B : Type} (coo : list (nat * B)) : below coo 0 = [].
Proof.
  unfold below. induction coo as [|e l IH]; [reflexivity|exact IH].
Qed.

Lemma below_all {B : Type} (coo : list (nat * B)) (M : nat) :
  Forall (fun e => fst e < M) coo -> below coo M = coo.
Proof.
  unfold below. induction 1 as [|e l He _ IH]; [reflexivity|].
  cbn [filter]. apply Nat.ltb_lt in He. rewrite He. now rewrite IH.
Qed.

Lemma sorted_columns_of_row (L : list (nat * nat * V)) (r : nat) :
  StronglySorted triple_lt L ->
  StronglySorted lt (map col_of (filter (fun e => row_of e =? r) L)).
Proof.
  induction 1 as [|e L _ IH Hall]; [constructor|].
  cbn [filter]. destruct (Nat.eqb_spec (row_of e) r) as [Hr|Hr];
    [|exact IH].
  cbn [map]. constructor; [exact IH|].
  apply Forall_map, Forall_forall. intros e' Hin.
  apply filter_In in Hin. destruct Hin as [Hin Hr'].
  apply Nat.eqb_eq in Hr'.
  rewrite Forall_forall in Hall. specialize (Hall e' Hin).
  unfold triple_lt, key_lt, tkey in Hall. cbn [fst snd] in Hall. lia.
Qed.

Lemma csr_of_triples_canonical (M N : nat) (L : list (nat * nat * V)) :
  Forall (fun e => row_of e < M) L ->
  Forall (fun e => col_of e < N) L ->
  StronglySorted triple_lt L ->
  csr_canonical (csr_of_triples M N L).
Proof.
  intros Hrows Hcols Hsorted.
  assert (Hrow_entries := row_entries_csr_of_triples M N L).
  unfold sptools.row_entries in Hrow_entries.
  unfold csr_canonical, csr_of_triples, sptools.coo_tocsr in *.
  cbn [csr_shape csr_indptr csr_indices csr_data fst snd] in *.
  rewrite (combine_map col_of val_of L) in *.
  rewrite (combine_map row_of (fun e => (col_of e, val_of e)) L) in *.
  set (coo := map (fun a => (row_of a, (col_of a, val_of a))) L) in *.
  change (fun i => length (filter (fun e => fst e <? i) coo))
    with (fun i => length (below coo i)) in *.
  change (fun r0 => filter (fun e => fst e =? r0) coo) with (bucket coo)
    in *.
  assert (Hcoo : Forall (fun e => fst e < M) coo).
  { unfold coo. apply Forall_map. exact Hrows. }
  assert (Hflat : length (flat_map (bucket coo) (seq 0 M)) = length coo).
  { now rewrite flat_map_bucket_length, below_all. }
  split; [now rewrite length_map, length_seq|].
  split; [rewrite nth_map_seq by lia; now rewrite below_0|].
  split.
  { intros r Hr. rewrite !nth_map_seq by lia.
    rewrite below_S_length. lia. }
  split.
  { rewrite nth_map_seq by lia. rewrite below_all by exact Hcoo.
    now rewrite length_map, Hflat. }
  split; [now rewrite !length_map|].
  split.
  { apply Forall_map, Forall_forall. intros e Hin.
    apply in_flat_map in Hin. destruct Hin as (r & _ & Hin).
    unfold bucket in Hin. apply filter_In in Hin. destruct Hin as [Hin _].
    unfold coo in Hin. apply in_map_iff in Hin.
    destruct Hin as (e' & <- & Hin'). cbn [fst snd].
    rewrite Forall_forall in Hcols. now apply Hcols. }
  intros r Hr.
  specialize (Hrow_entries r Hr).
  rewrite combine_map in Hrow_entries.
  apply (f_equal (map fst)) in Hrow_entries.
  rewrite !map_map in Hrow_entries. cbn [fst] in Hrow_entries.
  rewrite <- firstn_map, <- skipn_map, !map_map in Hrow_entries.
  cbn [fst] in Hrow_entries.
  rewrite Hrow_entries.
  now apply sorted_columns_of_row.
Qed.

(** X2: The matrix that [CSRAssembler.__call__] returns on a data array of
    the length of the pattern is in canonical CSR format, of the shape of
    the assembler. *)
Theorem CSRAssembler_call_canonical (shape : list nat) (row col : intarray)
  (a : CSRAssembler.t) (data : list V) :
  CSRAssembler.init shape row col = Ok a ->
  length data = length (values row) ->
  exists M N m,
    shape = [M; N]
    /\ CSRAssembler.call a data = Ok m
    /\ csr_shape m = (M, N)
    /\ csr_canonical m.
Proof.
  destruct row as [dr row], col as [dc col]. cbn [values].
  intros Hinit Hdata.
  destruct (CSRAssembler_call_merged shape dr dc row col a data Hinit Hdata)
    as (M & N & e0 & K & -> & Hrows & Hcols & Hlen & HK & Hcall).
  exists M, N. eexists. split; [reflexivity|]. split; [exact Hcall|].
  assert (He0 : (row_of e0, col_of e0, val_of e0) = e0)
    by now destruct e0 as [[? ?] ?].
  assert (HrowsK : Forall (fun e => row_of e < M) (e0 :: K)).
  { rewrite <- HK. unfold sorted_triples. apply Forall_map.
    eapply Forall_impl; [|apply (sorted_table_positions _ _ Hlen)].
    intros e (_ & _ & Hr). unfold row_of. cbn [fst snd].
    apply nth_error_In in Hr. rewrite Forall_forall in Hrows.
    now apply Hrows. }
  assert (HcolsK : Forall (fun e => col_of e < N) (e0 :: K)).
  { rewrite <- HK.
    exact (sorted_triples_cols (fun c => c < N) row col data Hlen Hcols). }
  split.
  - unfold csr_of_triples.
    destruct (sptools.coo_tocsr M N _ _ _) as [[? ?] ?]. reflexivity.
  - apply csr_of_triples_canonical.
    + inversion HrowsK; subst.
      now apply (merged_Forall (fun r _ => r < M)).
    + inversion HcolsK; subst.
      now apply (merged_Forall (fun _ c => c < N)).
    + apply Sorted_StronglySorted; [apply triple_lt_trans|].
      apply merged_sorted. rewrite He0, <- HK.
      apply sorted_triples_sorted.
Qed.

End CanonicalCsr.

Lemma CSRAssembler_call_canonical_witness :
  exists M N m,
    [2; 4] = [M; N]
    /\ (a <- CSRAssembler.init [2; 4] (IntArray Int64 [1; 0; 0])
                               (IntArray Int64 [3; 2; 2]) ;;
        CSRAssembler.call a [5; 1; 2]%Z) = Ok m
    /\ csr_canonical m.
Proof.
  assert (Hinit : CSRAssembler.init [2; 4] (IntArray Int64 [1; 0; 0])
                    (IntArray Int64 [3; 2; 2])
                  = Ok {| CSRAssembler.row := IntArray Int64 [0; 1];
                          CSRAssembler.col := IntArray Int64 [2; 3];
                          CSRAssembler.order := IntArray Int64 [1; 2; 0];
                          CSRAssembler.inds := IntArray Int64 [0; 2];
                          CSRAssembler.shape := [2; 4] |})
    by (vm_compute; reflexivity).
  destruct (CSRAssembler_call_canonical (V := Z) _ _ _ _ [5; 1; 2]%Z Hinit
              eq_refl)
    as (M & N & m & Hs & Hcall & _ & Hcan).
  exists M, N, m. rewrite Hinit. cbn [bind].
  split; [exact Hs|]. split; [exact Hcall|exact Hcan].
Defined.

(** ** What the vector assembler computes *)

Section VectorTotal.
Context {V : Type} `{ScalarLaws V}.

Lemma nth_update (B : list V) (k r : nat) (v : V) :
  k < length B ->
  nth r (firstn k B ++ v :: skipn (S k) B) zero
  = if r =? k then v else nth r B zero.
Proof.
  revert k r. induction B as [|b B IH]; intros k r Hk; simpl in Hk;
    [lia|].
  destruct k as [|k], r as [|r]; try reflexivity.
  cbn [firstn skipn app nth Nat.eqb]. apply IH. lia.
Qed.

Lemma assoc_get_not_in (r : nat) (rows : list nat) (vals : list V) :
  ~ In r rows -> assoc_get Nat.eqb r (combine rows vals) = None.
Proof.
  revert vals. induction rows as [|k rows IH]; intros [|v vals] Hin;
    try reflexivity.
  cbn [combine assoc_get].
  destruct (Nat.eqb_spec r k) as [->|Hne].
  - exfalso. apply Hin. now left.
  - apply IH. intros Hin'. apply Hin. now right.
Qed.

(** a scatter through distinct positions: every position holds the value
    written to it, or what it held before *)
Lemma put_nth (rows : list nat) (vals B out : list V) (r : nat) :
  NoDup rows ->
  np.put B rows vals = Ok out ->
  nth r out zero
  = match assoc_get Nat.eqb r (combine rows vals) with
    | Some v => v
    | None => nth r B zero
    end.
Proof.
  intros Hnd. revert vals B.
  induction Hnd as [|k rows Hk _ IH]; intros [|v vals] B Hput;
    cbn [np.put] in Hput; try discriminate.
  - now injection Hput as <-.
  - destruct (Nat.ltb_spec k (length B)) as [Hlt|]; [|discriminate].
    rewrite (IH _ _ Hput). cbn [combine assoc_get].
    destruct (Nat.eqb_spec r k) as [->|Hne].
    + rewrite (assoc_get_not_in k rows vals Hk).
      rewrite nth_update by exact Hlt. now rewrite Nat.eqb_refl.
    + destruct (assoc_get Nat.eqb r (combine rows vals)); [reflexivity|].
      rewrite nth_update by exact Hlt.
      apply Nat.eqb_neq in Hne. now rewrite Hne.
Qed.

(** with distinct columns in row 0, the total of a column is the one
    value stored for it *)
Lemma total_distinct (L : list (nat * nat * V)) (r : nat) :
  Forall (fun e => row_of e = 0) L ->
  NoDup (map col_of L) ->
  spec.total L 0 r
  = match assoc_get Nat.eqb r (combine (map col_of L) (map val_of L)) with
    | Some v => v
    | None => zero
    end.
Proof.
  induction 1 as [|e L He _ IH]; intros Hnd; [reflexivity|].
  cbn [map] in Hnd. inversion Hnd as [|? ? Hnotin Hnd']; subst.
  rewrite total_cons, He, (IH Hnd'). cbn [map combine assoc_get Nat.eqb andb].
  rewrite (Nat.eqb_sym (col_of e) r).
  destruct (Nat.eqb_spec r (col_of e)) as [->|Hne]; [|reflexivity].
  rewrite (assoc_get_not_in _ _ _ Hnotin). apply add_zero_r.
Qed.

Lemma total_vector (inds : list nat) (data : list V) (r : nat) :
  length data = length inds ->
  spec.total (triples (repeat 0 (length inds)) inds data) 0 r
  = spec.Sum (map snd (filter (fun e => fst e =? r) (combine inds data))).
Proof.
  unfold triples. revert data.
  induction inds as [|i inds IH]; intros [|d data] Hlen;
    simpl in Hlen; try discriminate; [reflexivity|].
  cbn [length repeat combine].
  rewrite (total_cons (0, i, d)). cbn [row_of col_of val_of fst snd Nat.eqb andb filter].
  rewrite IH by congruence.
  destruct (i =? r); reflexivity.
Qed.

(** What a successful run of [VectorAssembler] went through. *)
Lemma VectorAssembler_call_merged (shape : list nat) (inds : intarray)
  (a : VectorAssembler.t) (data : list V) :
  VectorAssembler.init shape inds = Ok a ->
  length data = length (values inds) ->
  exists s0 e0 K,
    shape = [s0]
    /\ sorted_triples (repeat 0 (length (values inds))) (values inds) data
       = e0 :: K
    /\ Forall (fun e => row_of e = 0) (e0 :: K)
    /\ Forall (fun e => col_of e < s0) (e0 :: K)
    /\ values (VectorAssembler.row a)
       = map col_of (merged 0 (col_of e0) (val_of e0) K)
    /\ VectorAssembler.call a data
       = np.put (repeat zero s0)
           (map col_of (merged 0 (col_of e0) (val_of e0) K))
           (map val_of (merged 0 (col_of e0) (val_of e0) K)).
Proof.
  unfold VectorAssembler.init. intros Hinit Hdata.
  bind_inv Hinit. apply py_assert_Ok, Nat.eqb_eq in E.
  destruct shape as [|s0 [|? ?]]; try discriminate E.
  bind_inv Hinit. rename a1 into mi, E0 into Hmi.
  simpl in Hinit.
  bind_inv Hinit. apply py_assert_Ok, Nat.ltb_lt in E0.
  destruct (np_max_lt _ _ _ Hmi E0) as [Hne Hbound].
  rewrite lexsort1_sorted_table in Hinit.
  assert (Hlen : length (repeat 0 (length (values inds)))
                 = length (values inds)) by apply repeat_length.
  rewrite (take_col_sorted _ _ Hlen) in Hinit. cbn [bind] in Hinit.
  rewrite <- (map_col_sorted_triples _ _ data) in Hinit.
  pose proof (sorted_triples_rows_zero (values inds) data) as Hzero.
  pose proof (sorted_triples_cols (fun c => c < s0) _ _ data Hlen Hbound)
    as Hcols.
  destruct (sorted_triples (repeat 0 (length (values inds))) (values inds)
              data) as [|e0 K] eqn:HK.
  { exfalso. apply (f_equal (@length _)) in HK.
    unfold sorted_triples in HK.
    rewrite length_map, (sorted_table_length _ _ Hlen) in HK.
    destruct (values inds); [now apply Hne|]. simpl in HK. lia. }
  inversion Hzero as [|? ? Hz0 HzK]; subst.
  cbn [map] in Hinit. rewrite (mask_changes1 _ _ HzK) in Hinit.
  rewrite (@compress_merged V _ _ col_of (col_of e0) 0 (col_of e0)
             (val_of e0) K) in Hinit;
    [|destruct e0 as [[? ?] ?]; reflexivity|reflexivity].
  cbn [bind] in Hinit. injection Hinit as <-.
  exists s0, e0, K.
  split; [reflexivity|]. split; [reflexivity|].
  split; [exact Hzero|]. split; [exact Hcols|]. split; [reflexivity|].
  unfold VectorAssembler.call.
  cbn [VectorAssembler.order VectorAssembler.inds VectorAssembler.shape
       VectorAssembler.row values].
  rewrite (take_data_sorted _ _ _ Hlen) by now rewrite repeat_length.
  rewrite HK. cbn [map bind].
  rewrite add_reduceat_mask by now rewrite changes_length, length_map.
  cbn [bind]. now rewrite run_sums_merged.
Qed.

Lemma VectorAssembler_call_sums (shape : list nat) (inds : intarray)
  (a : VectorAssembler.t) (data : list V) :
  VectorAssembler.init shape inds = Ok a ->
  length data = length (values inds) ->
  exists s0 out,
    shape = [s0]
    /\ VectorAssembler.call a data = Ok out
    /\ length out = s0
    /\ forall r, r < s0 ->
         nth r out zero
         = spec.Sum (map snd (filter (fun e => fst e =? r)
                                     (combine (values inds) data))).
Proof.
  intros Hinit Hdata.
  destruct (VectorAssembler_call_merged shape inds a data Hinit Hdata)
    as (s0 & e0 & K & -> & HK & Hzero & Hcols & _ & Hcall).
  set (L := merged 0 (col_of e0) (val_of e0) K) in *.
  inversion Hzero as [|? ? Hz0 HzK]; subst.
  inversion Hcols as [|? ? Hc0 HcK]; subst.
  assert (He0 : (0, col_of e0, val_of e0) = e0)
    by (destruct e0 as [[r0 c0] v0]; unfold row_of in Hz0;
        cbn [fst] in Hz0; now subst r0).
  assert (Hsorted : StronglySorted triple_lt L).
  { apply Sorted_StronglySorted; [apply triple_lt_trans|].
    apply merged_sorted. rewrite He0, <- HK.
    apply sorted_triples_sorted. }
  assert (HzL : Forall (fun e => row_of e = 0) L)
    by now apply (merged_Forall (fun r _ => r = 0)).
  assert (Hnd : NoDup (map col_of L)).
  { apply strictly_sorted_NoDup in Hsorted.
    replace (map col_of L) with (map fst (map tkey L))
      by (rewrite map_map; reflexivity).
    apply Finite.Injective_map_NoDup_in; [|exact Hsorted].
    intros k k' Hk Hk' Heq.
    apply in_map_iff in Hk, Hk'.
    destruct Hk as (e & <- & He), Hk' as (e' & <- & He').
    rewrite Forall_forall in HzL.
    unfold tkey in *. cbn [fst] in Heq.
    now rewrite Heq, (HzL e He), (HzL e' He'). }
  destruct (put_bounded (repeat zero s0) (map col_of L) (map val_of L))
    as (out & Hout & Hlenout).
  { apply Forall_map. rewrite repeat_length.
    now apply (merged_Forall (fun _ c => c < s0)). }
  { now rewrite !length_map. }
  exists s0, out. rewrite repeat_length in Hlenout.
  split; [reflexivity|]. split; [now rewrite Hcall|].
  split; [exact Hlenout|].
  intros r Hr.
  rewrite (put_nth _ _ _ _ r Hnd Hout), nth_repeat_zero.
  rewrite <- (total_distinct L r HzL Hnd).
  unfold L. rewrite total_merged, He0, <- HK.
  rewrite (total_perm _ _ 0 r
             (sorted_triples_perm _ _ data (repeat_length 0 _)
                (eq_trans Hdata (eq_sym (repeat_length 0 _))))).
  now apply total_vector.
Qed.

(** X3: The assembled vector holds, at every position, the sum of the values
    of the raw entries with that coordinate (zero where there is none),
    whatever their order. *)
Theorem VectorAssembler_call_total (shape : list nat) (inds : intarray)
  (a : VectorAssembler.t) (data : list V) :
  VectorAssembler.init shape inds = Ok a ->
  length data = length (values inds) ->
  exists s0 out,
    shape = [s0]
    /\ VectorAssembler.call a data = Ok out
    /\ length out = s0
    /\ forall r, r < s0 ->
         nth r out zero
         = spec.Sum (map snd (filter (fun e => fst e =? r)
                                     (combine (values inds) data))).
Proof.
  exact (VectorAssembler_call_sums shape inds a data).
Qed.

End VectorTotal.

Lemma VectorAssembler_call_total_witness :
  exists out,
    (a <- VectorAssembler.init [3] (IntArray Int64 [2; 0; 2]) ;;
     VectorAssembler.call a [1; 5; 10]%Z) = Ok out
    /\ nth 2 out 0%Z = 11%Z.
Proof.
  assert (Hinit : VectorAssembler.init [3] (IntArray Int64 [2; 0; 2])
                  = Ok {| VectorAssembler.row := IntArray Int64 [0; 2];
                          VectorAssembler.order := IntArray Int64 [1; 0; 2];
                          VectorAssembler.inds := IntArray Int64 [0; 1];
                          VectorAssembler.shape := [3] |})
    by (vm_compute; reflexivity).
  destruct (VectorAssembler_call_total (V := Z) _ _ _ [1; 5; 10]%Z Hinit
              eq_refl)
    as (s0 & out & Hs & Hcall & _ & Hentry).
  injection Hs as <-.
  exists out. rewrite Hinit. cbn [bind]. split; [exact Hcall|].
  change 0%Z with (@zero Z _). rewrite (Hentry 2) by lia. reflexivity.
Defined.

(** * Further properties of the persistence code *)

(** ** Association lists *)

Section AssocFacts.
Context {K A : Type} (eqb : K -> K -> bool).
Hypothesis eqb_spec : forall x y, reflect (x = y) (eqb x y).

Lemma assoc_get_set_same (k : K) (a : A) (l : list (K * A)) :
  assoc_get eqb k (assoc_set eqb k a l) = Some a.
Proof.
  induction l as [|[k' a'] l IH]; cbn [assoc_set assoc_get].
  - now destruct (eqb_spec k k).
  - destruct (eqb_spec k k') as [->|Hne]; cbn [assoc_get].
    + now destruct (eqb_spec k' k').
    + now destruct (eqb_spec k k').
Qed.

Lemma assoc_get_set_other (k k' : K) (a : A) (l : list (K * A)) :
  k <> k' -> assoc_get eqb k (assoc_set eqb k' a l) = assoc_get eqb k l.
Proof.
  intros Hne. induction l as [|[k0 a0] l IH]; cbn [assoc_set assoc_get].
  - now destruct (eqb_spec k k').
  - destruct (eqb_spec k' k0) as [->|Hne']; cbn [assoc_get].
    + destruct (eqb_spec k k0); [contradiction|].
      now destruct (eqb_spec k k0).
    + destruct (eqb_spec k k0); [reflexivity|exact IH].
Qed.

Lemma assoc_set_fresh (k : K) (a : A) (l : list (K * A)) :
  assoc_get eqb k l = None -> assoc_set eqb k a l = l ++ [(k, a)].
Proof.
  induction l as [|[k' a'] l IH]; cbn [assoc_set assoc_get app];
    [reflexivity|].
  destruct (eqb k k'); [discriminate|].
  intros Hl. now rewrite (IH Hl).
Qed.

Lemma assoc_get_app (k : K) (l l' : list (K * A)) :
  assoc_get eqb k (l ++ l')
  = match assoc_get eqb k l with
    | Some a => Some a
    | None => assoc_get eqb k l'
    end.
Proof.
  induction l as [|[k' a'] l IH]; cbn [assoc_get app]; [reflexivity|].
  now destruct (eqb k k').
Qed.

Lemma assoc_get_None_not_in (k : K) (l : list (K * A)) :
  ~ In k (map fst l) -> assoc_get eqb k l = None.
Proof.
  induction l as [|[k' a'] l IH]; cbn [assoc_get map fst]; [reflexivity|].
  intros Hin. destruct (eqb_spec k k') as [->|Hne].
  - exfalso. apply Hin. now left.
  - apply IH. intros Hin'. apply Hin. now right.
Qed.

End AssocFacts.

(** ** The thin wrappers *)

Section WrapperStore.
Context {V : Type} `{Scalar V}.

Definition prop_member (kv : string * propval) : string * h5.node V :=
  (fst kv, h5.Dataset (h5.PropData (snd kv))).

Lemma write_props_loop_fresh (d : props) (attrs : list (string * h5.attr))
  (m : list (string * h5.node V)) :
  NoDup (map fst d) ->
  (forall k, In k (map fst d) -> ~ In k (map fst m)) ->
  write_props_loop d (h5.Group attrs m)
  = Ok (h5.Group attrs (m ++ map prop_member d)).
Proof.
  revert m. induction d as [|[k v] d IH]; intros m Hnd Hfresh;
    cbn [write_props_loop map].
  - now rewrite app_nil_r.
  - cbn [map fst] in Hnd. inversion Hnd as [|? ? Hk Hnd']; subst.
    unfold h5.to_dataset, h5.set_member. cbn [bind].
    rewrite (assoc_set_fresh String.eqb).
    2:{ apply (assoc_get_None_not_in String.eqb String.eqb_spec).
        apply Hfresh. now left. }
    rewrite IH; [|exact Hnd'|].
    + now rewrite <- app_assoc.
    + intros k' Hk'. rewrite map_app, in_app_iff. cbn [map fst In].
      intros [Hin|[->|[]]].
      * apply (Hfresh k'); [now right|exact Hin].
      * contradiction.
Qed.

Lemma read_props_loop_fresh (d acc : props) :
  NoDup (map fst d) ->
  (forall k, In k (map fst d) -> ~ In k (map fst acc)) ->
  read_props_loop (map prop_member d) acc = Ok (acc ++ d).
Proof.
  revert acc. induction d as [|[k v] d IH]; intros acc Hnd Hfresh;
    cbn [read_props_loop map prop_member fst snd].
  - now rewrite app_nil_r.
  - cbn [map fst] in Hnd. inversion Hnd as [|? ? Hk Hnd']; subst.
    cbn [h5.from_dataset bind].
    rewrite (assoc_set_fresh String.eqb).
    2:{ apply (assoc_get_None_not_in String.eqb String.eqb_spec).
        apply Hfresh. now left. }
    rewrite IH; [|exact Hnd'|].
    + now rewrite <- app_assoc.
    + intros k' Hk'. rewrite map_app, in_app_iff. cbn [map fst In].
      intros [Hin|[->|[]]].
      * apply (Hfresh k'); [now right|exact Hin].
      * contradiction.
Qed.

(** what [ThinWrapperIntegrand.write] leaves under a fresh name *)
Lemma ThinWrapperIntegrand_write_fresh (cls : string) (obj : h5.dataset V)
  (d : props) (attrs : list (string * h5.attr))
  (members : list (string * h5.node V)) (name : string) :
  NoDup (map fst d) ->
  assoc_get String.eqb name members = None ->
  ThinWrapperIntegrand_write cls obj (Some d) (h5.Group attrs members) name
  = Ok (h5.Group attrs
          (members ++
             [(name,
               h5.Group [("type", h5.StrAttr cls)]
                 [("data", h5.Dataset obj);
                  ("properties", h5.Group [] (map prop_member d))])])).
Proof.
  intros Hnd Hfresh.
  unfold ThinWrapperIntegrand_write, h5.require_group at 1.
  rewrite Hfresh. cbn [bind h5.empty_group h5.to_dataset h5.set_member
                       assoc_set h5.set_attr].
  unfold write_props. cbn [h5.require_group assoc_get String.eqb Ascii.eqb
                           Bool.eqb bind h5.empty_group].
  unfold h5.empty_group.
  rewrite write_props_loop_fresh; [|exact Hnd|intros k _ []].
  cbn [bind app h5.set_member assoc_set String.eqb Ascii.eqb Bool.eqb].
  now rewrite (assoc_set_fresh String.eqb _ _ _ Hfresh).
Qed.

(** X6: A dense or sparse-matrix wrapper written under a name that the group
    does not hold yet is read back as the same object, its wrapped value
    and its metadata properties included. *)
Theorem thin_wrapper_roundtrip (d : props)
  (attrs : list (string * h5.attr)) (members : list (string * h5.node V))
  (name : string) :
  NoDup (map fst d) ->
  assoc_get String.eqb name members = None ->
  (forall a : ndarray V,
      let x := {| np_properties := Some d; np_obj := a |} in
      exists g sub,
        NumpyArrayIntegrand_write x (h5.Group attrs members) name = Ok g
        /\ h5.get_member g name = Ok sub
        /\ Integrand_read sub = Ok (Numpy x))
  /\ (forall m : csr_matrix V,
         let x := {| sp_properties := Some d; sp_obj := m |} in
         exists g sub,
           ScipyArrayIntegrand_write x (h5.Group attrs members) name = Ok g
           /\ h5.get_member g name = Ok sub
           /\ Integrand_read sub = Ok (Scipy x)).
Proof.
  intros Hnd Hfresh.
  assert (Hread : read_props_loop (map prop_member d) [] = Ok d)
    by (rewrite read_props_loop_fresh; [reflexivity|exact Hnd|
        intros k _ []]).
  split; intros obj x; subst x;
    unfold NumpyArrayIntegrand_write, ScipyArrayIntegrand_write;
    cbn [np_properties np_obj sp_properties sp_obj];
    rewrite (ThinWrapperIntegrand_write_fresh _ _ _ _ _ _ Hnd Hfresh);
    do 2 eexists; (split; [reflexivity|]); split.
  - unfold h5.get_member.
    rewrite (assoc_get_app String.eqb), Hfresh. cbn [assoc_get].
    now rewrite String.eqb_refl.
  - unfold Integrand_read, ThinWrapperIntegrand_read, read_props.
    cbn [h5.get_str h5.get_attr assoc_get String.eqb Ascii.eqb Bool.eqb
         bind orb h5.get_member h5.from_dataset h5.items].
    rewrite Hread. reflexivity.
  - unfold h5.get_member.
    rewrite (assoc_get_app String.eqb), Hfresh. cbn [assoc_get].
    now rewrite String.eqb_refl.
  - unfold Integrand_read, ThinWrapperIntegrand_read, read_props.
    cbn [h5.get_str h5.get_attr assoc_get String.eqb Ascii.eqb Bool.eqb
         bind orb h5.get_member h5.from_dataset h5.items].
    rewrite Hread. reflexivity.
Qed.

End WrapperStore.

Lemma thin_wrapper_roundtrip_witness :
  exists g sub,
    NumpyArrayIntegrand_write
      {| np_properties := Some [("tag", PropInt 7); ("unit", PropStr "m")];
         np_obj := nd.of_vector [3; 4]%Z |}
      (h5.Group [] [("other", h5.empty_group)]) "op" = Ok g
    /\ h5.get_member g "op" = Ok sub
    /\ Integrand_read sub
       = Ok (Numpy {| np_properties :=
                        Some [("tag", PropInt 7); ("unit", PropStr "m")];
                      np_obj := nd.of_vector [3; 4]%Z |}).
Proof.
  assert (Hnd : NoDup (map fst [("tag", PropInt 7); ("unit", PropStr "m")])).
  { repeat constructor; cbn; intuition discriminate. }
  exact (proj1 (thin_wrapper_roundtrip (V := Z) _ []
                  [("other", h5.empty_group)] "op" Hnd eq_refl)
               (nd.of_vector [3; 4]%Z)).
Defined.

(** * Further properties of the assemblers: the length of the data *)

Section CallLength.
Context {V : Type} `{Scalar V}.

Lemma take_raise {A : Type} (arr : list A) (idx : list nat) (i : nat) :
  In i idx -> length arr <= i -> np.take arr idx = Raise IndexError.
Proof.
  intros Hin Hlen. induction idx as [|j idx IH]; [contradiction|].
  cbn [np.take]. unfold np.item at 1.
  destruct (nth_error arr j) as [a|] eqn:Hj; [|reflexivity].
  cbn [bind]. destruct Hin as [->|Hin].
  - apply nth_error_None in Hlen. congruence.
  - now rewrite (IH Hin).
Qed.

Lemma take_firstn {A : Type} (arr : list A) (idx : list nat) (n : nat) :
  Forall (fun i => i < n) idx ->
  np.take (firstn n arr) idx = np.take arr idx.
Proof.
  induction 1 as [|i idx Hi _ IH]; [reflexivity|].
  cbn [np.take]. unfold np.item. rewrite nth_error_firstn.
  apply Nat.ltb_lt in Hi. now rewrite Hi, IH.
Qed.

Lemma sorted_table_order (row col : list nat) :
  length row = length col ->
  Permutation (map snd (sorted_table row col)) (seq 0 (length col)).
Proof.
  intros Hlen. unfold sorted_table.
  transitivity (map snd (combine (combine col row) (seq 0 (length col)))).
  - apply Permutation_map, sort_perm.
  - rewrite map_snd_combine; [reflexivity|].
    rewrite length_seq, length_combine. lia.
Qed.

Lemma order_raise (order : list nat) (n : nat) (data : list V) :
  Permutation order (seq 0 n) -> length data < n ->
  np.take data order = Raise IndexError.
Proof.
  intros Hperm Hlen. apply (take_raise data order (n - 1)); [|lia].
  apply (Permutation_in _ (Permutation_sym Hperm)), in_seq. lia.
Qed.

Lemma order_firstn (order : list nat) (n : nat) (data : list V) :
  Permutation order (seq 0 n) ->
  np.take (firstn n data) order = np.take data order.
Proof.
  intros Hperm. apply take_firstn, Forall_forall. intros i Hi.
  apply (Permutation_in _ Hperm), in_seq in Hi. lia.
Qed.

(** X7: An assembler reads the data through the permutation that it stored.
    Data shorter than the coordinate arrays it was built from raise
    [IndexError]; of longer data the entries past that length are never
    read. *)
Theorem assembler_call_length :
  (forall (shape : list nat) (row col : intarray) (a : CSRAssembler.t)
          (data : list V),
      CSRAssembler.init shape row col = Ok a ->
      (length data < length (values row) ->
       CSRAssembler.call a data = Raise IndexError)
      /\ CSRAssembler.call a (firstn (length (values row)) data)
         = CSRAssembler.call a data)
  /\ (forall (shape : list nat) (inds : intarray) (a : VectorAssembler.t)
             (data : list V),
         VectorAssembler.init shape inds = Ok a ->
         (length data < length (values inds) ->
          VectorAssembler.call a data = Raise IndexError)
         /\ VectorAssembler.call a (firstn (length (values inds)) data)
            = VectorAssembler.call a data).
Proof.
  split.
  - intros shape [dr row] [dc col] a data Hinit.
    destruct (CSRAssembler_init_inv _ _ _ _ _ _ Hinit)
      as (M & N & _ & _ & Hlen & _ & _ & _ & Horder & _).
    pose proof (sorted_table_order row col Hlen) as Hperm.
    rewrite <- Horder, <- Hlen in Hperm.
    cbn [values]. unfold CSRAssembler.call. split.
    + intros Hshort. now rewrite (order_raise _ _ _ Hperm Hshort).
    + now rewrite (order_firstn _ _ _ Hperm).
  - intros shape inds a data Hinit.
    assert (Horder : values (VectorAssembler.order a)
                     = np.lexsort1 (values inds)).
    { unfold VectorAssembler.init in Hinit. binds_inv Hinit.
      now injection Hinit as <-. }
    assert (Hperm : Permutation (values (VectorAssembler.order a))
                                (seq 0 (length (values inds)))).
    { rewrite Horder, lexsort1_sorted_table.
      apply sorted_table_order, repeat_length. }
    unfold VectorAssembler.call. split.
    + intros Hshort. now rewrite (order_raise _ _ _ Hperm Hshort).
    + now rewrite (order_firstn _ _ _ Hperm).
Qed.

End CallLength.

Lemma assembler_call_length_witness :
  exists a,
    CSRAssembler.init [2; 4] (IntArray Int64 [0; 0; 1])
                      (IntArray Int64 [2; 2; 3]) = Ok a
    /\ CSRAssembler.call a [1; 2]%Z = Raise IndexError
    /\ CSRAssembler.call a [1; 2; 5]%Z = CSRAssembler.call a [1; 2; 5; 9]%Z.
Proof.
  destruct (CSRAssembler.init [2; 4] (IntArray Int64 [0; 0; 1])
              (IntArray Int64 [2; 2; 3])) as [a|e] eqn:Ha;
    [|vm_compute in Ha; discriminate].
  exists a. split; [reflexivity|].
  destruct (proj1 (assembler_call_length (V := Z)) _ _ _ a [1; 2]%Z Ha)
    as [Hshort _].
  destruct (proj1 (assembler_call_length (V := Z)) _ _ _ a [1; 2; 5; 9]%Z Ha)
    as [_ Hlong].
  split; [apply Hshort; cbn; lia|exact Hlong].
Defined.

(** * Further properties of the integrand classes *)

(** ** Metadata properties *)

Lemma prop_defaults_get (kwargs d : props) :
  exists d',
    prop_defaults (Some d) kwargs = Ok (Some d')
    /\ forall k,
         assoc_get String.eqb k d'
         = match assoc_get String.eqb k d with
           | Some v => Some v
           | None => assoc_get String.eqb k kwargs
           end.
Proof.
  revert d. induction kwargs as [|[key val] rest IH]; intros d.
  - exists d. split; [reflexivity|]. intros k.
    now destruct (assoc_get String.eqb k d).
  - cbn [prop_defaults bind].
    destruct (IH (if in_dict key d then d
                  else assoc_set String.eqb key val d)) as (d' & Hd' & Hget).
    exists d'. split; [exact Hd'|].
    intros k. rewrite Hget. cbn [assoc_get].
    unfold in_dict.
    destruct (assoc_get String.eqb key d) as [v|] eqn:Hkey; cbn [is_none negb].
    + destruct (assoc_get String.eqb k d) as [w|] eqn:Hk; [reflexivity|].
      destruct (String.eqb_spec k key) as [->|Hne]; [congruence|reflexivity].
    + destruct (String.eqb_spec k key) as [->|Hne].
      * now rewrite (assoc_get_set_same String.eqb String.eqb_spec), Hkey.
      * now rewrite (assoc_get_set_other String.eqb String.eqb_spec)
          by exact Hne.
Qed.

(** X8: [prop] called with keyword arguments alone gives defaults: every key
    that is set keeps its value, and a key that is not set takes the value
    given for it.  On an object without the attribute [_properties] the
    call raises [AttributeError], unless no keyword is given. *)
Theorem prop_defaults_lookup (kwargs : props) :
  (forall d : props,
      exists d',
        prop_defaults (Some d) kwargs = Ok (Some d')
        /\ forall k,
             assoc_get String.eqb k d'
             = match assoc_get String.eqb k d with
               | Some v => Some v
               | None => assoc_get String.eqb k kwargs
               end)
  /\ prop_defaults None kwargs
     = match kwargs with
       | [] => Ok None
       | _ :: _ => Raise AttributeError
       end.
Proof.
  split; [|now destruct kwargs as [|[k v] rest]].
  intros d. apply prop_defaults_get.
Qed.

(** X22: The two forms of [prop] agree: reading properties with fallback
    values returns what reading them without fallback returns once the
    fallback values have been set as defaults, and fails with [KeyError]
    in the same cases. *)
Theorem prop_values_defaults (d : props) (args : list string)
  (kwargs : props) :
  prop_values (Some d) args kwargs
  = (p <- prop_defaults (Some d) kwargs ;; prop_values p args []).
Proof.
  destruct (prop_defaults_get kwargs d) as (d' & -> & Hget). cbn [bind].
  induction args as [|arg args IH]; [reflexivity|].
  cbn [prop_values bind assoc_get]. rewrite Hget.
  destruct (assoc_get String.eqb arg d) as [v|].
  - cbn [bind]. now rewrite IH.
  - destruct (assoc_get String.eqb arg kwargs) as [v|]; [|reflexivity].
    cbn [bind]. now rewrite IH.
Qed.

(** ** The registry *)

Section RegistryFacts.
Context {V : Type} `{Scalar V}.

Lemma get_subclass_set_class (c : subclass) (l : list (@subclass V))
  (obj : pyobj) :
  Forall (fun c' => name c' <> name c) l ->
  get_subclass (registry.set_class c l) obj
  = match get_subclass l obj with
    | Some c' => Some c'
    | None => if accepts c obj then Some c else None
    end.
Proof.
  induction 1 as [|c' l Hc' _ IH]; cbn [registry.set_class get_subclass];
    [reflexivity|].
  destruct (String.eqb_spec (name c) (name c')) as [Heq|_];
    [now symmetry in Heq|].
  cbn [get_subclass]. now destruct (accepts c' obj).
Qed.

(** X9: A class registered under a new name comes after the classes that are
    registered already: [make] treats every value that was acceptable as
    before, and hands the other values that the new class accepts to its
    constructor.  The class named [Integrand] does not enter the
    registry. *)
Theorem register_extends_make (c : subclass) (l : list (@subclass V))
  (obj : pyobj) :
  Forall (fun c' => name c' <> name c) l ->
  make (registry.register c l) obj
  = if String.eqb (name c) "Integrand" then make l obj
    else if acceptable l obj then make l obj
    else if accepts c obj then construct c obj
    else Raise NotImplementedError.
Proof.
  intros Hfresh. unfold registry.register.
  destruct (String.eqb (name c) "Integrand"); [reflexivity|].
  unfold make, acceptable.
  rewrite (get_subclass_set_class c l obj Hfresh).
  destruct obj as [a|v|m|x|s]; cbn [isinstance_Integrand orb];
    try reflexivity;
    destruct (get_subclass l _) as [c'|]; cbn [is_none negb];
    try reflexivity;
    destruct (accepts c _); reflexivity.
Qed.

End RegistryFacts.

Lemma register_extends_make_witness :
  make (registry.register
          {| name := "TextIntegrand";
             accepts := fun obj => match obj with
                                   | PyOther _ => true
                                   | _ => false
                                   end;
             construct := fun obj => Ok (ThinWrapper (Some []) obj) |}
          subclasses) (PyOther "text")
  = Ok (@ThinWrapper Z (Some []) (PyOther "text")).
Proof.
  rewrite (register_extends_make (V := Z)).
  - reflexivity.
  - repeat constructor; cbn; discriminate.
Defined.

(** * The outcome of the constructors *)

Section InitOutcome.

Definition all_below (s : nat) (l : list nat) : bool :=
  forallb (fun x => x <? s) l.

Lemma fold_max_ltb (a : list nat) (x s : nat) :
  (fold_left Nat.max a x <? s) = all_below s (x :: a).
Proof.
  unfold all_below. revert x. induction a as [|y a IH]; intros x.
  - cbn. now rewrite andb_true_r.
  - cbn [fold_left]. rewrite IH. cbn [forallb].
    destruct (Nat.ltb_spec (Nat.max x y) s), (Nat.ltb_spec x s),
      (Nat.ltb_spec y s); try reflexivity; lia.
Qed.

Lemma adjacent_neq_length (l : list nat) :
  length (np.adjacent_neq l) = pred (length l).
Proof.
  induction l as [|x [|y l] IH]; try reflexivity.
  change (np.adjacent_neq (x :: y :: l))
    with (negb (y =? x) :: np.adjacent_neq (y :: l)).
  cbn [length pred] in *. now rewrite IH.
Qed.

Lemma logical_or_length (a b : list bool) :
  length (np.logical_or a b) = Nat.min (length a) (length b).
Proof.
  revert b. induction a as [|x a IH]; intros [|y b]; cbn; auto.
Qed.

Lemma compress_total {A : Type} (arr : list A) (mask : list bool) :
  length arr = length mask -> exists l, np.compress arr mask = Ok l.
Proof.
  revert mask. induction arr as [|a arr IH]; intros [|b mask] Hlen;
    try discriminate; cbn [np.compress].
  - now eexists.
  - destruct (IH mask) as (l & ->); [now injection Hlen|].
    cbn [bind]. now eexists.
Qed.

Lemma CSRAssembler_init_ok (M N : nat) (dr dc : int_dtype)
  (row col : list nat) :
  length row = length col -> row <> [] ->
  all_below M row = true -> all_below N col = true ->
  exists a, CSRAssembler.init [M; N] (IntArray dr row) (IntArray dc col)
            = Ok a.
Proof.
  intros Hlen Hne Hrow Hcol.
  destruct row as [|r row]; [contradiction|].
  destruct col as [|c col]; [discriminate|].
  unfold CSRAssembler.init.
  cbn [values dtype length Nat.eqb py_assert bind np.max np.item nth_error].
  rewrite !fold_max_ltb, Hrow, Hcol. cbn [bind].
  unfold np.lexsort. rewrite Hlen, Nat.eqb_refl. cbn [bind].
  fold (sorted_table (r :: row) (c :: col)).
  rewrite (take_row_sorted _ _ Hlen), (take_col_sorted _ _ Hlen).
  cbn [bind].
  set (row1 := map (fun e => snd (fst e)) (sorted_table (r :: row) (c :: col))).
  set (col1 := map (fun e => fst (fst e)) (sorted_table (r :: row) (c :: col))).
  assert (Hrow1 : length row1 = S (length col))
    by (unfold row1; now rewrite length_map, (sorted_table_length _ _ Hlen)).
  assert (Hcol1 : length col1 = S (length col))
    by (unfold col1; now rewrite length_map, (sorted_table_length _ _ Hlen)).
  assert (Hmask : length (true :: np.logical_or (np.adjacent_neq row1)
                                                (np.adjacent_neq col1))
                  = S (length col)).
  { cbn [length]. rewrite logical_or_length, !adjacent_neq_length,
      Hrow1, Hcol1. cbn [pred]. now rewrite Nat.min_id. }
  destruct (compress_total row1 _ (eq_trans Hrow1 (eq_sym Hmask)))
    as (row2 & ->).
  destruct (compress_total col1 _ (eq_trans Hcol1 (eq_sym Hmask)))
    as (col2 & ->).
  cbn [bind unpack2]. now eexists.
Qed.

Lemma CSRAssembler_init_assert (M N : nat) (dr dc : int_dtype)
  (row col : list nat) :
  row <> [] -> col <> [] ->
  all_below M row && all_below N col = false ->
  CSRAssembler.init [M; N] (IntArray dr row) (IntArray dc col)
  = Raise AssertionError.
Proof.
  intros Hrow Hcol Hout.
  destruct row as [|r row]; [contradiction|].
  destruct col as [|c col]; [contradiction|].
  unfold CSRAssembler.init.
  cbn [values dtype length Nat.eqb py_assert bind np.max np.item nth_error].
  rewrite !fold_max_ltb.
  destruct (all_below M (r :: row)); [|reflexivity].
  cbn [bind]. cbn [andb] in Hout. now rewrite Hout.
Qed.

Lemma VectorAssembler_init_ok (s0 : nat) (d : int_dtype) (inds : list nat) :
  inds <> [] -> all_below s0 inds = true ->
  exists a, VectorAssembler.init [s0] (IntArray d inds) = Ok a.
Proof.
  intros Hne Hin. destruct inds as [|i inds]; [contradiction|].
  unfold VectorAssembler.init.
  cbn [values dtype length Nat.eqb py_assert bind np.max np.item nth_error].
  rewrite fold_max_ltb, Hin. cbn [bind].
  rewrite lexsort1_sorted_table.
  assert (Hlen : length (repeat 0 (length (i :: inds))) = length (i :: inds))
    by apply repeat_length.
  rewrite (take_col_sorted _ _ Hlen). cbn [bind].
  set (col1 := map (fun e => fst (fst e)) (sorted_table _ (i :: inds))).
  assert (Hcol1 : length col1 = S (length inds))
    by (unfold col1; now rewrite length_map, (sorted_table_length _ _ Hlen)).
  destruct (compress_total col1 (true :: np.adjacent_neq col1)) as (row & ->).
  { cbn [length]. now rewrite adjacent_neq_length, Hcol1. }
  cbn [bind]. now eexists.
Qed.

(** X11: The constructor of [CSRAssembler], on coordinate arrays of one
    length: empty arrays raise [ValueError] (the maximum of an empty
    array), a coordinate outside the shape raises [AssertionError], and
    in every other case an assembler is returned. *)
Theorem CSRAssembler_init_outcome (M N : nat) (row col : intarray) :
  length (values row) = length (values col) ->
  (values row = [] ->
   CSRAssembler.init [M; N] row col = Raise ValueError)
  /\ (values row <> [] ->
      all_below M (values row) && all_below N (values col) = false ->
      CSRAssembler.init [M; N] row col = Raise AssertionError)
  /\ (values row <> [] ->
      all_below M (values row) && all_below N (values col) = true ->
      exists a, CSRAssembler.init [M; N] row col = Ok a).
Proof.
  destruct row as [dr row], col as [dc col]. cbn [values]. intros Hlen.
  split; [intros ->; reflexivity|].
  split.
  - intros Hne Hout. apply CSRAssembler_init_assert; try assumption.
    destruct col; [|discriminate]. destruct row; [contradiction|discriminate].
  - intros Hne Hin. apply andb_true_iff in Hin. destruct Hin as [Hr Hc].
    now apply CSRAssembler_init_ok.
Qed.

End InitOutcome.

Lemma CSRAssembler_init_outcome_witness :
  CSRAssembler.init [2; 4] (IntArray Int64 [0; 2]) (IntArray Int64 [1; 3])
  = Raise AssertionError.
Proof.
  apply (CSRAssembler_init_outcome 2 4 (IntArray Int64 [0; 2])
           (IntArray Int64 [1; 3]) eq_refl).
  - discriminate.
  - reflexivity.
Defined.

(** ** The unassembled tensor *)

Section TensorOutcome.
Context {V : Type} `{Scalar V}.

(** the entries [(i, j, k, value)] that three coordinate arrays and a
    data array give *)
Definition entries (i j k : list nat) (data : list V)
  : list (nat * nat * nat * V) :=
  combine (combine (combine i j) k) data.

Definition entry_i (e : nat * nat * nat * V) : nat := fst (fst (fst e)).
Definition entry_j (e : nat * nat * nat * V) : nat := snd (fst (fst e)).
Definition entry_k (e : nat * nat * nat * V) : nat := snd (fst e).
Definition entry_nonzero (e : nat * nat * nat * V) : bool :=
  is_nonzero (snd e).

(** whether an entry lies within a shape *)
Definition inside (s0 s1 s2 : nat) (e : nat * nat * nat * V) : bool :=
  (entry_i e <? s0) && (entry_j e <? s1) && (entry_k e <? s2).

Lemma combine_map_fst {A B : Type} (l : list A) (l' : list B) :
  length l = length l' -> map fst (combine l l') = l.
Proof.
  revert l'. induction l as [|a l IH]; intros [|b l'] Hlen;
    try discriminate; [reflexivity|].
  cbn [combine map fst]. f_equal. apply IH. now injection Hlen.
Qed.

Lemma entries_columns (i j k : list nat) (data : list V) :
  length i = length data -> length j = length data ->
  length k = length data ->
  map entry_i (entries i j k data) = i
  /\ map entry_j (entries i j k data) = j
  /\ map entry_k (entries i j k data) = k
  /\ map snd (entries i j k data) = data.
Proof.
  intros Hi Hj Hk. unfold entries, entry_i, entry_j, entry_k.
  assert (Hij : length (combine i j) = length data)
    by (rewrite length_combine; lia).
  assert (Hijk : length (combine (combine i j) k) = length data)
    by (rewrite length_combine; lia).
  repeat split.
  - rewrite <- (map_map fst (fun e => fst (fst e))),
      <- (map_map fst fst), !combine_map_fst; congruence.
  - rewrite <- (map_map fst (fun e => snd (fst e))),
      <- (map_map fst snd), combine_map_fst, combine_map_fst,
      map_snd_combine; congruence.
  - rewrite <- (map_map fst snd), combine_map_fst, map_snd_combine;
      congruence.
  - apply map_snd_combine. congruence.
Qed.

Lemma entries_of_columns (F : list (nat * nat * nat * V)) :
  entries (map entry_i F) (map entry_j F) (map entry_k F) (map snd F) = F.
Proof.
  induction F as [|[[[i j] k] v] F IH]; [reflexivity|].
  unfold entries in *. cbn [map combine]. now rewrite IH.
Qed.

(** [arr[np.nonzero(data)]], from position [length pre] on *)
Lemma take_nonzero_from {X B : Type} (g : X -> B) (nz : X -> bool)
  (pre : list B) (E : list X) :
  np.take (pre ++ map g E) (np.nonzero_from (length pre) (map nz E))
  = Ok (map g (filter nz E)).
Proof.
  revert pre. induction E as [|e E IH]; intros pre; [reflexivity|].
  cbn [map np.nonzero_from filter].
  assert (Hrest : np.take (pre ++ g e :: map g E)
                    (np.nonzero_from (S (length pre)) (map nz E))
                  = Ok (map g (filter nz E))).
  { specialize (IH (pre ++ [g e])).
    rewrite <- app_assoc, length_app in IH. cbn [app length] in IH.
    now rewrite Nat.add_1_r in IH. }
  destruct (nz e); [|exact Hrest].
  cbn [np.take map]. rewrite Hrest. unfold np.item.
  rewrite nth_error_app2, Nat.sub_diag by lia. reflexivity.
Qed.

Lemma take_nonzero (g : nat * nat * nat * V -> nat)
  (E : list (nat * nat * nat * V)) :
  np.take (map g E) (np.nonzero (map snd E))
  = Ok (map g (filter entry_nonzero E)).
Proof.
  unfold np.nonzero, np.nonzero_mask. rewrite map_map.
  apply (take_nonzero_from g entry_nonzero [] E).
Qed.

Lemma take_nonzero_data (E : list (nat * nat * nat * V)) :
  np.take (map snd E) (np.nonzero (map snd E))
  = Ok (map snd (filter entry_nonzero E)).
Proof.
  unfold np.nonzero, np.nonzero_mask. rewrite map_map.
  apply (take_nonzero_from snd entry_nonzero [] E).
Qed.

Lemma all_fit_total (indices : list (list nat)) :
  Forall (fun i => i <> []) indices -> exists fits, all_fit indices = Ok fits.
Proof.
  induction 1 as [|i rest Hi _ IH]; cbn [all_fit]; [now eexists|].
  destruct i as [|x i]; [contradiction|]. cbn [np.max bind].
  destruct (_ <=? _)%Z; [exact IH|now eexists].
Qed.

Lemma inside_columns (s0 s1 s2 : nat) (F : list (nat * nat * nat * V)) :
  forallb (inside s0 s1 s2) F
  = all_below s0 (map entry_i F) && all_below s1 (map entry_j F)
    && all_below s2 (map entry_k F).
Proof.
  unfold all_below. induction F as [|e F IH]; [reflexivity|].
  cbn [forallb map]. rewrite IH. unfold inside.
  destruct (entry_i e <? s0), (entry_j e <? s1), (entry_k e <? s2),
    (forallb _ (map entry_i F)), (forallb _ (map entry_j F)),
    (forallb _ (map entry_k F)); reflexivity.
Qed.

(** X12: The constructor of the unassembled tensor, on three coordinate arrays
    of the length of the data.  It keeps the entries whose value is not
    zero, in their order.  When no entry is kept it raises [ValueError]
    (the maximum of an empty index array); when a kept entry lies outside
    the shape it raises [AssertionError]; otherwise it returns a tensor
    whose arrays hold exactly the kept entries. *)
Theorem COOTensorIntegrand_init_outcome (s0 s1 s2 : nat)
  (I J K : list nat) (data : list V) :
  length I = length data -> length J = length data ->
  length K = length data ->
  let F := filter entry_nonzero (entries I J K data) in
  let init := COOTensorIntegrand_init [s0; s1; s2] [I; J; K] data in
  (F = [] -> init = Raise ValueError)
  /\ (F <> [] -> forallb (inside s0 s1 s2) F = false ->
      init = Raise AssertionError)
  /\ (F <> [] -> forallb (inside s0 s1 s2) F = true ->
      exists x i j k,
        init = Ok x
        /\ map values (coo_indices x) = [i; j; k]
        /\ entries i j k (coo_data x) = F
        /\ coo_shape x = [s0; s1; s2]).
Proof.
  intros HI HJ HK.
  destruct (entries_columns I J K data HI HJ HK) as (Ei & Ej & Ek & Ed).
  clear HI HJ HK.
  remember (entries I J K data) as E eqn:HE. clear HE.
  subst I J K data. intros F init.
  assert (Hinit : init
    = (fits <- all_fit [map entry_i F; map entry_j F; map entry_k F] ;;
       let d := if fits then Int32 else Int64 in
       a1 <- CSRAssembler.init [s0; s2] (astype d (map entry_i F))
                               (astype d (map entry_k F)) ;;
       a2 <- CSRAssembler.init [s0; s1] (astype d (map entry_i F))
                               (astype d (map entry_j F)) ;;
       a12 <- VectorAssembler.init [s0] (astype d (map entry_i F)) ;;
       Ok {| coo_properties := Some [];
             coo_shape := [s0; s1; s2];
             coo_ndim := Some 3;
             coo_data := map snd F;
             coo_indices := map (astype d)
                              [map entry_i F; map entry_j F; map entry_k F];
             coo_assemblers :=
               [([1], CSRAsm a1); ([2], CSRAsm a2);
                ([1; 2], VectorAsm a12)] |})).
  { subst init. unfold COOTensorIntegrand_init.
    cbn [length Nat.eqb py_assert bind map_result].
    rewrite !take_nonzero, take_nonzero_data. cbn [bind].
    fold F. destruct (all_fit _) as [fits|e]; [|reflexivity].
    reflexivity. }
  rewrite Hinit. clear Hinit init.
  rewrite inside_columns.
  destruct F as [|e F'] eqn:HF.
  { split; [reflexivity|]. split; intros Hne; now contradiction Hne. }
  split; [discriminate|].
  set (i := map entry_i (e :: F')). set (j := map entry_j (e :: F')).
  set (k := map entry_k (e :: F')).
  assert (Hi : i <> []) by discriminate.
  assert (Hj : j <> []) by discriminate.
  assert (Hk : k <> []) by discriminate.
  destruct (all_fit_total [i; j; k]) as (fits & ->);
    [repeat constructor; assumption|].
  cbn [bind]. unfold astype.
  assert (Hlen_ik : length i = length k) by (unfold i, k; now rewrite !length_map).
  assert (Hlen_ij : length i = length j) by (unfold i, j; now rewrite !length_map).
  split.
  - intros _ Hout.
    destruct (all_below s0 i && all_below s2 k) eqn:Ha1.
    + apply andb_true_iff in Ha1. destruct Ha1 as [Hb0 Hb2].
      destruct (CSRAssembler_init_ok s0 s2 (if fits then Int32 else Int64)
                  (if fits then Int32 else Int64) i k Hlen_ik Hi Hb0 Hb2)
        as (a1 & ->).
      cbn [bind]. rewrite CSRAssembler_init_assert; try assumption;
        [reflexivity|].
      rewrite Hb0 in *. rewrite Hb2 in Hout. cbn [andb] in *.
      now rewrite andb_true_r in Hout.
    + now rewrite CSRAssembler_init_assert.
  - intros _ Hin.
    apply andb_true_iff in Hin. destruct Hin as [Hin Hb2].
    apply andb_true_iff in Hin. destruct Hin as [Hb0 Hb1].
    destruct (CSRAssembler_init_ok s0 s2 (if fits then Int32 else Int64)
                (if fits then Int32 else Int64) i k Hlen_ik Hi Hb0 Hb2)
      as (a1 & ->).
    destruct (CSRAssembler_init_ok s0 s1 (if fits then Int32 else Int64)
                (if fits then Int32 else Int64) i j Hlen_ij Hi Hb0 Hb1)
      as (a2 & ->).
    destruct (VectorAssembler_init_ok s0 (if fits then Int32 else Int64)
                i Hi Hb0) as (a12 & ->).
    cbn [bind]. eexists _, i, j, k.
    split; [reflexivity|].
    cbn [coo_indices coo_data coo_shape map values].
    split; [reflexivity|]. split; [|reflexivity].
    apply entries_of_columns.
Qed.

End TensorOutcome.

Lemma COOTensorIntegrand_init_outcome_witness :
  COOTensorIntegrand_init [2; 2; 2] [[0; 1]; [0; 1]; [0; 1]] [0; 0]%Z
  = Raise ValueError
  /\ COOTensorIntegrand_init [2; 2; 2] [[0; 5]; [0; 1]; [0; 1]] [0; 4]%Z
     = Raise AssertionError.
Proof.
  split.
  - now apply (COOTensorIntegrand_init_outcome (V := Z) 2 2 2
                 [0; 1] [0; 1] [0; 1] [0; 0]%Z eq_refl eq_refl eq_refl).
  - apply (COOTensorIntegrand_init_outcome (V := Z) 2 2 2
             [0; 5] [0; 1] [0; 1] [0; 4]%Z eq_refl eq_refl eq_refl).
    + discriminate.
    + reflexivity.
Defined.

(** * What a contraction of the unassembled tensor computes *)

Section ContractSums.
Context {V : Type} `{ScalarLaws V}.

Lemma zip_mul_map {X : Type} (f g : X -> V) (F : list X) :
  spec.zip_mul (map f F) (map g F) = map (fun e => mul (f e) (g e)) F.
Proof.
  induction F as [|e F IH]; [reflexivity|].
  cbn [map spec.zip_mul]. now rewrite IH.
Qed.

Lemma take_nth (v : list V) (idx : list nat) :
  Forall (fun i => i < length v) idx ->
  np.take v idx = Ok (map (fun i => nth i v zero) idx).
Proof.
  intros Hidx. rewrite <- (map_id idx) at 1.
  apply take_map. eapply Forall_impl; [|exact Hidx].
  intros i Hi. now apply nth_error_nth'.
Qed.

(** one step of the weighting loop, on the entries *)
Lemma weigh_step {X : Type} (indices : list intarray) (a : nat)
  (idx : intarray) (pos : X -> nat) (g : X -> V) (F : list X)
  (v : list V) (rest : list (nat * list V)) :
  nth_error indices a = Some idx ->
  values idx = map pos F ->
  Forall (fun e => pos e < length v) F ->
  weigh indices ((a, v) :: rest) (map g F)
  = weigh indices rest (map (fun e => mul (g e) (nth (pos e) v zero)) F).
Proof.
  intros Hidx Hpos Hbound. cbn [weigh]. unfold np.item. rewrite Hidx.
  cbn [bind]. rewrite take_nth, Hpos.
  2:{ rewrite Hpos. now apply Forall_map. }
  cbn [bind]. unfold np.imul. rewrite !length_map, Nat.eqb_refl.
  rewrite multiply_zip_mul by now rewrite !length_map.
  cbn [bind]. now rewrite map_map, zip_mul_map.
Qed.

Lemma total_of_entries {X : Type} (fr fc : X -> nat) (g : X -> V)
  (F : list X) (r c : nat) :
  spec.total (triples (map fr F) (map fc F) (map g F)) r c
  = spec.Sum (map g (filter (fun e => (fr e =? r) && (fc e =? c)) F)).
Proof.
  unfold spec.total, triples. rewrite !combine_map.
  rewrite (filter_map _ (fun a => (fr a, fc a, g a))), map_map.
  reflexivity.
Qed.

Lemma vector_of_entries {X : Type} (fr : X -> nat) (g : X -> V)
  (F : list X) (r : nat) :
  spec.Sum (map snd (filter (fun e => fst e =? r)
                            (combine (map fr F) (map g F))))
  = spec.Sum (map g (filter (fun e => fr e =? r) F)).
Proof.
  rewrite combine_map.
  rewrite (filter_map _ (fun a => (fr a, g a))), map_map.
  reflexivity.
Qed.

(** the weights that a contraction puts on an entry *)
Definition weight_i (u : list V) (e : nat * nat * nat * V) : V :=
  nth (entry_i e) u zero.
Definition weight_j (v : list V) (e : nat * nat * nat * V) : V :=
  nth (entry_j e) v zero.
Definition weight_k (w : list V) (e : nat * nat * nat * V) : V :=
  nth (entry_k e) w zero.

(** X13: A contraction of a tensor that the constructor returned is the sum,
    over the stored entries, of the value times the components of the
    given vectors at the coordinates of the entry: a matrix when one of
    the last two axes is eliminated, a vector when both are, a number
    when all three are.  Entries at equal remaining coordinates are added
    up. *)
Theorem coo_contract_sums (shape : list nat) (index_args : list (list nat))
  (data_arg : list V) (x : COOTensorIntegrand) :
  COOTensorIntegrand_init shape index_args data_arg = Ok x ->
  exists s0 s1 s2 i j k,
    shape = [s0; s1; s2]
    /\ map values (coo_indices x) = [i; j; k]
    /\ let F := entries i j k (coo_data x) in
       (forall v, length v = s1 ->
          exists m,
            COOTensorIntegrand__contract x [None; Some v; None]
            = Ok (PyMatrix m)
            /\ csr_shape m = (s0, s2)
            /\ forall r c, r < s0 -> c < s2 ->
                 sptools.entry m r c
                 = spec.Sum
                     (map (fun e => mul (snd e) (weight_j v e))
                        (filter (fun e => (entry_i e =? r) && (entry_k e =? c))
                                F)))
       /\ (forall w, length w = s2 ->
             exists m,
               COOTensorIntegrand__contract x [None; None; Some w]
               = Ok (PyMatrix m)
               /\ csr_shape m = (s0, s1)
               /\ forall r c, r < s0 -> c < s1 ->
                    sptools.entry m r c
                    = spec.Sum
                        (map (fun e => mul (snd e) (weight_k w e))
                           (filter (fun e => (entry_i e =? r)
                                             && (entry_j e =? c)) F)))
       /\ (forall v w, length v = s1 -> length w = s2 ->
             exists out,
               COOTensorIntegrand__contract x [None; Some v; Some w]
               = Ok (PyArray (nd.of_vector out))
               /\ length out = s0
               /\ forall r, r < s0 ->
                    nth r out zero
                    = spec.Sum
                        (map (fun e => mul (mul (snd e) (weight_j v e))
                                           (weight_k w e))
                           (filter (fun e => entry_i e =? r) F)))
       /\ (forall u v w, length u = s0 -> length v = s1 -> length w = s2 ->
             COOTensorIntegrand__contract x [Some u; Some v; Some w]
             = Ok (PyScalar
                     (spec.Sum
                        (map (fun e => mul (mul (mul (snd e) (weight_i u e))
                                                (weight_j v e))
                                           (weight_k w e)) F)))).
Proof.
  intros Hinit.
  destruct (COOTensorIntegrand_init_wf _ _ _ _ Hinit)
    as (s0 & s1 & s2 & i & j & k & d & a1 & a2 & a12 & -> & Hidx & Hass
        & Hli & Hlj & Hlk & Hbi & Hbj & Hbk & Ha1 & Ha2 & Ha12).
  exists s0, s1, s2, i, j, k.
  split; [reflexivity|]. split; [now rewrite Hidx|].
  intros F.
  destruct (entries_columns i j k (coo_data x) Hli Hlj Hlk)
    as (Ei & Ej & Ek & Ed).
  fold F in Ei, Ej, Ek, Ed.
  assert (HFi : forall s, Forall (fun n => n < s) i ->
                          Forall (fun e => entry_i e < s) F)
    by (intros s Hs; rewrite <- Ei in Hs; now apply Forall_map in Hs).
  assert (HFj : forall s, Forall (fun n => n < s) j ->
                          Forall (fun e => entry_j e < s) F)
    by (intros s Hs; rewrite <- Ej in Hs; now apply Forall_map in Hs).
  assert (HFk : forall s, Forall (fun n => n < s) k ->
                          Forall (fun e => entry_k e < s) F)
    by (intros s Hs; rewrite <- Ek in Hs; now apply Forall_map in Hs).
  assert (Hlen : forall g : nat * nat * nat * V -> V,
             length (map g F) = length i)
    by (intros g; now rewrite length_map, <- Ei, length_map).
  unfold COOTensorIntegrand__contract. rewrite Hidx, Hass, <- Ed.
  unfold astype in *.
  split; [|split; [|split]].
  - intros v Hv.
    cbn [forallb is_none andb nontrivial map fst].
    rewrite (weigh_step [IntArray d i; IntArray d j; IntArray d k] 1 (IntArray d j) entry_j snd F v []
               eq_refl (eq_sym Ej))
      by (rewrite Hv; now apply HFj).
    cbn [weigh bind].
    change (list_nat_eqb [1] [0; 1; 2]) with false.
    change (assoc_get list_nat_eqb [1] _) with (Some (CSRAsm a1)).
    cbv iota. cbn [assembler_call].
    destruct (CSRAssembler_call_total _ _ _ _ _ _
                (map (fun e => mul (snd e) (nth (entry_j e) v zero)) F)
                Ha1 (Hlen _))
      as (M & N & m & HMN & Hcall & Hshape & Hentry).
    injection HMN as <- <-.
    exists m. rewrite Hcall. cbn [bind].
    split; [reflexivity|]. split; [exact Hshape|].
    intros r c Hr Hc. rewrite (Hentry r c Hr Hc).
    rewrite <- Ei at 1. rewrite <- Ek at 1.
    apply total_of_entries.
  - intros w Hw.
    cbn [forallb is_none andb nontrivial map fst].
    rewrite (weigh_step [IntArray d i; IntArray d j; IntArray d k] 2 (IntArray d k) entry_k snd F w []
               eq_refl (eq_sym Ek))
      by (rewrite Hw; now apply HFk).
    cbn [weigh bind].
    change (list_nat_eqb [2] [0; 1; 2]) with false.
    change (assoc_get list_nat_eqb [2] _) with (Some (CSRAsm a2)).
    cbv iota. cbn [assembler_call].
    destruct (CSRAssembler_call_total _ _ _ _ _ _
                (map (fun e => mul (snd e) (nth (entry_k e) w zero)) F)
                Ha2 (Hlen _))
      as (M & N & m & HMN & Hcall & Hshape & Hentry).
    injection HMN as <- <-.
    exists m. rewrite Hcall. cbn [bind].
    split; [reflexivity|]. split; [exact Hshape|].
    intros r c Hr Hc. rewrite (Hentry r c Hr Hc).
    rewrite <- Ei at 1. rewrite <- Ej at 1.
    apply total_of_entries.
  - intros v w Hv Hw.
    cbn [forallb is_none andb nontrivial map fst].
    rewrite (weigh_step [IntArray d i; IntArray d j; IntArray d k] 1 (IntArray d j) entry_j snd F v _
               eq_refl (eq_sym Ej))
      by (rewrite Hv; now apply HFj).
    rewrite (weigh_step [IntArray d i; IntArray d j; IntArray d k] 2 (IntArray d k) entry_k _ F w []
               eq_refl (eq_sym Ek))
      by (rewrite Hw; now apply HFk).
    cbn [weigh bind].
    change (list_nat_eqb [1; 2] [0; 1; 2]) with false.
    change (assoc_get list_nat_eqb [1; 2] _) with (Some (VectorAsm a12)).
    cbv iota. cbn [assembler_call].
    destruct (VectorAssembler_call_sums [s0] (IntArray d i) a12
                (map (fun e => mul (mul (snd e) (nth (entry_j e) v zero))
                                   (nth (entry_k e) w zero)) F)
                Ha12 (Hlen _))
      as (s & out & Hs & Hcall & Hout & Hentry).
    injection Hs as <-.
    exists out. rewrite Hcall. cbn [bind].
    split; [reflexivity|]. split; [exact Hout|].
    intros r Hr. rewrite (Hentry r Hr). cbn [values].
    rewrite <- Ei at 1. apply vector_of_entries.
  - intros u v w Hu Hv Hw.
    cbn [forallb is_none andb nontrivial map fst].
    rewrite (weigh_step [IntArray d i; IntArray d j; IntArray d k] 0 (IntArray d i) entry_i snd F u _
               eq_refl (eq_sym Ei))
      by (rewrite Hu; now apply HFi).
    rewrite (weigh_step [IntArray d i; IntArray d j; IntArray d k] 1 (IntArray d j) entry_j _ F v _
               eq_refl (eq_sym Ej))
      by (rewrite Hv; now apply HFj).
    rewrite (weigh_step [IntArray d i; IntArray d j; IntArray d k] 2 (IntArray d k) entry_k _ F w []
               eq_refl (eq_sym Ek))
      by (rewrite Hw; now apply HFk).
    cbn [weigh bind].
    change (list_nat_eqb [0; 1; 2] [0; 1; 2]) with true.
    cbv iota. now rewrite np_sum_Sum.
Qed.

End ContractSums.

Lemma coo_contract_sums_witness :
  exists x,
    COOTensorIntegrand_init [2; 2; 2] [[0; 0; 1]; [0; 0; 1]; [0; 0; 1]]
                            [1; 2; 3]%Z = Ok x
    /\ COOTensorIntegrand__contract x [Some [1; 1]; Some [1; 1]; Some [1; 1]]%Z
       = Ok (PyScalar 6%Z).
Proof.
  destruct (COOTensorIntegrand_init [2; 2; 2]
              [[0; 0; 1]; [0; 0; 1]; [0; 0; 1]] [1; 2; 3]%Z) as [x|e] eqn:Hx;
    [|vm_compute in Hx; discriminate].
  exists x. split; [reflexivity|].
  destruct (coo_contract_sums _ _ _ x Hx)
    as (s0 & s1 & s2 & i & j & k & Hs & Hidx & _ & _ & _ & Hfull).
  injection Hs as <- <- <-.
  rewrite (Hfull [1; 1]%Z [1; 1]%Z [1; 1]%Z eq_refl eq_refl eq_refl).
  vm_compute in Hx. injection Hx as <-.
  vm_compute in Hidx. injection Hidx as <- <- <-.
  reflexivity.
Defined.

(** * The dense form of the unassembled tensor *)

(** [a[idx]] for a full tuple of indices *)
Fixpoint tree_at {V : Type} (idx : list nat) (t : ndtree V) : option V :=
  match idx, t with
  | [], Item v => Some v
  | n :: idx', Axis l =>
      match nth_error l n with
      | Some t' => tree_at idx' t'
      | None => None
      end
  | _, _ => None
  end.

Section TensorDense.
Context {V : Type} `{ScalarLaws V}.

Lemma nth_replace {A : Type} (B : list A) (r r' : nat) (v d : A) :
  r < length B ->
  nth r' (firstn r B ++ v :: skipn (S r) B) d
  = if r' =? r then v else nth r' B d.
Proof.
  revert r r'. induction B as [|b B IH]; intros r r' Hr; simpl in Hr;
    [lia|].
  destruct r as [|r], r' as [|r']; try reflexivity.
  cbn [firstn skipn app nth Nat.eqb]. apply IH. lia.
Qed.

Lemma replace_length {A : Type} (B : list A) (r : nat) (v : A) :
  r < length B -> length (firstn r B ++ v :: skipn (S r) B) = length B.
Proof.
  intros Hr. rewrite length_app, length_firstn. cbn [length].
  rewrite length_skipn. lia.
Qed.

Lemma replace_Forall {A : Type} (P : A -> Prop) (B : list A) (r : nat)
  (v : A) :
  Forall P B -> P v -> Forall P (firstn r B ++ v :: skipn (S r) B).
Proof.
  intros HB Hv. apply Forall_app. split.
  - rewrite <- (firstn_skipn r B) in HB. now apply Forall_app in HB.
  - constructor; [exact Hv|].
    rewrite <- (firstn_skipn (S r) B) in HB. now apply Forall_app in HB.
Qed.

Lemma nth_repeat_inside {A : Type} (a d : A) (m n : nat) :
  n < m -> nth n (repeat a m) d = a.
Proof.
  intros Hn. apply nth_error_nth. now apply nth_error_repeat.
Qed.

(** [coo_matrix(...).toarray()]: every position holds what it held, plus
    the values of the entries at that position *)
Lemma coo_toarray_sums {X : Type} (fr fc : X -> nat) (g : X -> V)
  (F : list X) (M N : nat) (B : list (list V)) :
  Forall (fun e => fr e < M /\ fc e < N) F ->
  length B = M ->
  Forall (fun row => length row = N) B ->
  exists R,
    coo_toarray (map fr F) (map fc F) (map g F) N B = Ok R
    /\ length R = M
    /\ Forall (fun row => length row = N) R
    /\ forall r c, r < M -> c < N ->
         nth c (nth r R []) zero
         = add (nth c (nth r B []) zero)
               (spec.Sum (map g (filter (fun e => (fr e =? r) && (fc e =? c))
                                        F))).
Proof.
  intros HF. revert B.
  induction HF as [|e F [Hr Hc] _ IH]; intros B HM HB.
  - exists B. cbn [map coo_toarray filter spec.Sum fold_right].
    repeat split; try assumption.
    intros r c _ _. now rewrite add_zero_r.
  - cbn [map coo_toarray]. rewrite <- HM in Hr.
    destruct (nth_error B (fr e)) as [Br|] eqn:HBr;
      [|apply nth_error_None in HBr; lia].
    apply Nat.ltb_lt in Hc. rewrite Hc. apply Nat.ltb_lt in Hc.
    assert (HlenBr : length Br = N).
    { rewrite Forall_forall in HB. apply HB.
      now apply nth_error_In in HBr. }
    set (B' := firstn (fr e) B
               ++ sptools.add_at Br (fc e) (g e) :: skipn (S (fr e)) B).
    assert (HlenB' : length B' = M)
      by (rewrite <- HM; now apply replace_length).
    destruct (IH B' HlenB') as (R & HR & HlenR & HrowsR & Hentry).
    { apply replace_Forall; [exact HB|]. now rewrite add_at_length. }
    exists R. split; [exact HR|]. split; [exact HlenR|].
    split; [exact HrowsR|].
    intros r c Hr' Hc'. rewrite (Hentry r c Hr' Hc').
    unfold B'. rewrite nth_replace by exact Hr.
    cbn [filter]. rewrite (Nat.eqb_sym r (fr e)).
    destruct (Nat.eqb_spec (fr e) r) as [<-|Hne]; cbn [andb];
      [|reflexivity].
    rewrite nth_add_at by (rewrite HlenBr; exact Hc').
    rewrite (nth_error_nth _ _ [] HBr).
    destruct (fc e =? c); [|reflexivity].
    cbn [map]. now rewrite Sum_cons, add_assoc.
Qed.

Lemma ravel_map {X : Type} (fj fk : X -> nat) (F : list X) (s1 s2 : nat) :
  Forall (fun e => fj e < s1 /\ fk e < s2) F ->
  ravel_multi_index (map fj F) (map fk F) s1 s2
  = Ok (map (fun e => fj e * s2 + fk e) F).
Proof.
  induction 1 as [|e F [Hj Hk] _ IH]; [reflexivity|].
  cbn [map ravel_multi_index].
  apply Nat.ltb_lt in Hj, Hk. now rewrite Hj, Hk, IH.
Qed.

Lemma chunks_length (n count : nat) (l : list V) :
  length (chunks n count l) = count.
Proof.
  revert l. induction count as [|count IH]; intros l; [reflexivity|].
  cbn [chunks length]. now rewrite IH.
Qed.

Lemma chunks_nth (n count b : nat) (l : list V) :
  b < count -> nth b (chunks n count l) [] = firstn n (skipn (b * n) l).
Proof.
  revert l b. induction count as [|count IH]; intros l b Hb; [lia|].
  cbn [chunks]. destruct b as [|b]; [reflexivity|].
  cbn [nth]. rewrite IH by lia. rewrite skipn_skipn.
  now replace (b * n + n) with (S b * n) by lia.
Qed.

(** [np.reshape(row, (s1, s2))[b][c]] *)
Lemma chunks_entry (s1 s2 b c : nat) (row : list V) :
  length row = s1 * s2 -> b < s1 -> c < s2 ->
  nth_error (nth b (chunks s2 s1 row) []) c
  = Some (nth (b * s2 + c) row zero).
Proof.
  intros Hlen Hb Hc. rewrite chunks_nth by exact Hb.
  rewrite (nth_error_nth' _ zero).
  - rewrite nth_firstn. apply Nat.ltb_lt in Hc. rewrite Hc.
    now rewrite nth_skipn.
  - rewrite length_firstn, length_skipn, Hlen. nia.
Qed.

Lemma COOTensorIntegrand_init_shape (shape : list nat)
  (index_args : list (list nat)) (data_arg : list V)
  (x : COOTensorIntegrand) :
  COOTensorIntegrand_init shape index_args data_arg = Ok x ->
  coo_shape x = shape.
Proof.
  intros Hinit. apply COOTensorIntegrand_init_inv in Hinit.
  destruct Hinit as (indices & data & fits & s0 & s1 & s2 & i0 & i1 & i2
                     & a1 & a2 & a12 & -> & _ & _ & _ & _ & _ & _ & _ & ->).
  reflexivity.
Qed.

(** X14: The dense form of a tensor that the constructor returned, which is
    also what [get] returns when nothing is contracted: an array of the
    shape of the tensor whose entry at [(a, b, c)] is the sum of the
    values of the stored entries with these coordinates, and zero when
    there is none. *)
Theorem coo_toarray_entries (shape : list nat)
  (index_args : list (list nat)) (data_arg : list V)
  (x : COOTensorIntegrand) :
  COOTensorIntegrand_init shape index_args data_arg = Ok x ->
  exists s0 s1 s2 i j k A,
    shape = [s0; s1; s2]
    /\ map values (coo_indices x) = [i; j; k]
    /\ COOTensorIntegrand_toarray x = Ok A
    /\ COOTensorIntegrand_get x [None; None; None] = Ok (PyArray A)
    /\ nd_shape A = [s0; s1; s2]
    /\ forall a b c, a < s0 -> b < s1 -> c < s2 ->
         tree_at [a; b; c] (nd_tree A)
         = Some (spec.Sum
                   (map snd
                      (filter (fun e => (entry_i e =? a) && (entry_j e =? b)
                                        && (entry_k e =? c))
                              (entries i j k (coo_data x))))).
Proof.
  intros Hinit.
  pose proof (COOTensorIntegrand_init_shape _ _ _ _ Hinit) as Hshape.
  destruct (COOTensorIntegrand_init_wf _ _ _ _ Hinit)
    as (s0 & s1 & s2 & i & j & k & d & a1 & a2 & a12 & -> & Hidx & _
        & Hli & Hlj & Hlk & Hbi & Hbj & Hbk & _).
  destruct (entries_columns i j k (coo_data x) Hli Hlj Hlk)
    as (Ei & Ej & Ek & Ed).
  remember (entries i j k (coo_data x)) as F eqn:HF.
  assert (HFb : Forall (fun e => entry_i e < s0 /\ entry_j e < s1
                                 /\ entry_k e < s2) F).
  { rewrite <- Ei in Hbi. rewrite <- Ej in Hbj. rewrite <- Ek in Hbk.
    apply Forall_map in Hbi, Hbj, Hbk.
    rewrite Forall_forall in *. intros e He.
    repeat split; [apply Hbi|apply Hbj|apply Hbk]; exact He. }
  assert (Hravel : ravel_multi_index j k s1 s2
                   = Ok (map (fun e => entry_j e * s2 + entry_k e) F)).
  { rewrite <- Ej, <- Ek. apply ravel_map.
    eapply Forall_impl; [|exact HFb]. now intros e (_ & Hj & Hk). }
  destruct (coo_toarray_sums entry_i (fun e => entry_j e * s2 + entry_k e)
              snd F s0 (s1 * s2) (repeat (repeat zero (s1 * s2)) s0))
    as (R & HR & HlenR & HrowsR & Hentry).
  { eapply Forall_impl; [|exact HFb].
    intros e (Hi & Hj & Hk). split; [exact Hi|nia]. }
  { apply repeat_length. }
  { apply Forall_forall. intros row Hrow. apply repeat_spec in Hrow.
    subst row. apply repeat_length. }
  rewrite Ei, Ed in HR.
  assert (Harray : COOTensorIntegrand_toarray x
                   = Ok (NdArray [s0; s1; s2]
                           (Axis (map (fun r =>
                                         Axis (map (fun ch => Axis (map Item ch))
                                                   (chunks s2 s1 r))) R)))).
  { unfold COOTensorIntegrand_toarray. rewrite Hidx, Hshape.
    unfold astype. cbn [values]. rewrite Hravel. cbn [bind].
    now rewrite HR. }
  eexists s0, s1, s2, i, j, k, _.
  split; [reflexivity|]. split; [now rewrite Hidx|].
  split; [exact Harray|].
  split.
  { unfold COOTensorIntegrand_get, COOTensorIntegrand__contract.
    cbn [forallb is_none andb bind]. now rewrite Harray. }
  split; [reflexivity|].
  intros a b c Ha Hb Hc. cbn [nd_tree tree_at].
  rewrite nth_error_map, (nth_error_nth' R []) by lia.
  cbn [option_map].
  assert (Hrow : length (nth a R []) = s1 * s2).
  { rewrite Forall_forall in HrowsR. apply HrowsR, nth_In. lia. }
  rewrite nth_error_map,
    (nth_error_nth' (chunks s2 s1 (nth a R [])) [])
    by (rewrite chunks_length; exact Hb).
  cbn [option_map].
  rewrite nth_error_map, (chunks_entry s1 s2 b c _ Hrow Hb Hc).
  cbn [option_map]. f_equal.
  rewrite (Hentry a (b * s2 + c)) by (assumption || nia).
  rewrite (nth_repeat_inside _ _ _ _ Ha), nth_repeat_zero, add_zero_l.
  rewrite <- HF. f_equal. f_equal. apply filter_ext_in. intros e He.
  rewrite Forall_forall in HFb. destruct (HFb e He) as (_ & _ & Hk).
  rewrite <- andb_assoc. f_equal.
  destruct (Nat.eqb_spec (entry_j e * s2 + entry_k e) (b * s2 + c)) as [Heq|Hne],
    (Nat.eqb_spec (entry_j e) b) as [Hjb|Hjb],
    (Nat.eqb_spec (entry_k e) c) as [Hkc|Hkc];
    cbn [andb]; try reflexivity; exfalso; try nia.
Qed.

End TensorDense.

Lemma coo_toarray_entries_witness :
  exists x A,
    COOTensorIntegrand_init [2; 2; 2] [[0; 0; 1]; [0; 0; 1]; [0; 0; 1]]
                            [1; 2; 3]%Z = Ok x
    /\ COOTensorIntegrand_toarray x = Ok A
    /\ tree_at [0; 0; 0] (nd_tree A) = Some 3%Z.
Proof.
  destruct (COOTensorIntegrand_init [2; 2; 2]
              [[0; 0; 1]; [0; 0; 1]; [0; 0; 1]] [1; 2; 3]%Z) as [x|e] eqn:Hx;
    [|vm_compute in Hx; discriminate].
  destruct (coo_toarray_entries _ _ _ x Hx)
    as (s0 & s1 & s2 & i & j & k & A & Hs & Hidx & HA & _ & _ & Hentry).
  injection Hs as <- <- <-.
  exists x, A. split; [reflexivity|]. split; [exact HA|].
  rewrite (Hentry 0 0 0) by lia.
  vm_compute in Hx. injection Hx as <-.
  vm_compute in Hidx. injection Hidx as <- <- <-.
  reflexivity.
Defined.

(** * Contracting, then reading *)

Section ContractThenGet.
Context {V : Type} `{Scalar V}.

(** what [get] returns for a result of [contract] that is read with the
    all-no-op contraction: the result itself, a number being wrapped as an
    array of rank 0 *)
Definition as_wrapped (o : @pyobj V) : pyobj :=
  match o with
  | PyScalar s => PyArray (nd.scalar s)
  | _ => o
  end.

Lemma make_then_get (r : pyobj) :
  match r with PyIntegrand _ | PyOther _ => False | _ => True end ->
  (y <- make subclasses r ;;
   n <- Integrand_ndim y ;;
   Integrand_get y (trivial n)) = Ok (as_wrapped r).
Proof.
  destruct r as [a|v|m|x|s]; intros Hr; try contradiction.
  - apply get_trivial_numpy.
  - apply (get_trivial_numpy (nd.scalar v)).
  - reflexivity.
Qed.

(** X15: Whenever [x.contract(c)] succeeds and the result is read with the
    all-no-op contraction, [x.get(c)] succeeds too and returns the same
    entries: the same object, except that a number comes back from
    [contract] wrapped as an array of rank 0. *)
Theorem contract_then_get_is_get (x : Integrand) (c : contraction_spec)
  (o : pyobj) :
  contract_then_get x c = Ok o ->
  exists o',
    Integrand_get x c = Ok o'
    /\ o = as_wrapped o'
    /\ densify o = densify o'.
Proof.
  assert (Hdense : forall o' : @pyobj V, densify (as_wrapped o') = densify o')
    by (now intros [a|v|m|y|s]).
  unfold contract_then_get.
  destruct x as [p obj|x|x|x]; cbn [Integrand_contract Integrand_get bind];
    [discriminate| | |].
  - unfold NumpyArrayIntegrand_contract, NumpyArrayIntegrand_get.
    destruct (NumpyArrayIntegrand__contract x c) as [a|e]; [|discriminate].
    cbn [bind NumpyArrayIntegrand_init]. rewrite get_trivial_numpy.
    intros [= <-]. exists (PyArray a). now repeat split.
  - unfold ScipyArrayIntegrand_contract, ScipyArrayIntegrand_get.
    destruct c as [|ca [|cb [|? ?]]]; try discriminate.
    cbn [length Nat.eqb py_assert bind unpack_pair forallb].
    destruct ca as [ca|], cb as [cb|]; cbn [is_none andb orb py_assert bind];
      try discriminate.
    + destruct (sptools.T_dot (sp_obj x) ca) as [v|e]; [|discriminate].
      cbn [bind NumpyArrayIntegrand_init]. rewrite get_trivial_numpy.
      intros [= <-]. eexists. now repeat split.
    + destruct (sptools.dot (sp_obj x) cb) as [v|e]; [|discriminate].
      cbn [bind NumpyArrayIntegrand_init]. rewrite get_trivial_numpy.
      intros [= <-]. eexists. now repeat split.
    + intros [= <-]. eexists. now repeat split.
  - unfold COOTensorIntegrand_contract, COOTensorIntegrand_get,
      COOTensorIntegrand__contract.
    destruct (forallb is_none c) eqn:Hc.
    + cbn [bind make Integrand_ndim].
      destruct (coo_ndim x) as [n|]; [|discriminate].
      cbn [bind Integrand_get]. unfold COOTensorIntegrand_get,
        COOTensorIntegrand__contract.
      rewrite forallb_is_none_trivial. cbn [bind].
      destruct (COOTensorIntegrand_toarray x) as [a|e]; [|discriminate].
      intros [= <-]. eexists. now repeat split.
    + destruct (weigh _ _ _) as [data|e]; [|discriminate]. cbn [bind].
      destruct (list_nat_eqb _ _).
      * cbn [bind]. rewrite (make_then_get (PyScalar _) I).
        intros [= <-]. eexists. now repeat split.
      * destruct (assoc_get _ _ _) as [[a|a]|]; [| |discriminate];
          cbn [assembler_call].
        -- destruct (CSRAssembler.call a data) as [m|e]; [|discriminate].
           cbn [bind]. rewrite (make_then_get (PyMatrix _) I).
           intros [= <-]. eexists. now repeat split.
        -- destruct (VectorAssembler.call a data) as [v|e]; [|discriminate].
           cbn [bind]. rewrite (make_then_get (PyArray _) I).
           intros [= <-]. eexists. now repeat split.
Qed.

End ContractThenGet.

Lemma contract_then_get_is_get_witness :
  exists x o',
    COOTensorIntegrand_init [2; 2; 2] [[0; 0; 1]; [0; 0; 1]; [0; 0; 1]]
                            [1; 2; 3]%Z = Ok x
    /\ Integrand_get (COOTensor x) [Some [1; 1]; Some [1; 1]; Some [1; 1]]%Z
       = Ok o'
    /\ PyArray (nd.scalar 6%Z) = as_wrapped o'.
Proof.
  destruct (COOTensorIntegrand_init [2; 2; 2]
              [[0; 0; 1]; [0; 0; 1]; [0; 0; 1]] [1; 2; 3]%Z) as [x|e] eqn:Hx;
    [|vm_compute in Hx; discriminate].
  assert (Hc : contract_then_get (COOTensor x)
                 [Some [1; 1]; Some [1; 1]; Some [1; 1]]%Z
               = Ok (PyArray (nd.scalar 6%Z)))
    by (vm_compute in Hx; injection Hx as <-; vm_compute; reflexivity).
  destruct (contract_then_get_is_get _ _ _ Hc) as (o' & Hget & Ho & _).
  exists x, o'. split; [reflexivity|]. split; [exact Hget|exact Ho].
Defined.

(** * The generic sparse container *)

Section SparseFacts.
Context {V : Type} `{Scalar V}.

(** the axes that a contraction specification keeps, counted from [i] *)
Fixpoint remaining (i : nat) (c : @contraction_spec V) : list nat :=
  match c with
  | [] => []
  | None :: rest => i :: remaining (S i) rest
  | Some _ :: rest => remaining (S i) rest
  end.

Lemma item_values (indices : list intarray) (i : nat) :
  np.item (map values indices) i
  = (idx <- np.item indices i ;; Ok (values idx)).
Proof.
  unfold np.item. rewrite nth_error_map.
  now destruct (nth_error indices i).
Qed.

(** [SparseArray.contract] weighs the data as
    [COOTensorIntegrand._contract] does *)
Lemma contract_loop_weigh (indices : list intarray) (c : contraction_spec)
  (i : nat) (data : list V) (rem : list nat) :
  SparseArray.contract_loop (map values indices) i c data rem
  = (data' <- weigh indices (nontrivial i c) data ;;
     Ok (data', rem ++ remaining i c)).
Proof.
  revert i data rem. induction c as [|[v|] c IH]; intros i data rem;
    cbn [SparseArray.contract_loop nontrivial remaining weigh bind].
  - now rewrite app_nil_r.
  - rewrite item_values.
    destruct (np.item indices i) as [idx|e]; [|reflexivity]. cbn [bind].
    destruct (np.take v (values idx)) as [w|e]; [|reflexivity]. cbn [bind].
    destruct (np.imul data w) as [data'|e]; [|reflexivity]. cbn [bind].
    apply IH.
  - rewrite IH. now rewrite <- app_assoc.
Qed.

Lemma map_result_items {A : Type} (l : list A) (start : nat) (pre : list A) :
  length pre = start ->
  map_result (np.item (pre ++ l)) (seq start (length l)) = Ok l.
Proof.
  revert start pre. induction l as [|a l IH]; intros start pre Hpre;
    [reflexivity|].
  cbn [length seq map_result]. unfold np.item at 1.
  rewrite nth_error_app2, Hpre, Nat.sub_diag by lia. cbn [nth_error bind].
  specialize (IH (S start) (pre ++ [a])).
  rewrite <- app_assoc in IH. cbn [app] in IH.
  rewrite IH by (rewrite length_app; cbn [length]; lia).
  reflexivity.
Qed.

Lemma remaining_trivial (n i : nat) : remaining i (trivial n) = seq i n.
Proof.
  revert i. induction n as [|n IH]; intros i; [reflexivity|].
  cbn [trivial repeat remaining seq]. f_equal. apply IH.
Qed.

(** X16: Transposing twice, and contracting nothing, give back the array:
    for an array that the constructor returned, [T] succeeds and reverses
    the index arrays and the shape, [T] of the result is the array again,
    and the contraction with no vector on any axis returns an equal
    array. *)
Theorem SparseArray_T_involutive (data : list V) (indices : list (list nat))
  (shape : list nat) (x : SparseArray.t) :
  SparseArray.init data indices shape = Ok x ->
  (exists y,
      SparseArray.T x = Ok y
      /\ SparseArray.T y = Ok x
      /\ SparseArray.indices y = rev indices
      /\ SparseArray.shape y = rev shape
      /\ SparseArray.data y = data)
  /\ SparseArray.contract x (trivial (SparseArray.ndim x)) = Ok x.
Proof.
  unfold SparseArray.init. intros Hinit. bind_inv Hinit.
  apply py_assert_Ok, Nat.eqb_eq in E. injection Hinit as <-.
  split.
  - unfold SparseArray.T, SparseArray.init.
    cbn [SparseArray.data SparseArray.indices SparseArray.shape].
    rewrite !length_rev, E, Nat.eqb_refl. cbn [py_assert bind].
    eexists. split; [reflexivity|].
    cbn [SparseArray.data SparseArray.indices SparseArray.shape].
    rewrite !rev_involutive, ?E, Nat.eqb_refl.
    cbn [py_assert bind]. now repeat split.
  - unfold SparseArray.contract.
    cbn [SparseArray.data SparseArray.indices SparseArray.shape
         SparseArray.ndim].
    rewrite <- (map_id indices) at 1.
    rewrite <- (map_map (IntArray Int64) values).
    rewrite contract_loop_weigh, nontrivial_all_none
      by apply forallb_is_none_trivial.
    cbn [weigh bind app]. rewrite remaining_trivial.
    pose proof (map_result_items indices 0 [] eq_refl) as Hi.
    pose proof (map_result_items shape 0 [] eq_refl) as Hs.
    cbn [app] in Hi, Hs. rewrite <- E in Hi. rewrite Hi, Hs.
    cbn [bind]. unfold SparseArray.init.
    now rewrite E, Nat.eqb_refl.
Qed.

(** X18: The generic container and the unassembled tensor agree.  On the same
    data, index arrays and shape, the contraction of all three axes
    followed by the dense export of [SparseArray] is the number that
    [COOTensorIntegrand._contract] returns, and the dense export of a
    container of rank three is the array that [COOTensorIntegrand.toarray]
    returns; an error of one is the error of the other. *)
Theorem SparseArray_agrees_with_tensor (x : COOTensorIntegrand)
  (s : SparseArray.t) :
  SparseArray.data s = coo_data x ->
  SparseArray.indices s = map values (coo_indices x) ->
  SparseArray.shape s = coo_shape x ->
  (forall u v w,
      (y <- SparseArray.contract s [Some u; Some v; Some w] ;;
       SparseArray.export y "dense")
      = (r <- COOTensorIntegrand__contract x [Some u; Some v; Some w] ;;
         match r with
         | PyScalar n => Ok (SparseArray.Number n)
         | _ => Raise TypeError
         end))
  /\ (SparseArray.ndim s = 3 ->
      SparseArray.export s "dense"
      = (a <- COOTensorIntegrand_toarray x ;; Ok (SparseArray.Dense a))).
Proof.
  intros Hdata Hidx Hshape. split.
  - intros u v w.
    unfold SparseArray.contract, COOTensorIntegrand__contract.
    rewrite Hidx, contract_loop_weigh, Hdata.
    cbn [forallb is_none andb nontrivial remaining map fst app].
    change (list_nat_eqb [0; 1; 2] [0; 1; 2]) with true. cbv iota.
    destruct (weigh _ _ _) as [data'|e]; reflexivity.
  - intros Hndim. unfold SparseArray.export, COOTensorIntegrand_toarray.
    rewrite Hndim, Hidx, Hshape.
    cbn [String.eqb Ascii.eqb Bool.eqb andb Nat.eqb].
    destruct (coo_indices x) as [|i [|j [|k [|? ?]]]]; try reflexivity;
      cbn [map].
    + destruct (coo_shape x) as [|s0 [|s1 [|s2 [|? ?]]]]; try reflexivity.
      destruct (ravel_multi_index _ _ _ _); [|reflexivity]. cbn [bind].
      rewrite Hdata.
      destruct (coo_toarray _ _ _ _ _); reflexivity.
Qed.

End SparseFacts.

Lemma SparseArray_T_involutive_witness :
  exists x y,
    SparseArray.init [1; 2; 3]%Z [[0; 0; 1]; [0; 1; 1]] [2; 2] = Ok x
    /\ SparseArray.T x = Ok y
    /\ SparseArray.T y = Ok x
    /\ SparseArray.contract x [None; None] = Ok x.
Proof.
  destruct (SparseArray.init [1; 2; 3]%Z [[0; 0; 1]; [0; 1; 1]] [2; 2])
    as [x|e] eqn:Hx; [|vm_compute in Hx; discriminate].
  destruct (SparseArray_T_involutive _ _ _ x Hx)
    as ((y & HT & HTT & _) & Hc).
  exists x, y. split; [reflexivity|]. split; [exact HT|].
  split; [exact HTT|].
  vm_compute in Hx. injection Hx as <-. exact Hc.
Defined.

Lemma SparseArray_agrees_with_tensor_witness :
  exists x,
    COOTensorIntegrand_init [2; 2; 2] [[0; 0; 1]; [0; 0; 1]; [0; 0; 1]]
                            [1; 2; 3]%Z = Ok x
    /\ (y <- SparseArray.contract
               {| SparseArray.data := [1; 2; 3]%Z;
                  SparseArray.indices := [[0; 0; 1]; [0; 0; 1]; [0; 0; 1]];
                  SparseArray.shape := [2; 2; 2];
                  SparseArray.ndim := 3 |}
               [Some [1; 1]; Some [1; 1]; Some [1; 1]]%Z ;;
        SparseArray.export y "dense")
       = Ok (SparseArray.Number 6%Z).
Proof.
  destruct (COOTensorIntegrand_init [2; 2; 2]
              [[0; 0; 1]; [0; 0; 1]; [0; 0; 1]] [1; 2; 3]%Z) as [x|e] eqn:Hx;
    [|vm_compute in Hx; discriminate].
  exists x. split; [reflexivity|].
  set (s := {| SparseArray.data := [1; 2; 3]%Z;
               SparseArray.indices := [[0; 0; 1]; [0; 0; 1]; [0; 0; 1]];
               SparseArray.shape := [2; 2; 2];
               SparseArray.ndim := 3 |}).
  assert (Hd : SparseArray.data s = coo_data x)
    by (vm_compute in Hx; injection Hx as <-; reflexivity).
  assert (Hi : SparseArray.indices s = map values (coo_indices x))
    by (vm_compute in Hx; injection Hx as <-; reflexivity).
  assert (Hs : SparseArray.shape s = coo_shape x)
    by (vm_compute in Hx; injection Hx as <-; reflexivity).
  rewrite (proj1 (SparseArray_agrees_with_tensor x s Hd Hi Hs)).
  vm_compute in Hx. injection Hx as <-. reflexivity.
Defined.

(** * The canonical positions of a vector assembler *)

Section VectorCanonical.

Lemma map_col_of_vector_triples {V : Type} (inds : list nat)
  (data : list V) :
  length data = length inds ->
  map col_of (triples (repeat 0 (length inds)) inds data) = inds.
Proof.
  unfold triples. revert data.
  induction inds as [|i inds IH]; intros [|d data] Hlen;
    simpl in Hlen; try discriminate; [reflexivity|].
  cbn [length repeat combine map]. f_equal. apply IH. congruence.
Qed.

(** X19: The positions that the constructor of [VectorAssembler] keeps
    increase strictly, so that none occurs twice; they are the positions
    that occur in the input, all of them below the length of the vector;
    and [order] is a permutation of the positions of the input. *)
Theorem VectorAssembler_canonical (shape : list nat) (inds : intarray)
  (a : VectorAssembler.t) :
  VectorAssembler.init shape inds = Ok a ->
  StronglySorted lt (values (VectorAssembler.row a))
  /\ (forall r, In r (values (VectorAssembler.row a))
                <-> In r (values inds))
  /\ (exists s0, shape = [s0]
                 /\ Forall (fun r => r < s0) (values (VectorAssembler.row a)))
  /\ Permutation (values (VectorAssembler.order a))
                 (seq 0 (length (values inds))).
Proof.
  intros Hinit.
  set (data := repeat 0%Z (length (values inds))).
  assert (Hdata : length data = length (values inds)) by apply repeat_length.
  destruct (VectorAssembler_call_merged (V := Z) shape inds a data Hinit
              Hdata)
    as (s0 & e0 & K & -> & HK & Hzero & Hcols & Hrow & _).
  set (L := merged 0 (col_of e0) (val_of e0) K) in *.
  inversion Hzero as [|? ? Hz0 HzK]; subst.
  inversion Hcols as [|? ? Hc0 HcK]; subst.
  assert (He0 : (0, col_of e0, val_of e0) = e0)
    by (destruct e0 as [[r0 c0] v0]; unfold row_of in Hz0;
        cbn [fst] in Hz0; now subst r0).
  assert (Hsorted : StronglySorted triple_lt L).
  { apply Sorted_StronglySorted; [apply triple_lt_trans|].
    apply merged_sorted. rewrite He0, <- HK.
    apply sorted_triples_sorted. }
  assert (HzL : Forall (fun e => row_of e = 0) L)
    by now apply (merged_Forall (fun r _ => r = 0)).
  assert (Hperm : Permutation (map col_of (e0 :: K)) (values inds)).
  { pose proof (Permutation_map col_of
                  (sorted_triples_perm (repeat 0 (length (values inds)))
                     (values inds) data (repeat_length 0 _)
                     (eq_trans Hdata (eq_sym (repeat_length 0 _))))) as Hp.
    now rewrite HK, (map_col_of_vector_triples _ _ Hdata) in Hp. }
  rewrite Hrow. split; [|split; [|split]].
  - clear - Hsorted HzL. induction Hsorted as [|e L' _ IH Hall];
      cbn [map]; constructor.
    + apply IH. now inversion HzL.
    + inversion HzL as [|? ? He HL']; subst.
      apply Forall_map. rewrite Forall_forall in *.
      intros e' He'. specialize (Hall e' He'). specialize (HL' e' He').
      unfold triple_lt, key_lt, tkey in Hall. cbn [fst snd] in Hall.
      lia.
  - intros r.
    assert (Hin : In r (map col_of L) <-> In r (map col_of (e0 :: K))).
    { split; intros Hr; apply in_map_iff in Hr;
        destruct Hr as (e & <- & He).
      - assert (Hk : In (tkey e) (map tkey L)) by now apply in_map.
        apply merged_keys in Hk. cbn [map In].
        destruct Hk as [Hk|Hk].
        + left. unfold tkey in Hk. now injection Hk.
        + right. apply in_map_iff in Hk. destruct Hk as (e' & Hk & He').
          apply in_map_iff. exists e'. split; [|exact He'].
          unfold tkey in Hk. now injection Hk.
      - assert (Hk : In (tkey e) (map tkey L)).
        { apply merged_keys. destruct He as [<-|He].
          - left. unfold tkey. now rewrite Hz0.
          - right. now apply in_map. }
        apply in_map_iff in Hk. destruct Hk as (e' & Hk & He').
        apply in_map_iff. exists e'. split; [|exact He'].
        unfold tkey in Hk. now injection Hk. }
    rewrite Hin. split; intros Hr.
    + now apply (Permutation_in _ Hperm).
    + now apply (Permutation_in _ (Permutation_sym Hperm)).
  - exists s0. split; [reflexivity|].
    apply Forall_map.
    now apply (merged_Forall (fun _ c => c < s0)).
  - assert (Horder : values (VectorAssembler.order a)
                     = np.lexsort1 (values inds)).
    { unfold VectorAssembler.init in Hinit. binds_inv Hinit.
      now injection Hinit as <-. }
    rewrite Horder, lexsort1_sorted_table.
    unfold sorted_table.
    eapply perm_trans; [apply Permutation_map, sort_perm|].
    rewrite map_snd_combine; [apply Permutation_refl|].
    rewrite length_combine, length_seq, repeat_length. lia.
Qed.

End VectorCanonical.

Lemma VectorAssembler_canonical_witness :
  exists a,
    VectorAssembler.init [3] (IntArray Int64 [2; 0; 2]) = Ok a
    /\ StronglySorted lt (values (VectorAssembler.row a))
    /\ Forall (fun r => r < 3) (values (VectorAssembler.row a)).
Proof.
  destruct (VectorAssembler.init [3] (IntArray Int64 [2; 0; 2]))
    as [a|e] eqn:Ha; [|vm_compute in Ha; discriminate].
  destruct (VectorAssembler_canonical _ _ a Ha)
    as (Hs & _ & (s0 & Hs0 & Hb) & _).
  injection Hs0 as <-.
  exists a. split; [reflexivity|]. split; [exact Hs|exact Hb].
Defined.

(** * The dense wrapper on a vector *)

Section DenseVector.
Context {V : Type} `{Scalar V}.

Lemma map_result_multiply_left (a0 : V) (v : list V) :
  map_result (nd.multiply_tree (Item a0)) (map Item v)
  = Ok (map Item (map (mul a0) v)).
Proof.
  induction v as [|c v IH]; [reflexivity|].
  cbn [map map_result].
  change (nd.multiply_tree (Item a0) (Item c)) with (Ok (Item (mul a0 c))).
  cbn [bind]. now rewrite IH.
Qed.

Lemma sum_vector (n : nat) (l : list V) :
  nd.sum (NdArray [n] (Axis (map Item l))) [0] = Ok (nd.scalar (np.sum l)).
Proof.
  cbn [nd.sum bind]. unfold nd.sum_axis.
  cbn [nd_shape nd_tree nd.sum_axis_tree].
  rewrite add_reduce_items. reflexivity.
Qed.

(** X20: The dense wrapper contracts a vector with a vector by broadcasting.
    Two vectors of one length give the sum of the products of their
    components.  When exactly one of the two has length one, its single
    component multiplies every component of the other before the sum;
    in every other case of unequal lengths the contraction raises
    [ValueError]. *)
Theorem numpy_contract_vector (p : option props) (l v : list V) :
  NumpyArrayIntegrand_get {| np_properties := p; np_obj := nd.of_vector l |}
                          [Some v]
  = if length v =? length l then
      Ok (PyArray (nd.scalar (np.sum (spec.zip_mul l v))))
    else
      match l, v with
      | [a0], _ => Ok (PyArray (nd.scalar (np.sum (map (mul a0) v))))
      | _, [c0] =>
          Ok (PyArray (nd.scalar (np.sum (map (fun a => mul a c0) l))))
      | _, _ => Raise ValueError
      end.
Proof.
  unfold NumpyArrayIntegrand_get, NumpyArrayIntegrand__contract,
    nd.of_vector.
  cbn [np_obj nd_shape length contract_loop].
  unfold nd.expand, nd.multiply.
  cbn [Nat.sub repeat app nd_shape nd_tree length nd.newaxes
       nd.broadcast_shapes bind].
  change (map (fun v0 : V => Item v0) v) with (map Item v).
  rewrite multiply_tree_Axis, !length_map.
  rewrite (Nat.eqb_sym (length v) (length l)).
  destruct (Nat.eqb_spec (length l) (length v)) as [Heq|Hne].
  - rewrite zip_result_multiply_items by exact Heq.
    cbn [bind app]. rewrite sum_vector. reflexivity.
  - destruct l as [|a0 [|a1 l]].
    + destruct v as [|c0 [|c1 v]]; [contradiction| |reflexivity].
      reflexivity.
    + cbn [length Nat.eqb map].
      rewrite map_result_multiply_left. cbn [bind app].
      rewrite sum_vector. reflexivity.
    + destruct v as [|c0 [|c1 v]]; [reflexivity| |].
      * cbn [length Nat.eqb map].
        change (Item a0 :: Item a1 :: map Item l)
          with (map Item (a0 :: a1 :: l)).
        rewrite map_result_multiply_item. cbn [bind app].
        rewrite sum_vector. reflexivity.
      * cbn [length Nat.eqb map bind].
        cbn [length] in Hne.
        destruct (Nat.eqb_spec (length l) (length v)); [lia|].
        reflexivity.
Qed.

End DenseVector.

(** * The names of the assemblers in the store *)

Section KeyNames.

Fixpoint comma_free (s : string) : bool :=
  match s with
  | EmptyString => true
  | String c s' => negb (Ascii.eqb c ",") && comma_free s'
  end.

Lemma split_comma_free (w : string) :
  comma_free w = true -> split "," w = [w].
Proof.
  induction w as [|c w IH]; [reflexivity|].
  cbn [comma_free split]. intros Hw. apply andb_true_iff in Hw.
  destruct Hw as [Hc Hw]. apply negb_true_iff in Hc.
  now rewrite Hc, (IH Hw).
Qed.

Lemma split_word (w rest : string) :
  comma_free w = true ->
  split "," (w ++ "," ++ rest) = w :: split "," rest.
Proof.
  induction w as [|c w IH]; [reflexivity|].
  cbn [comma_free]. intros Hw. apply andb_true_iff in Hw.
  destruct Hw as [Hc Hw]. apply negb_true_iff in Hc.
  change ((String c w ++ "," ++ rest)%string)
    with (String c (w ++ "," ++ rest)).
  cbn [split]. now rewrite Hc, (IH Hw).
Qed.

Lemma split_join (ws : list string) :
  ws <> [] -> Forall (fun w => comma_free w = true) ws ->
  split "," (join "," ws) = ws.
Proof.
  intros Hne Hws. induction Hws as [|w ws Hw Hws IH]; [contradiction|].
  destruct ws as [|w' ws].
  - cbn [join]. now apply split_comma_free.
  - change (join "," (w :: w' :: ws))
      with ((w ++ "," ++ join "," (w' :: ws))%string).
    rewrite (split_word _ _ Hw), IH; [reflexivity|discriminate].
Qed.

Lemma digits_comma_free (d : Decimal.uint) :
  comma_free (DecimalString.NilEmpty.string_of_uint d) = true.
Proof.
  induction d; cbn [DecimalString.NilEmpty.string_of_uint comma_free];
    try reflexivity; exact IHd.
Qed.

Lemma str_nat_comma_free (n : nat) : comma_free (str_nat n) = true.
Proof.
  unfold str_nat, DecimalString.NilZero.string_of_uint.
  destruct (Nat.to_uint n) eqn:Hn; try reflexivity;
    rewrite <- Hn; apply digits_comma_free.
Qed.

Lemma int_of_str_nat (n : nat) : int_of_string (str_nat n) = Ok n.
Proof.
  unfold int_of_string, str_nat.
  rewrite DecimalString.NilZero.usu.
  - now rewrite DecimalNat.Unsigned.of_to.
  - intros Hnil. pose proof (DecimalNat.Unsigned.of_to n) as Hn.
    rewrite Hnil in Hn. cbn in Hn. subst n. discriminate Hnil.
Qed.

Lemma map_result_int_of_str (key : list nat) :
  map_result int_of_string (map str_nat key) = Ok key.
Proof.
  induction key as [|n key IH]; [reflexivity|].
  cbn [map map_result]. now rewrite int_of_str_nat, IH.
Qed.

(** X21: The name under which [write] stores an assembler is read back by
    [read] as the key of the assembler: the decimal numbers of the key,
    joined by commas, split and parse to the key again.  Two keys never
    share a name.  The empty key is the exception: its name is the empty
    string, which [read] cannot parse ([ValueError]). *)
Theorem assembler_key_roundtrip :
  (forall key : list nat,
      map_result int_of_string (split "," (join "," (map str_nat key)))
      = match key with
        | [] => Raise ValueError
        | _ :: _ => Ok key
        end)
  /\ (forall key key' : list nat,
         join "," (map str_nat key) = join "," (map str_nat key') ->
         key = key').
Proof.
  assert (Hround : forall key : list nat,
             map_result int_of_string
               (split "," (join "," (map str_nat key)))
             = match key with
               | [] => Raise ValueError
               | _ :: _ => Ok key
               end).
  { intros [|n key]; [reflexivity|].
    rewrite split_join.
    - apply map_result_int_of_str.
    - discriminate.
    - apply Forall_map, Forall_forall. intros m _.
      apply str_nat_comma_free. }
  split; [exact Hround|].
  intros key key' Hname.
  pose proof (Hround key) as Hk. pose proof (Hround key') as Hk'.
  rewrite Hname, Hk' in Hk.
  destruct key, key'; congruence.
Qed.

End KeyNames.
